(** * The canonical Huffman encoder of src/encoder.cpp

    A shallow embedding of the encoder, function by function, followed by
    the properties its specification states about it.

    Conventions.
    - A [char] is the integer value it holds (a [Z]); a [std::string] of
      code bits is the list of its characters, most significant bit first.
    - [uint32_t] arithmetic is written with its reduction modulo [2^32].
    - [std::unordered_map<char, V>] is a [gmap Z V]; [operator[]] inserts a
      value-initialised entry when the key is absent ([subscript]).
    - A function that can throw, or whose behaviour C++ leaves undefined,
      returns an [outcome].
    - The order in which an unordered map is walked, the choice a priority
      queue makes among nodes of equal weight and the arrangement
      [std::sort] gives to equivalent elements are not fixed by the
      language, and the width of the weight of a node is declared in
      encoder.hpp, which is not among the sources: they are the fields of
      the class [Implementation], and every property is proved for all of
      its instances. *)

From Stdlib Require Import ZArith NArith List Ascii String Lia.
From stdpp Require Import gmap list sorting strings.
From Equations Require Import Equations.

#[local] Set Warnings "-clear-no-such-hyp".

(** ** Outcomes of a call *)

Inductive exception :=
| invalid_argument (character : Z)   (* "unsupported character: {}" *)
| out_of_range.

(** [Undefined] stands for undefined behaviour in the C++ sense (reading the
    top of an empty queue, indexing a string out of bounds, converting an
    infinite [double] to an integer) and for the one library corner this
    model leaves out ([std::stoi] on text that is not all binary digits). *)
Inductive outcome (A : Type) :=
| Returns (a : A)
| Throws (e : exception)
| Undefined.
Arguments Returns {A} a.
Arguments Throws {A} e.
Arguments Undefined {A}.

#[global] Instance outcome_ret : MRet outcome := @Returns.
#[global] Instance outcome_bind : MBind outcome := λ A B k m,
  match m with
  | Returns a => k a
  | Throws e => Throws e
  | Undefined => Undefined
  end.
Arguments outcome_bind {A B} k !m /.

Definition inspect {A} (a : A) : {b | a = b} := exist _ a eq_refl.

(** ** Machine integers and containers *)

Definition wrap32 (n : N) : N := (n mod 2 ^ 32)%N.

(** [m[k]]: the value at [k] and the map afterwards; an absent key is first
    inserted with the value-initialised [dflt]. *)
Definition subscript {V} (dflt : V) (k : Z) (m : gmap Z V) : V * gmap Z V :=
  match m !! k with
  | Some v => (v, m)
  | None => (dflt, <[k := dflt]> m)
  end.

Abbreviation bits := (list ascii).

(** ** The tree node *)

(** Modelled from the spec: [struct Node] is declared in encoder.hpp, which
    is not among the sources. The fields are those encoder.cpp reads and
    writes; a default-constructed node has symbol ['\0'], weight [0] and two
    null children, and nodes are ordered by [frequency] alone ("a
    min-priority queue ordered by cumulative weight"). The weight is an
    unsigned integer; its width is left open ([frequency_bits] below). *)
#[warnings="-register-all"]
Inductive Node := mkNode {
  symbol : Z;
  frequency : N;
  left : option Node;
  right : option Node
}.

(** Induction on a node, with the hypothesis for both children. *)
Definition Node_children_ind (P : Node → Prop)
  (step : ∀ s f l r, from_option P True l → from_option P True r →
                   P (mkNode s f l r)) : ∀ n, P n :=
  fix rec n :=
    match n with
    | mkNode s f l r =>
        step s f l r
          (match l with Some c => rec c | None => I end)
          (match r with Some c => rec c | None => I end)
    end.

Fixpoint node_size (n : Node) : nat :=
  match n with
  | mkNode _ _ l r =>
      S ((match l with Some l' => node_size l' | None => 0 end) +
         (match r with Some r' => node_size r' | None => 0 end))
  end.

(** The comparison given to [std::sort] in [generate_huffman_codes]. *)
Definition code_before (left_ right_ : Z * bits) : bool :=
  if decide (length left_.2 = length right_.2)
  then bool_decide (left_.1 < right_.1)%Z
  else bool_decide (length left_.2 < length right_.2).

(** ** What the sources leave open *)

Class Implementation := {
  (** the width of [Node::frequency]: [Node{symbol, frequency}] stores a
      [uint32_t] into it without narrowing, so it has 32 bits or more *)
  frequency_bits : N;
  frequency_bits_32 : (32 ≤ frequency_bits)%N;
  (** [for (const auto& [k, v] : m)] visits every entry once, in some order *)
  iteration : ∀ {V}, gmap Z V → list (Z * V);
  iteration_perm : ∀ V (m : gmap Z V), iteration m ≡ₚ map_to_list m;
  (** [min_priority_queue<Node>]; [contents] is what the queue holds *)
  queue : Type;
  empty_queue : queue;
  push : Node → queue → queue;
  (** [top()] followed by [pop()] *)
  top_pop : queue → option (Node * queue);
  contents : queue → list Node;
  contents_empty : contents empty_queue = [];
  contents_push : ∀ x q, contents (push x q) ≡ₚ x :: contents q;
  top_pop_None : ∀ q, top_pop q = None ↔ contents q = [];
  top_pop_Some : ∀ q x q', top_pop q = Some (x, q') →
    contents q ≡ₚ x :: contents q' ∧
    Forall (λ y, (frequency x ≤ frequency y)%N) (contents q');
  (** [std::sort] with [code_before] *)
  sort : list (Z * bits) → list (Z * bits);
  sort_perm : ∀ l, sort l ≡ₚ l;
  sort_sorted : ∀ l, StronglySorted (λ a b, code_before b a = false) (sort l)
}.

Definition size `{Implementation} (q : queue) : nat := length (contents q).

(** ** Reading lines *)

(** Modelled from the spec: [NEW_LINE] is defined in encoder.hpp, which is
    not among the sources; it is "the line-terminator symbol" appended to
    each line read, the character [std::getline] strips. *)
Definition NEW_LINE : Z := 10.

(** The characters up to the next ['\n'], and what follows it. *)
Fixpoint read_line (input : list Z) : list Z * list Z :=
  match input with
  | [] => ([], [])
  | c :: rest =>
      if decide (c = 10%Z) then ([], rest)
      else let '(line, rest') := read_line rest in (c :: line, rest')
  end.

(** [std::getline(input, line)] on a stream whose unread characters are
    [input]: it fails when nothing is left, and otherwise yields the line
    and the characters still unread. *)
Definition getline (input : list Z) : option (list Z * list Z) :=
  match input with
  | [] => None
  | _ => Some (read_line input)
  end.

Lemma read_line_length input : length (read_line input).2 ≤ length input.
Proof.
  induction input as [|c rest IH]; simpl; [lia|].
  case_decide; simpl; [lia|]. destruct (read_line rest); simpl in *; lia.
Qed.

Lemma getline_length input line rest :
  getline input = Some (line, rest) → length rest < length input.
Proof.
  destruct input as [|c input]; [done|]. intros [= Heq]. revert Heq. simpl.
  pose proof (read_line_length input).
  case_decide; [intros [= <- <-]; lia|].
  destruct (read_line input); intros [= <- <-]. simpl in *. lia.
Qed.

(** The lines the [while (std::getline(input, line))] of both passes reads,
    and the characters its body walks: every line followed by [NEW_LINE]. *)
Equations lines (input : list Z) : list (list Z) by wf (length input) lt :=
  lines input with inspect (getline input) := {
    | exist _ None _ => []
    | exist _ (Some (line, rest)) e => line :: lines rest }.
Next Obligation. eauto using getline_length. Qed.
#[global] Arguments lines : simpl never.

Definition characters (input : list Z) : list Z :=
  concat (map (λ line, line ++ [NEW_LINE]) (lines input)).

(** How often [c] occurs in [l]. *)
Definition occurrences (c : Z) (l : list Z) : N :=
  N.of_nat (length (filter (λ x, x = c) l)).

Section Encoder.

Context {impl : Implementation}.

(** The constants of encoder.hpp, which is not among the sources: the least
    supported character, one past the greatest character of the header, the
    end-of-stream character and the width of the [std::bitset] the header
    fields are printed with. They are taken to be values of type [char]:
    a loop variable that runs up to [SUPPORTED_CHARACTERS] does not wrap
    around. *)
Variables FIRST_CHARACTER SUPPORTED_CHARACTERS END_OF_TEXT : Z.
Variable MAX_BITS : nat.

(** ** [extract_frequencies] *)

(** [frequencies[character]++] *)
Definition increment (character : Z) (frequencies : gmap Z N) : gmap Z N :=
  let '(count, frequencies) := subscript 0%N character frequencies in
  <[character := wrap32 (count + 1)]> frequencies.

(** The body of the [while]: the [for] over [line + NEW_LINE]. *)
Fixpoint count_characters (characters : list Z) (frequencies : gmap Z N)
  : outcome (gmap Z N) :=
  match characters with
  | [] => Returns frequencies
  | character :: characters =>
      if decide (character < FIRST_CHARACTER)%Z
      then Throws (invalid_argument character)
      else count_characters characters (increment character frequencies)
  end.

Equations count_lines (input : list Z) (frequencies : gmap Z N)
  : outcome (gmap Z N) by wf (length input) lt :=
  count_lines input frequencies with inspect (getline input) := {
    | exist _ None _ => Returns frequencies
    | exist _ (Some (line, rest)) e =>
        match count_characters (line ++ [NEW_LINE]) frequencies with
        | Returns frequencies' => count_lines rest frequencies'
        | Throws x => Throws x
        | Undefined => Undefined
        end }.
Next Obligation. eauto using getline_length. Qed.
#[global] Arguments count_lines : simpl never.

Definition extract_frequencies (input : list Z) : outcome (gmap Z N) :=
  frequencies ← count_lines input ∅;
  Returns (increment END_OF_TEXT frequencies).

(** ** [build_huffman_tree] *)

(** [Node{symbol, frequency}] *)
Definition leaf (symbol : Z) (frequency : N) : Node :=
  mkNode symbol frequency None None.

(** [Node parent; parent.frequency = ...; parent.left = new Node{first};
    parent.right = new Node{second};] The sum is taken in the width of the
    field. *)
Definition parent (first second : Node) : Node :=
  mkNode 0 ((frequency first + frequency second) mod 2 ^ frequency_bits)%N
    (Some first) (Some second).

(** The [for] that pushes a leaf for every entry of the table. *)
Definition push_leaves (frequencies : gmap Z N) : queue :=
  foldl (λ nodes entry, push (leaf entry.1 entry.2) nodes)
    empty_queue (iteration frequencies).

(** The [while (nodes.size() > 1)] and the [return nodes.top()]. *)
Equations merge_nodes (nodes : queue) : outcome Node by wf (size nodes) lt :=
  merge_nodes nodes with inspect (bool_decide (1 < size nodes)) := {
    | exist _ false _ =>
        match top_pop nodes with
        | Some (top, _) => Returns top
        | None => Undefined
        end
    | exist _ true _ with inspect (top_pop nodes) := {
        | exist _ None _ => Undefined
        | exist _ (Some (first, nodes1)) e1 with inspect (top_pop nodes1) := {
            | exist _ None _ => Undefined
            | exist _ (Some (second, nodes2)) e2 =>
                merge_nodes (push (parent first second) nodes2) } } }.
Next Obligation.
  apply top_pop_Some in e1 as [e1 _]. apply top_pop_Some in e2 as [e2 _].
  unfold size. rewrite contents_push, e1, e2. simpl. lia.
Qed.
#[global] Arguments merge_nodes : simpl never.

Definition build_huffman_tree (frequencies : gmap Z N) : outcome Node :=
  merge_nodes (push_leaves frequencies).

(** ** [generate_huffman_codes] *)

Definition stack_size (nodes : list (Node * bits)) : nat :=
  sum_list (map (λ entry, node_size entry.1) nodes).

(** One turn of the [while (!nodes.empty())]: what the stack is after the
    top has been popped and its children pushed. *)
Definition push_children (current : Node) (code : bits)
  (nodes : list (Node * bits)) : list (Node * bits) :=
  let nodes :=
    match left current with
    | Some child => (child, code ++ ["0"%char]) :: nodes
    | None => nodes
    end in
  match right current with
  | Some child => (child, code ++ ["1"%char]) :: nodes
  | None => nodes
  end.

Lemma stack_size_push_children current code nodes :
  stack_size (push_children current code nodes) <
  stack_size ((current, code) :: nodes).
Proof.
  unfold push_children, stack_size. destruct current as [s f [l|] [r|]]; simpl; lia.
Qed.

(** The stack is a list with its top first; [huffman_codes] grows at its
    end, as [emplace_back] appends. *)
Equations traverse (nodes : list (Node * bits))
  (huffman_codes : list (Z * bits)) : list (Z * bits)
  by wf (stack_size nodes) lt :=
  traverse [] huffman_codes := huffman_codes;
  traverse ((current, code) :: nodes) huffman_codes :=
    traverse (push_children current code nodes)
      (if decide (symbol current ≠ 0%Z)
       then huffman_codes ++ [(symbol current, code)]
       else huffman_codes).
Next Obligation. apply stack_size_push_children. Qed.
#[global] Arguments traverse : simpl never.

Definition generate_huffman_codes (root : Node) : list (Z * bits) :=
  sort (traverse [(root, [])] []).

(** ** [next_binary] *)

Definition flip (bit : ascii) : ascii :=
  if decide (bit = "0"%char) then "1"%char else "0"%char.

(** The [for] of [next_binary], entered with the current [number], [carry]
    and [index]. [number[number.size() - index]] is out of bounds when
    [index] exceeds the size. *)
Equations next_binary_loop (number : bits) (carry index : nat)
  : outcome bits
  by wf ((length number + 1 - index) + (2 + carry - index)) lt :=
  next_binary_loop number carry index
    with inspect (bool_decide (index ≤ 1 + carry)) := {
    | exist _ false _ => Returns number
    | exist _ true e0
        with inspect (bool_decide (0 < carry ∧ length number < index)) := {
        | exist _ true e1 =>
            next_binary_loop ("1"%char :: number) (carry - 1) (index + 1)
        | exist _ false e1
            with inspect (bool_decide (1 ≤ index ≤ length number)) := {
            | exist _ false _ => Undefined
            | exist _ true e2
                with inspect (number !! (length number - index)) := {
                | exist _ None _ => Undefined
                | exist _ (Some last) _ =>
                    next_binary_loop
                      (<[length number - index := flip last]> number)
                      (if decide (last = "1"%char) then carry + 1 else carry)
                      (index + 1) } } } }.
Next Obligation.
  apply bool_decide_eq_true in e0, e1. clear next_binary_loop. simpl. lia.
Qed.
Next Obligation.
  apply bool_decide_eq_true in e0, e2. clear next_binary_loop.
  rewrite length_insert. destruct (decide (_ = "1"%char)); lia.
Qed.
#[global] Arguments next_binary_loop : simpl never.

Definition next_binary (number : bits) : outcome bits :=
  next_binary_loop number 0 1.

(** ** [generate_canonical_codes] *)

(** [while (current_code.size() < size) current_code += '0';] *)
Definition pad (current_code : bits) (size : nat) : bits :=
  current_code ++ replicate (size - length current_code) "0"%char.

(** The second [for], over the elements after the front one. *)
Fixpoint assign_codes (elements : list (Z * bits)) (last_code : bits)
  (canonical_codes : gmap Z bits) : outcome (gmap Z bits) :=
  match elements with
  | [] => Returns canonical_codes
  | current_element :: elements =>
      current_code ← next_binary last_code;
      let current_code := pad current_code (length current_element.2) in
      assign_codes elements current_code
        (<[current_element.1 := current_code]> canonical_codes)
  end.

(** [canonical_codes[k] += '0'] *)
Definition append_zero (k : Z) (canonical_codes : gmap Z bits)
  : gmap Z bits :=
  let '(code, canonical_codes) := subscript [] k canonical_codes in
  <[k := code ++ ["0"%char]]> canonical_codes.

(** [huffman_codes.front()] of an empty vector is undefined. *)
Definition generate_canonical_codes (huffman_codes : list (Z * bits))
  : outcome (gmap Z bits) :=
  match huffman_codes with
  | [] => Undefined
  | front_element :: elements =>
      let canonical_codes :=
        Nat.iter (length front_element.2) (append_zero front_element.1) ∅ in
      let '(last_code, canonical_codes) :=
        subscript [] front_element.1 canonical_codes in
      assign_codes elements last_code canonical_codes
  end.

(** ** Packing bits into bytes *)

Definition digit (c : ascii) : option Z :=
  if decide (c = "0"%char) then Some 0%Z
  else if decide (c = "1"%char) then Some 1%Z
  else None.

Fixpoint binary_value (value : Z) (text : bits) : option Z :=
  match text with
  | [] => Some value
  | c :: text => d ← digit c; binary_value (2 * value + d) text
  end.

(** [std::stoi(text, nullptr, 2)] on a non-empty text of binary digits;
    other texts are outside the model. *)
Definition stoi (text : bits) : outcome Z :=
  match text, binary_value 0 text with
  | _ :: _, Some value => Returns value
  | _, _ => Undefined
  end.

(** [buffer += bit; if (buffer.size() % 8 != 0) continue;
    output.push_back(std::stoi(buffer, nullptr, 2)); buffer.clear();]
    An output byte is kept as the value [stoi] returns, between 0 and 255:
    the [char] stored holds the same eight bits. *)
Definition put_bit (bit : ascii) (state : list Z * bits)
  : outcome (list Z * bits) :=
  let '(output, buffer) := state in
  let buffer := buffer ++ [bit] in
  if decide (length buffer mod 8 ≠ 0) then Returns (output, buffer)
  else byte ← stoi buffer; Returns (output ++ [byte], []).

Fixpoint put_bits (code : bits) (state : list Z * bits)
  : outcome (list Z * bits) :=
  match code with
  | [] => Returns state
  | bit :: code => state ← put_bit bit state; put_bits code state
  end.

(** [if (buffer.size() % 8 != 0) { while (buffer.size() % 8 != 0)
    buffer += '0'; output.push_back(std::stoi(buffer, nullptr, 2)); }] *)
Definition flush (state : list Z * bits) : outcome (list Z) :=
  let '(output, buffer) := state in
  if decide (length buffer mod 8 ≠ 0)
  then byte ← stoi (buffer ++ replicate (8 - length buffer mod 8) "0"%char);
       Returns (output ++ [byte])
  else Returns output.

(** ** [encode_codes_length] *)

(** The first [for]: the largest [code.size()], kept in a [uint32_t]. *)
Definition largest_code_length (code_table : gmap Z bits) : N :=
  foldl (λ largest entry,
           if decide (N.of_nat (length entry.2) < largest)%N then largest
           else wrap32 (N.of_nat (length entry.2)))
    0%N (iteration code_table).

(** [std::log2(largest) + 1] converted to [uint32_t]. For a positive
    [uint32_t] the integral part of the logarithm is the position of the
    leading bit; for [0] the logarithm is minus infinity, whose conversion
    to an integer is undefined. *)
Definition bit_count_of (largest : N) : outcome N :=
  if decide (largest = 0%N) then Undefined
  else Returns (N.log2 largest + 1)%N.

(** [std::bitset<width>(value).to_string()] *)
Definition bitset_to_string (width : nat) (value : N) : bits :=
  map (λ i, if N.testbit value (N.of_nat i) then "1"%char else "0"%char)
    (rev (seq 0 width)).

(** [s.substr(MAX_BITS - bit_count)] for a string [s] of [MAX_BITS]
    characters: when [bit_count] exceeds [MAX_BITS] the unsigned difference
    wraps around to a position beyond the end and [substr] throws. *)
Definition substr_from (bit_count : N) (s : bits) : outcome bits :=
  if decide (N.of_nat MAX_BITS < bit_count)%N then Throws out_of_range
  else Returns (drop (MAX_BITS - N.to_nat bit_count) s).

(** The second [for], over the characters from [FIRST_CHARACTER] up to,
    not including, [SUPPORTED_CHARACTERS]. *)
Fixpoint encode_lengths (characters : list Z) (bit_count : N)
  (code_table : gmap Z bits) (state : list Z * bits)
  : outcome (gmap Z bits * (list Z * bits)) :=
  match characters with
  | [] => Returns (code_table, state)
  | character :: characters =>
      let '(code, code_table) := subscript [] character code_table in
      let code_length := wrap32 (N.of_nat (length code)) in
      binary ← substr_from bit_count (bitset_to_string MAX_BITS code_length);
      state ← put_bits binary state;
      encode_lengths characters bit_count code_table state
  end.

(** The result is the output vector together with the table as the call
    leaves it: the table is passed by reference and [operator[]] writes to
    it. [bit_count] is at most 32, so the first byte holds it unchanged. *)
Definition encode_codes_length (code_table : gmap Z bits)
  : outcome (list Z * gmap Z bits) :=
  bit_count ← bit_count_of (largest_code_length code_table);
  '(code_table, state) ←
    encode_lengths
      (seqZ FIRST_CHARACTER (SUPPORTED_CHARACTERS - FIRST_CHARACTER))
      bit_count code_table ([Z.of_N bit_count], []);
  output ← flush state;
  Returns (output, code_table).

(** ** [encode_content] *)

(** The [for] over [line + NEW_LINE]. *)
Fixpoint encode_characters (characters : list Z) (code_table : gmap Z bits)
  (state : list Z * bits) : outcome (gmap Z bits * (list Z * bits)) :=
  match characters with
  | [] => Returns (code_table, state)
  | character :: characters =>
      let '(code, code_table) := subscript [] character code_table in
      state ← put_bits code state;
      encode_characters characters code_table state
  end.

Equations encode_lines (input : list Z) (code_table : gmap Z bits)
  (state : list Z * bits) : outcome (gmap Z bits * (list Z * bits))
  by wf (length input) lt :=
  encode_lines input code_table state with inspect (getline input) := {
    | exist _ None _ => Returns (code_table, state)
    | exist _ (Some (line, rest)) e =>
        match encode_characters (line ++ [NEW_LINE]) code_table state with
        | Returns (code_table', state') => encode_lines rest code_table' state'
        | Throws x => Throws x
        | Undefined => Undefined
        end }.
Next Obligation. eauto using getline_length. Qed.
#[global] Arguments encode_lines : simpl never.

Definition encode_content (input : list Z) (code_table : gmap Z bits)
  : outcome (list Z * gmap Z bits) :=
  '(code_table, state) ← encode_lines input code_table ([], []);
  let '(code, code_table) := subscript [] END_OF_TEXT code_table in
  state ← put_bits code state;
  output ← flush state;
  Returns (output, code_table).

(** ** [create_compressed_file] *)

(** What is computed between opening the two streams and writing the
    output: the bytes of the header followed by those of the content. The
    input stream is rewound before the second pass, so both passes read
    the same characters. *)
Definition compress (input : list Z) : outcome (list Z) :=
  frequencies ← extract_frequencies input;
  tree ← build_huffman_tree frequencies;
  let huffman_codes := generate_huffman_codes tree in
  canonical_codes ← generate_canonical_codes huffman_codes;
  '(encoded_codes, canonical_codes) ← encode_codes_length canonical_codes;
  '(encoded_content, _) ← encode_content input canonical_codes;
  Returns (encoded_codes ++ encoded_content).

(** The file system is a map from paths to contents. Constructing the
    [std::ofstream] creates the output file, or empties an existing one,
    before anything is read; an input file that cannot be opened reads as
    an empty stream. When an exception leaves the function the output file
    stays as the constructor left it. Beside [Undefined] the file system
    stands for nothing: no state of the files is defined then. *)
Definition create_compressed_file (file_path : string)
  (files : gmap string (list Z)) : gmap string (list Z) * outcome () :=
  let output_path := (file_path +:+ ".hf")%string in
  let files := <[output_path := []]> files in
  let input := default [] (files !! file_path) in
  match compress input with
  | Returns encoded => (<[output_path := encoded]> files, Returns ())
  | Throws e => (files, Throws e)
  | Undefined => (files, Undefined)
  end.

End Encoder.

(** * The vocabulary of the properties

    What the statements below speak of: the shape of a tree and the
    paths to its leaves, the successor of a code, the bits of a byte
    sequence, the alphabet of the header, and a decoder. *)

(** ** Frequencies *)

(** The table after the characters [l] have been counted. *)
Definition counted (l : list Z) (frequencies : gmap Z N) : gmap Z N :=
  foldl (λ frequencies c, increment c frequencies) frequencies l.

(** ** Trees and their codes *)

(** What one turn of the traversal records for a node and, after it, for
    the nodes below: the right child is pushed last and popped first. *)
Fixpoint visit (current : Node) (code : bits) : list (Z * bits) :=
  match current with
  | mkNode symbol _ left right =>
      (if decide (symbol ≠ 0%Z) then [(symbol, code)] else []) ++
      (match right with
       | Some child => visit child (code ++ ["1"%char])
       | None => []
       end) ++
      (match left with
       | Some child => visit child (code ++ ["0"%char])
       | None => []
       end)
  end.

(** A Huffman tree: a leaf carries a symbol, which is not ['\0'], and has
    no children; an inner node carries no symbol and has two children. *)
Inductive huffman_tree : Node → Prop :=
| huffman_leaf symbol frequency :
    symbol ≠ 0%Z → huffman_tree (mkNode symbol frequency None None)
| huffman_inner frequency l r :
    huffman_tree l → huffman_tree r →
    huffman_tree (mkNode 0 frequency (Some l) (Some r)).

(** The leaves of a tree, each with the path that leads to it from the
    root: ['0'] for an edge to the left, ['1'] for an edge to the right. *)
Fixpoint paths (t : Node) (path : bits) : list (Z * bits) :=
  match t with
  | mkNode symbol _ None None => [(symbol, path)]
  | mkNode _ _ l r =>
      (match l with
       | Some child => paths child (path ++ ["0"%char])
       | None => []
       end) ++
      (match r with
       | Some child => paths child (path ++ ["1"%char])
       | None => []
       end)
  end.

(** The leaves of a tree from left to right, each with its weight and its
    depth, the root being at depth [depth]. *)
Fixpoint leaves (t : Node) (depth : nat) : list (Z * N * nat) :=
  match t with
  | mkNode symbol frequency None None => [(symbol, frequency, depth)]
  | mkNode _ _ l r =>
      (match l with Some child => leaves child (S depth) | None => [] end) ++
      (match r with Some child => leaves child (S depth) | None => [] end)
  end.

(** Ascending by code length and, within a length, by symbol. *)
Definition code_le (a b : Z * bits) : Prop :=
  length a.2 < length b.2 ∨ length a.2 = length b.2 ∧ (a.1 ≤ b.1)%Z.

(** A tree as the merging loop builds it: a leaf carries any symbol, an
    inner node carries ['\0'] and has two children. *)
Inductive merged : Node → Prop :=
| merged_leaf s f : merged (mkNode s f None None)
| merged_inner f l r :
    merged l → merged r → merged (mkNode 0 f (Some l) (Some r)).

(** ** Canonical codes *)

(** The successor of a binary numeral whose digits are given least
    significant first: the carry runs through the ['1']s, and past the
    last digit it leaves a new ['1']. *)
Fixpoint increment_digits (digits : bits) : bits :=
  match digits with
  | [] => ["1"%char]
  | d :: digits =>
      if decide (d = "1"%char) then "0"%char :: increment_digits digits
      else flip d :: digits
  end.

(** The unsigned-binary successor of [number]. *)
Definition successor (number : bits) : bits :=
  rev (increment_digits (rev number)).

(** The codes [generate_canonical_codes] hands out, in the order of the
    list: after [last_code], each element gets the successor of the code
    before it, padded to the length of its own raw code. *)
Fixpoint canonical_sequence (last_code : bits) (elements : list (Z * bits))
  : list (Z * bits) :=
  match elements with
  | [] => []
  | current :: elements =>
      let code := pad (successor last_code) (length current.2) in
      (current.1, code) :: canonical_sequence code elements
  end.

Definition canonical_list (huffman_codes : list (Z * bits))
  : list (Z * bits) :=
  match huffman_codes with
  | [] => []
  | front :: elements =>
      let code := replicate (length front.2) "0"%char in
      (front.1, code) :: canonical_sequence code elements
  end.

(** Assignments to a table, one after the other. *)
Definition assign (l : list (Z * bits)) (m : gmap Z bits) : gmap Z bits :=
  foldl (λ m entry, <[entry.1 := entry.2]> m) m l.

Definition binary_digit (c : ascii) : Prop := c = "0"%char ∨ c = "1"%char.

(** The number a string of binary digits denotes, most significant digit
    first. *)
Definition bits_value (code : bits) : Z :=
  foldl (λ value c, 2 * value + (if decide (c = "1"%char) then 1 else 0))%Z
    0%Z code.

(** ** Bytes *)

(** The eight digits of a byte, and the digits of a sequence of bytes. *)
Definition byte_bits (byte : Z) : bits := bitset_to_string 8 (Z.to_N byte).

Definition bytes_bits (bytes : list Z) : bits := concat (map byte_bits bytes).

Definition is_byte (byte : Z) : Prop := (0 ≤ byte < 256)%Z.

(** A state of the packing loops holds [stream]: the bytes put out and the
    digits still in the buffer, fewer than eight, spell it. *)
Definition packed (stream : bits) (state : list Z * bits) : Prop :=
  bytes_bits state.1 ++ state.2 = stream ∧
  length state.2 < 8 ∧
  Forall binary_digit state.2 ∧
  Forall is_byte state.1.

(** ** The header *)

(** The characters the header has a field for, in the order of the fields. *)
Definition alphabet (FIRST_CHARACTER SUPPORTED_CHARACTERS : Z) : list Z :=
  seqZ FIRST_CHARACTER (SUPPORTED_CHARACTERS - FIRST_CHARACTER).

(** The length of the code of [c], zero when the table has none. *)
Definition code_length (code_table : gmap Z bits) (c : Z) : nat :=
  length (default [] (code_table !! c)).

(** The table after [operator[]] has been applied to each of [characters]. *)
Definition touched (characters : list Z) (code_table : gmap Z bits)
  : gmap Z bits :=
  foldl (λ code_table c, (subscript [] c code_table).2) code_table characters.

(** The field of [c]: the length of its code in [bit_count] digits. *)
Definition field (bit_count : N) (code_table : gmap Z bits) (c : Z) : bits :=
  bitset_to_string (N.to_nat bit_count)
    (wrap32 (N.of_nat (code_length code_table c))).

(** ** Depths and weights *)

(** The lists of leaf depths of strict binary trees, in any order: a single
    leaf at depth 0, and any leaf may be replaced by two leaves one level
    further down. *)
Inductive complete : list nat → Prop :=
| complete_leaf : complete [0]
| complete_split d ds : complete (d :: ds) → complete (S d :: S d :: ds)
| complete_perm ds ds' : ds ≡ₚ ds' → complete ds → complete ds'.

(** The sum of a list of weights. *)
Definition sum_weights (ws : list N) : N := foldr N.add 0%N ws.

(** The weighted path length of a list of (weight, depth) pairs. *)
Definition path_length (L : list (N * nat)) : N :=
  sum_weights (map (λ leaf, leaf.1 * N.of_nat leaf.2)%N L).

(** A strict binary tree: every node has no child or two. *)
Inductive strict : Node → Prop :=
| strict_leaf s f : strict (mkNode s f None None)
| strict_inner s f l r :
    strict l → strict r → strict (mkNode s f (Some l) (Some r)).

(** The weight of every inner node is the sum of those of its children. *)
Inductive sums : Node → Prop :=
| sums_leaf s f : sums (mkNode s f None None)
| sums_inner s f l r :
    sums l → sums r → f = (frequency l + frequency r)%N →
    sums (mkNode s f (Some l) (Some r)).

(** The symbols of the leaves with their weights, from left to right. *)
Definition leaf_weights (t : Node) : list (Z * N) := map fst (leaves t 0).

(** The total weight of the leaves, and the weighted external path
    length: the sum over the leaves of weight times depth. *)
Definition weight (t : Node) : N := sum_weights (map snd (leaf_weights t)).

Definition cost (t : Node) : N :=
  path_length (map (λ leaf, (leaf.1.2, leaf.2)) (leaves t 0)).

(** The runs of the merging loop on a queue that holds the forest [F]:
    while more than one node is left, a node of least weight and then a
    node of least weight among the others are taken out and their parent
    is put in. *)
Inductive huffman_steps `{Implementation} : list Node → Node → Prop :=
| steps_done t : huffman_steps [t] t
| steps_merge F first second rest F' t :
    F ≡ₚ first :: second :: rest →
    Forall (λ y, frequency first ≤ frequency y)%N (second :: rest) →
    Forall (λ y, frequency second ≤ frequency y)%N rest →
    F' ≡ₚ parent first second :: rest →
    huffman_steps F' t →
    huffman_steps F t.

(** What the merging loop keeps of every tree in the queue: it is strict,
    its inner weights are sums, and the weight at its root is the total
    weight of its leaves. *)
Definition well_formed (t : Node) : Prop :=
  strict t ∧ sums t ∧ frequency t = weight t.

(** The sum of the counts of a table. *)
Definition total (frequencies : gmap Z N) : N :=
  sum_weights (map snd (map_to_list frequencies)).

(** ** Prefix-free codes *)

(** The share of the code space a code of length [n] takes, in units of
    codes of length [M]. *)
Definition slot (M n : nat) : Z := 2 ^ Z.of_nat (M - n).

Definition kraft (M : nat) (ds : list nat) : Z :=
  foldr Z.add 0%Z (map (slot M) ds).

(** Neither code is a prefix of the other. *)
Definition incomparable (code1 code2 : bits) : Prop :=
  ¬ code1 `prefix_of` code2 ∧ ¬ code2 `prefix_of` code1.

(** The code of [entry] consists of binary digits, is at least [n] and at
    most [M] digits long, and starts at offset [start] or later. *)
Definition placed (M : nat) (start : Z) (n : nat) (entry : Z * bits) : Prop :=
  Forall binary_digit entry.2 ∧
  n ≤ length entry.2 ≤ M ∧
  (start ≤ bits_value entry.2 * slot M (length entry.2))%Z.

(** The codes of [codes], in their order, lie side by side from [start]
    to [stop], in units of codes of length [M]: each code begins where the
    code before it ends. *)
Fixpoint tiling (M : nat) (start : Z) (codes : list (Z * bits)) (stop : Z)
  : Prop :=
  match codes with
  | [] => start = stop
  | code :: codes =>
      (bits_value code.2 * slot M (length code.2))%Z = start ∧
      tiling M (start + slot M (length code.2)) codes stop
  end.

(** ** Exceptions *)

(** The exceptions a call can end with all satisfy [P]. *)
Definition throws_only {A} (P : exception → Prop) (o : outcome A) : Prop :=
  ∀ e, o = Throws e → P e.

Definition never (e : exception) : Prop := False.

Definition is_out_of_range (e : exception) : Prop := e = out_of_range.

(** ** The content *)

(** The code [encode_content] writes for [c]: the one the table holds, or
    nothing. *)
Definition code_of (code_table : gmap Z bits) (c : Z) : bits :=
  default [] (code_table !! c).

(** The symbols of the leaves of a tree, from left to right. *)
Definition symbols (t : Node) : list Z := map (λ leaf, leaf.1.1) (leaves t 0).

(** ** A decoder

    The repository has no decoder: decoding is a non-goal of the encoder.
    The one below follows the format the spec lays down, and is what the
    round trip is stated with. *)

Section Decoder.

Variables FIRST_CHARACTER SUPPORTED_CHARACTERS END_OF_TEXT : Z.

(** Modelled from the spec: the order in which canonical codes are handed
    out, "in non-decreasing length order, and within equal length in
    increasing symbol order". No decoder is among the sources. *)
Definition length_then_symbol (a b : Z * nat) : Prop :=
  a.2 < b.2 ∨ a.2 = b.2 ∧ (a.1 ≤ b.1)%Z.

#[global] Instance length_then_symbol_dec a b :
  Decision (length_then_symbol a b).
Proof. unfold length_then_symbol. apply _. Defined.

(** Modelled from the spec: the canonical codes rebuilt from the lengths
    alone, for symbols in that order: each symbol after the first gets the
    successor of the code before, extended by zeros to its length. *)
Fixpoint codes_after (last_code : bits) (lengths : list (Z * nat))
  : list (Z * bits) :=
  match lengths with
  | [] => []
  | (s, n) :: lengths =>
      let code := pad (successor last_code) n in
      (s, code) :: codes_after code lengths
  end.

(** Modelled from the spec: the first symbol gets the all-zero code of its
    length. *)
Definition codes_of_lengths (lengths : list (Z * nat)) : list (Z * bits) :=
  match lengths with
  | [] => []
  | (s, n) :: lengths =>
      let code := replicate n "0"%char in
      (s, code) :: codes_after code lengths
  end.

(** Modelled from the spec: the length table of the header, one field of
    [width] digits, most significant first, for each of [symbols]. *)
Fixpoint read_fields (width : nat) (symbols : list Z) (stream : bits)
  : list (Z * nat) :=
  match symbols with
  | [] => []
  | s :: symbols =>
      (s, Z.to_nat (bits_value (take width stream))) ::
      read_fields width symbols (drop width stream)
  end.

(** Modelled from the spec: the content is read bit by bit, and every code
    recognised yields its symbol, until the code of the end-of-stream
    symbol is read; [read] holds the digits read since the last symbol. *)
Fixpoint decode_symbols (codes : list (Z * bits)) (read stream : bits)
  : option (list Z) :=
  match stream with
  | [] => None
  | bit :: stream =>
      let read := read ++ [bit] in
      match find (λ entry : Z * bits, bool_decide (entry.2 = read)) codes with
      | Some (s, _) =>
          if decide (s = END_OF_TEXT) then Some []
          else cons s <$> decode_symbols codes [] stream
      | None => decode_symbols codes read stream
      end
  end.

(** Modelled from the spec: the decoder of the file format. The first byte
    is the width [w] of a field; the next [ceil(A * w / 8)] bytes hold, for
    the symbols of the alphabet in ascending order, the length of the
    symbol's code; a symbol of length zero has no code; the rest of the
    file is the content. *)
Definition decode (bytes : list Z) : option (list Z) :=
  match bytes with
  | [] => None
  | w :: bytes =>
      let width := Z.to_nat w in
      let symbols := alphabet FIRST_CHARACTER SUPPORTED_CHARACTERS in
      let lengths := read_fields width symbols (bytes_bits bytes) in
      let present := filter (λ entry, 0 < entry.2) lengths in
      let codes :=
        codes_of_lengths (merge_sort length_then_symbol present) in
      let header_size := (length symbols * width + 7) / 8 in
      decode_symbols codes [] (bytes_bits (drop header_size bytes))
  end.

End Decoder.

(** ** A reference implementation of the library

    One way the standard library can behave: an unordered map is walked
    in the order of [map_to_list], the queue is a list from which the first
    node of least weight is taken, and sorting is a merge sort. The weight
    of a node has 32 bits. The concrete instances of the properties are
    computed with it. *)

Module Reference.

Fixpoint take_min (q : list Node) : option (Node * list Node) :=
  match q with
  | [] => None
  | x :: q' =>
      match take_min q' with
      | None => Some (x, [])
      | Some (y, rest) =>
          if decide (frequency x ≤ frequency y)%N then Some (x, q')
          else Some (y, x :: rest)
      end
  end.

Lemma take_min_None q : take_min q = None ↔ q = [].
Proof.
  destruct q as [|x q]; [done|]. simpl.
  destruct (take_min q) as [[y rest]|]; [case_decide|]; done.
Qed.

Lemma take_min_Some q x q' :
  take_min q = Some (x, q') →
  q ≡ₚ x :: q' ∧ Forall (λ y, (frequency x ≤ frequency y)%N) q'.
Proof.
  revert x q'. induction q as [|a q IH]; intros x q' Hq; [done|].
  simpl in Hq. destruct (take_min q) as [[y rest]|] eqn:Hmin.
  - destruct (IH y rest eq_refl) as [Hperm Hall]. case_decide as Hle.
    + injection Hq as <- <-. split; [done|]. rewrite Hperm.
      constructor; [done|]. eapply Forall_impl; [exact Hall|]. simpl. lia.
    + injection Hq as <- <-. split.
      * rewrite Hperm. apply Permutation_swap.
      * constructor; [lia | done].
  - apply take_min_None in Hmin as ->. injection Hq as <- <-.
    split; [done | constructor].
Qed.

Definition not_after (a b : Z * bits) : Prop := code_before b a = false.

#[local] Instance not_after_dec a b : Decision (not_after a b).
Proof. unfold not_after. apply _. Defined.

#[local] Instance not_after_transitive : Transitive not_after.
Proof.
  intros a b c. unfold not_after, code_before.
  repeat case_decide; rewrite !bool_decide_eq_false; lia.
Qed.

#[local] Instance not_after_total : Total not_after.
Proof.
  intros a b. unfold not_after, code_before.
  repeat case_decide; rewrite !bool_decide_eq_false; lia.
Qed.

Definition implementation : Implementation := {|
  frequency_bits := 32;
  frequency_bits_32 := N.le_refl 32;
  iteration := λ V, map_to_list;
  iteration_perm := λ V m, reflexivity _;
  queue := list Node;
  empty_queue := [];
  push := cons;
  top_pop := take_min;
  contents := id;
  contents_empty := eq_refl;
  contents_push := λ x q, reflexivity _;
  top_pop_None := take_min_None;
  top_pop_Some := take_min_Some;
  sort := merge_sort not_after;
  sort_perm := merge_sort_Permutation not_after;
  sort_sorted := StronglySorted_merge_sort not_after
|}.

End Reference.

(** ** Another implementation of the library

    The library can as well walk the map backwards, put a new node at the
    other end of the queue, and sort the list from its end; and the weight
    of a node can have 64 bits. *)

Module Backwards.

#[local] Existing Instance Reference.not_after_dec.
#[local] Existing Instance Reference.not_after_transitive.
#[local] Existing Instance Reference.not_after_total.

Lemma weight_of_64_bits : (32 ≤ 64)%N.
Proof. lia. Qed.

Lemma contents_snoc (x : Node) (q : list Node) : q ++ [x] ≡ₚ x :: q.
Proof. symmetry. apply Permutation_cons_append. Qed.

Lemma sort_reverse_perm (l : list (Z * bits)) :
  merge_sort Reference.not_after (reverse l) ≡ₚ l.
Proof. by rewrite merge_sort_Permutation, reverse_Permutation. Qed.

Definition implementation : Implementation := {|
  frequency_bits := 64;
  frequency_bits_32 := weight_of_64_bits;
  iteration := λ V m, reverse (map_to_list m);
  iteration_perm := λ V m, reverse_Permutation (map_to_list m);
  queue := list Node;
  empty_queue := [];
  push := λ x q, q ++ [x];
  top_pop := Reference.take_min;
  contents := id;
  contents_empty := eq_refl;
  contents_push := contents_snoc;
  top_pop_None := Reference.take_min_None;
  top_pop_Some := Reference.take_min_Some;
  sort := λ l, merge_sort Reference.not_after (reverse l);
  sort_perm := sort_reverse_perm;
  sort_sorted := λ l, StronglySorted_merge_sort Reference.not_after (reverse l)
|}.

End Backwards.

(** ** Examples *)

Section Examples.

#[local] Existing Instance Reference.implementation.

(** The tree with [a] at depth 1 and [b], [c] at depth 2. *)
Definition example_tree : Node :=
  parent (leaf 97 2) (parent (leaf 98 1) (leaf 99 1)).

End Examples.

Definition example_frequencies : gmap Z N :=
  {[ 97%Z := 2%N; 98%Z := 1%N; 99%Z := 1%N ]}.

Definition example_table : gmap Z bits :=
  {[ 97%Z := ["0"]%char; 98%Z := ["1"; "0"]%char; 99%Z := ["1"; "1"]%char ]}.

(** A file system with one file, which holds ["a\0\n"]. *)
Definition example_files : gmap string (list Z) :=
  {[ "in"%string := [97; 0; 10]%Z ]}.

(** * Properties *)

(** Induction on the length of a list, for the loops that consume one. *)
Ltac length_induction l IH :=
  let n := fresh "n" in
  let Hn := fresh "Hn" in
  remember (length l) as n eqn:Hn; revert l Hn;
  induction n as [n IH] using lt_wf_ind; intros l ->.

(** ** Lines and characters *)

Lemma lines_eq input :
  lines input =
  match getline input with
  | None => []
  | Some (line, rest) => line :: lines rest
  end.
Proof.
  simp lines.
  destruct (inspect (getline input)) as [[[line rest]|] e]; simpl; by rewrite e.
Qed.

Lemma read_line_spec input :
  (10%Z ∉ (read_line input).1) ∧
  (input = (read_line input).1 ++ 10%Z :: (read_line input).2 ∨
   input = (read_line input).1 ∧ (read_line input).2 = []).
Proof.
  induction input as [|c input [IH1 IH2]]; simpl.
  - split; [apply not_elem_of_nil | by right].
  - case_decide as Hc; simpl.
    + subst. split; [apply not_elem_of_nil | by left].
    + destruct (read_line input) as [line rest]; simpl in *. split.
      * rewrite elem_of_cons. naive_solver.
      * destruct IH2 as [->|[-> ->]]; [by left | by right].
Qed.

Lemma characters_eq input :
  characters input =
  if decide (input = [] ∨ last input = Some 10%Z) then input
  else input ++ [10%Z].
Proof.
  unfold characters. length_induction input IH.
  rewrite lines_eq. destruct (decide (input = [])) as [->|Hne]; [done|].
  assert (getline input = Some (read_line input)) as Hget by by destruct input.
  rewrite Hget.
  assert (length (read_line input).2 < length input) as Hlen.
  { apply (getline_length input (read_line input).1).
    by rewrite Hget, <- surjective_pairing. }
  destruct (read_line_spec input) as [Hnot Hsplit].
  destruct (read_line input) as [line rest]; simpl in *.
  rewrite (IH _ Hlen rest eq_refl). unfold NEW_LINE.
  destruct Hsplit as [Heq|[Heq ->]].
  - assert (last input = if decide (rest = []) then Some 10%Z else last rest)
      as Hlast.
    { rewrite Heq, last_app_cons, last_cons. destruct rest as [|r rest]; [done|].
      rewrite decide_False by done.
      destruct (last (r :: rest)) eqn:E; [done|]. by apply last_None in E. }
    rewrite Hlast. destruct (decide (rest = [])) as [->|Hrest].
    + rewrite !decide_True by (first [by left | by right]).
      simpl. by rewrite app_nil_r, Heq.
    + destruct (decide (last rest = Some 10%Z)) as [Hl|Hl].
      * rewrite !decide_True by (by right). by rewrite <- app_assoc.
      * rewrite !decide_False by naive_solver.
        rewrite app_assoc. f_equal. by rewrite <- app_assoc.
  - subst line. simpl. rewrite decide_False; [by rewrite app_nil_r|].
    intros [?|Hlast]; [done|]. apply Hnot.
    apply last_Some in Hlast as [l' ->]. set_solver.
Qed.

Lemma elem_of_characters c input :
  c ∈ characters input → c ∈ input ∨ c = NEW_LINE.
Proof.
  rewrite characters_eq. case_decide; [by left|].
  rewrite elem_of_app, list_elem_of_singleton. naive_solver.
Qed.

Lemma input_subseteq_characters c input : c ∈ input → c ∈ characters input.
Proof. rewrite characters_eq. case_decide; set_solver. Qed.

(** ** The frequency table *)

Section Frequencies.

Variables FIRST_CHARACTER END_OF_TEXT : Z.

Lemma wrap32_succ (n k : N) : wrap32 (wrap32 n + k) = wrap32 (n + k).
Proof. unfold wrap32. by rewrite N.Div0.add_mod_idemp_l. Qed.

Lemma lookup_increment c c' (frequencies : gmap Z N) :
  increment c frequencies !! c' =
  if decide (c = c') then Some (wrap32 (default 0%N (frequencies !! c) + 1))
  else frequencies !! c'.
Proof.
  unfold increment, subscript.
  destruct (frequencies !! c) eqn:E; simpl; case_decide; subst;
    rewrite ?lookup_insert_eq, ?lookup_insert_ne by done; done.
Qed.

Lemma occurrences_cons c x l :
  occurrences c (x :: l) =
  ((if decide (x = c) then 1 else 0) + occurrences c l)%N.
Proof.
  unfold occurrences. rewrite filter_cons. case_decide; simpl; lia.
Qed.

Lemma occurrences_pos c l : (0 < occurrences c l)%N ↔ c ∈ l.
Proof.
  induction l as [|x l IH]; rewrite ?occurrences_cons.
  - unfold occurrences. simpl. rewrite elem_of_nil. lia.
  - rewrite elem_of_cons. case_decide; [subst; split; [by left | lia]|].
    rewrite N.add_0_l, IH. naive_solver.
Qed.

Lemma lookup_counted c l (frequencies : gmap Z N) :
  counted l frequencies !! c =
  if decide (c ∈ l)
  then Some (wrap32 (default 0%N (frequencies !! c) + occurrences c l))
  else frequencies !! c.
Proof.
  revert frequencies. induction l as [|x l IH]; intros frequencies.
  - by rewrite decide_False by apply not_elem_of_nil.
  - simpl. rewrite IH, lookup_increment, occurrences_cons.
    destruct (decide (x = c)) as [->|Hne].
    + rewrite (decide_True (P := c ∈ c :: l)) by by left. simpl.
      case_decide.
      * f_equal. rewrite N.add_assoc. apply wrap32_succ.
      * f_equal. assert (occurrences c l = 0%N) as ->.
        { assert (¬ (0 < occurrences c l)%N) by (by rewrite occurrences_pos). lia. }
        by rewrite N.add_0_r.
    + rewrite N.add_0_l. case_decide as Hin.
      * by rewrite decide_True by by right.
      * rewrite decide_False; [done|]. rewrite elem_of_cons. naive_solver.
Qed.

Lemma count_characters_Returns l frequencies :
  Forall (λ c, FIRST_CHARACTER ≤ c)%Z l →
  count_characters FIRST_CHARACTER l frequencies =
  Returns (counted l frequencies).
Proof.
  intros Hl. revert frequencies.
  induction Hl as [|c l Hc Hl IH]; intros frequencies; simpl; [done|].
  rewrite decide_False by lia. apply IH.
Qed.

Lemma count_characters_Throws l frequencies :
  ¬ Forall (λ c, FIRST_CHARACTER ≤ c)%Z l →
  ∃ c, c ∈ l ∧ (c < FIRST_CHARACTER)%Z ∧
    count_characters FIRST_CHARACTER l frequencies =
    Throws (invalid_argument c).
Proof.
  revert frequencies. induction l as [|c l IH]; intros frequencies Hl; simpl.
  - by destruct Hl.
  - case_decide as Hc.
    + exists c. split; [by left | done].
    + destruct (IH (increment c frequencies)) as (c' & ? & ? & ?).
      * contradict Hl. constructor; [lia | done].
      * exists c'. split; [by right | done].
Qed.

Lemma count_characters_app l1 l2 frequencies :
  count_characters FIRST_CHARACTER (l1 ++ l2) frequencies =
  count_characters FIRST_CHARACTER l1 frequencies ≫=
  count_characters FIRST_CHARACTER l2.
Proof.
  revert frequencies. induction l1 as [|c l1 IH]; intros; simpl; [done|].
  case_decide; [done | apply IH].
Qed.

Lemma count_lines_eq input frequencies :
  count_lines FIRST_CHARACTER input frequencies =
  match getline input with
  | None => Returns frequencies
  | Some (line, rest) =>
      count_characters FIRST_CHARACTER (line ++ [NEW_LINE]) frequencies ≫=
      count_lines FIRST_CHARACTER rest
  end.
Proof.
  simp count_lines.
  destruct (inspect (getline input)) as [[[line rest]|] e]; simpl; rewrite e;
    simpl; [|done].
  by destruct (count_characters _ _ _).
Qed.

(** The first pass counts the characters of [characters input], in order. *)
Lemma count_lines_characters input frequencies :
  count_lines FIRST_CHARACTER input frequencies =
  count_characters FIRST_CHARACTER (characters input) frequencies.
Proof.
  unfold characters. revert frequencies. length_induction input IH.
  intros frequencies. rewrite count_lines_eq, lines_eq.
  destruct (getline input) as [[line rest]|] eqn:Hget; [|done].
  cbn [map concat]. rewrite (count_characters_app (line ++ [NEW_LINE])).
  destruct (count_characters FIRST_CHARACTER (line ++ [NEW_LINE]) frequencies);
    simpl; [|done..].
  eapply IH; [|done]. eauto using getline_length.
Qed.

Lemma characters_supported input :
  (FIRST_CHARACTER ≤ NEW_LINE)%Z →
  Forall (λ c, FIRST_CHARACTER ≤ c)%Z input →
  Forall (λ c, FIRST_CHARACTER ≤ c)%Z (characters input).
Proof.
  rewrite !Forall_forall. intros HNL Hinput c Hc.
  apply elem_of_characters in Hc as [Hc| ->]; auto.
Qed.

Lemma extract_frequencies_Returns input :
  Forall (λ c, FIRST_CHARACTER ≤ c)%Z (characters input) →
  extract_frequencies FIRST_CHARACTER END_OF_TEXT input =
  Returns (increment END_OF_TEXT (counted (characters input) ∅)).
Proof.
  intros Hc. unfold extract_frequencies.
  by rewrite count_lines_characters, count_characters_Returns.
Qed.

Lemma extract_frequencies_Throws input :
  ¬ Forall (λ c, FIRST_CHARACTER ≤ c)%Z (characters input) →
  ∃ c, c ∈ characters input ∧ (c < FIRST_CHARACTER)%Z ∧
    extract_frequencies FIRST_CHARACTER END_OF_TEXT input =
    Throws (invalid_argument c).
Proof.
  intros Hc. unfold extract_frequencies. rewrite count_lines_characters.
  destruct (count_characters_Throws _ ∅ Hc) as (c & ? & ? & ->). eauto.
Qed.

(** The entries of the table [extract_frequencies] returns. *)
Lemma lookup_extract_frequencies input c :
  increment END_OF_TEXT (counted (characters input) ∅) !! c =
  if decide (c ∈ characters input ∨ c = END_OF_TEXT)
  then Some (wrap32 (occurrences c (characters input) +
                     (if decide (c = END_OF_TEXT) then 1 else 0)))
  else None.
Proof.
  rewrite lookup_increment, !lookup_counted, lookup_empty. simpl.
  assert (c ∉ characters input → occurrences c (characters input) = 0%N)
    as Hzero.
  { intros Hin. assert (¬ (0 < occurrences c (characters input))%N)
      by (by rewrite occurrences_pos). lia. }
  destruct (decide (END_OF_TEXT = c)) as [->|Hne];
    destruct (decide (c ∈ characters input)) as [Hin|Hin];
    repeat case_decide; try naive_solver; f_equal.
  - apply wrap32_succ.
  - by rewrite Hzero.
  - by rewrite N.add_0_r.
Qed.

Lemma occurrences_le_length c l : (occurrences c l ≤ N.of_nat (length l))%N.
Proof. unfold occurrences. pose proof (length_filter (λ x, x = c) l). lia. Qed.

(** C6, as amended: the table [extract_frequencies] returns. When every
    character of the input is supported, the table has an entry exactly for
    the characters that occur (each line read counted as its characters
    followed by the line terminator) and for the end-of-stream symbol;
    symbols of the alphabet that do not occur have no entry. An entry holds
    the number of occurrences, one more for the end-of-stream symbol,
    reduced modulo [2^32]; when fewer than [2^32 - 1] characters are read
    the counts are exact and that of the end-of-stream symbol is not zero. *)
Theorem extract_frequencies_table input :
  (FIRST_CHARACTER ≤ NEW_LINE)%Z →
  Forall (λ c, FIRST_CHARACTER ≤ c)%Z input →
  ∃ frequencies,
    extract_frequencies FIRST_CHARACTER END_OF_TEXT input =
      Returns frequencies ∧
    (∀ c, is_Some (frequencies !! c) ↔
          c ∈ characters input ∨ c = END_OF_TEXT) ∧
    (∀ c count, frequencies !! c = Some count →
       count = wrap32 (occurrences c (characters input) +
                       (if decide (c = END_OF_TEXT) then 1 else 0))) ∧
    ((N.of_nat (length (characters input)) < 2 ^ 32 - 1)%N →
     ∀ c count, frequencies !! c = Some count →
       count = (occurrences c (characters input) +
                (if decide (c = END_OF_TEXT) then 1 else 0))%N ∧
       (c = END_OF_TEXT → count ≠ 0%N)).
Proof.
  intros HNL Hinput. eexists. split.
  { apply extract_frequencies_Returns. by apply characters_supported. }
  assert (∀ c count,
    increment END_OF_TEXT (counted (characters input) ∅) !! c = Some count →
    count = wrap32 (occurrences c (characters input) +
                    (if decide (c = END_OF_TEXT) then 1 else 0))) as Hcount.
  { intros c count. rewrite lookup_extract_frequencies.
    case_decide; naive_solver. }
  split; [|split; [done|]].
  - intros c. rewrite lookup_extract_frequencies.
    case_decide; [by split; eauto|]. split; [by intros []|done].
  - intros Hlen c count Hc. apply Hcount in Hc as ->.
    pose proof (occurrences_le_length c (characters input)).
    unfold wrap32. rewrite N.mod_small by (case_decide; lia).
    split; [done|]. intros ->. rewrite decide_True by done. lia.
Qed.

End Frequencies.

(** ** The codes read off a tree *)

Section HuffmanCodes.

Context {impl : Implementation}.

Lemma traverse_visit nodes huffman_codes :
  traverse nodes huffman_codes =
  huffman_codes ++ concat (map (λ entry, visit entry.1 entry.2) nodes).
Proof.
  remember (stack_size nodes) as n eqn:Hn. revert nodes huffman_codes Hn.
  induction n as [n IH] using lt_wf_ind. intros nodes huffman_codes ->.
  destruct nodes as [|[current code] nodes]; simp traverse.
  { simpl. by rewrite app_nil_r. }
  rewrite (IH _ (stack_size_push_children current code nodes) _ _ eq_refl).
  destruct current as [s f l r]. unfold push_children. simpl.
  destruct l as [l|], r as [r|]; simpl; case_decide; simpl;
    rewrite <- ?app_assoc; simpl; rewrite ?app_nil_r; done.
Qed.

Lemma visit_paths t code : huffman_tree t → visit t code ≡ₚ paths t code.
Proof.
  intros Ht. revert code. induction Ht as [s f Hs|f l r _ IHl _ IHr]; intros code.
  - simpl. by rewrite decide_True.
  - simpl. rewrite IHl, IHr. apply Permutation_app_comm.
Qed.

Lemma paths_leaves t path :
  map (λ entry, (entry.1, length entry.2)) (paths t path) =
  map (λ entry, (entry.1.1, entry.2)) (leaves t (length path)).
Proof.
  revert path. induction t as [s f l r IHl IHr] using Node_children_ind.
  intros path.
  destruct l as [l|], r as [r|]; simpl in *; rewrite ?map_app, ?app_nil_r;
    repeat match goal with
    | IH : ∀ path, _ = map _ (leaves ?c _) |- context [paths ?c ?p'] =>
        rewrite (IH p')
    end; rewrite ?length_app; simpl; rewrite ?Nat.add_1_r; done.
Qed.

Lemma code_before_false a b : code_before b a = false ↔ code_le a b.
Proof.
  unfold code_before, code_le. case_decide.
  - rewrite bool_decide_eq_false. lia.
  - rewrite bool_decide_eq_false. lia.
Qed.

Lemma StronglySorted_weaken {A} (R1 R2 : relation A) l :
  (∀ a b, R1 a b → R2 a b) → StronglySorted R1 l → StronglySorted R2 l.
Proof.
  intros HR. induction 1 as [|a l _ IH Ha]; constructor; [done|].
  eapply Forall_impl; [exact Ha | apply HR].
Qed.

Lemma sort_code_le l : StronglySorted code_le (sort l).
Proof.
  eapply StronglySorted_weaken, sort_sorted.
  intros a b. apply code_before_false.
Qed.

(** The list [generate_huffman_codes] returns: the paths, with their
    lengths, in order. *)
Lemma generate_huffman_codes_sorted_paths root :
  huffman_tree root →
  generate_huffman_codes root ≡ₚ paths root [] ∧
  map (λ entry, (entry.1, length entry.2)) (generate_huffman_codes root) ≡ₚ
    map (λ entry, (entry.1.1, entry.2)) (leaves root 0) ∧
  StronglySorted code_le (generate_huffman_codes root).
Proof.
  intros Hroot. unfold generate_huffman_codes.
  assert (sort (traverse [(root, [])] []) ≡ₚ paths root []) as Hperm.
  { rewrite sort_perm, traverse_visit. simpl. rewrite app_nil_r.
    by apply visit_paths. }
  split; [done|]. split; [|apply sort_code_le].
  rewrite Hperm. by rewrite paths_leaves.
Qed.

(** C8, as amended: for a Huffman tree none of whose leaves carries
    ['\0'], [generate_huffman_codes] returns one entry for each leaf,
    holding the leaf's symbol and the path from the root to it (whose
    length is the depth of the leaf), in ascending order of code length
    and, within a length, of symbol. *)
Theorem generate_huffman_codes_paths root :
  huffman_tree root →
  length (generate_huffman_codes root) = length (leaves root 0) ∧
  generate_huffman_codes root ≡ₚ paths root [] ∧
  map (λ entry, (entry.1, length entry.2)) (generate_huffman_codes root) ≡ₚ
    map (λ entry, (entry.1.1, entry.2)) (leaves root 0) ∧
  StronglySorted code_le (generate_huffman_codes root).
Proof.
  intros Hroot.
  destruct (generate_huffman_codes_sorted_paths root Hroot)
    as (Hpaths & Hlengths & Hsorted).
  split; [|done].
  apply Permutation_length in Hlengths. by rewrite !length_map in Hlengths.
Qed.

End HuffmanCodes.

(** ** Canonical codes *)

Section CanonicalCodes.

Lemma next_binary_loop_eq number carry index :
  next_binary_loop number carry index =
  if bool_decide (index ≤ 1 + carry) then
    if bool_decide (0 < carry ∧ length number < index)
    then next_binary_loop ("1"%char :: number) (carry - 1) (index + 1)
    else if bool_decide (1 ≤ index ≤ length number) then
      match number !! (length number - index) with
      | Some last =>
          next_binary_loop (<[length number - index := flip last]> number)
            (if decide (last = "1"%char) then carry + 1 else carry)
            (index + 1)
      | None => Undefined
      end
    else Undefined
  else Returns number.
Proof.
  rewrite next_binary_loop_equation_1.
  destruct (inspect (bool_decide (index ≤ 1 + carry))) as [[] e0];
    simpl in e0 |- *; rewrite e0; [|done].
  destruct (inspect (bool_decide (0 < carry ∧ length number < index)))
    as [[] e1]; simpl; rewrite e1; [done|].
  destruct (inspect (bool_decide (1 ≤ index ≤ length number))) as [[] e2];
    simpl; rewrite e2; [|done].
  destruct (inspect (number !! (length number - index))) as [[last|] e3];
    simpl; rewrite e3; done.
Qed.

Lemma next_binary_loop_carry digits k :
  0 < k ∨ digits ≠ [] →
  next_binary_loop (rev digits ++ replicate k "0"%char) k (k + 1) =
  Returns (rev (increment_digits digits) ++ replicate k "0"%char).
Proof.
  revert k. induction digits as [|d digits IH]; intros k Hk.
  - destruct Hk as [Hk|]; [|done]. simpl.
    rewrite next_binary_loop_eq, length_replicate.
    rewrite bool_decide_eq_true_2 by lia. rewrite bool_decide_eq_true_2 by lia.
    rewrite next_binary_loop_eq. by rewrite bool_decide_eq_false_2 by lia.
  - rewrite next_binary_loop_eq. simpl.
    rewrite !length_app, length_rev, length_replicate. simpl.
    rewrite bool_decide_eq_true_2 by lia.
    rewrite bool_decide_eq_false_2 by lia.
    rewrite bool_decide_eq_true_2 by lia.
    replace (length digits + 1 + k - (k + 1)) with (length (rev digits) + 0)
      by (rewrite length_rev; lia).
    rewrite <- app_assoc, lookup_app_r by lia.
    rewrite Nat.add_0_r, Nat.sub_diag. simpl.
    rewrite <- (Nat.add_0_r (length (rev digits))), insert_app_r. simpl.
    destruct (decide (d = "1"%char)) as [->|Hd].
    + change (flip "1"%char) with "0"%char.
      change ("0"%char :: replicate k "0"%char)
        with (replicate (S k) "0"%char).
      replace (k + 1) with (S k) by lia. rewrite IH by lia.
      simpl. by rewrite <- app_assoc.
    + rewrite next_binary_loop_eq, bool_decide_eq_false_2 by lia.
      simpl. by rewrite <- app_assoc.
Qed.

Lemma next_binary_successor number :
  number ≠ [] → next_binary number = Returns (successor number).
Proof.
  intros Hne. unfold next_binary, successor.
  pose proof (next_binary_loop_carry (rev number) 0) as Hloop.
  simpl in Hloop. rewrite rev_involutive, !app_nil_r in Hloop.
  apply Hloop. right. intros Hrev. apply Hne.
  by rewrite <- (rev_involutive number), Hrev.
Qed.

Lemma next_binary_empty : next_binary [] = Undefined.
Proof. unfold next_binary. by rewrite next_binary_loop_eq. Qed.

Lemma successor_nonempty number : successor number ≠ [].
Proof.
  unfold successor. destruct (rev number) as [|d digits]; simpl; [done|].
  case_decide; simpl; by destruct (rev _).
Qed.

Lemma pad_nonempty code n : code ≠ [] → pad code n ≠ [].
Proof. unfold pad. by destruct code. Qed.

Lemma assign_codes_assign elements last_code canonical_codes :
  last_code ≠ [] →
  assign_codes elements last_code canonical_codes =
  Returns (assign (canonical_sequence last_code elements) canonical_codes).
Proof.
  revert last_code canonical_codes.
  induction elements as [|current elements IH]; intros last_code m Hne; [done|].
  simpl. rewrite next_binary_successor by done. simpl.
  apply IH, pad_nonempty, successor_nonempty.
Qed.

Lemma iter_append_zero k n :
  subscript [] k (Nat.iter n (append_zero k) ∅) =
  (replicate n "0"%char, {[k := replicate n "0"%char]}).
Proof.
  assert (∀ n, Nat.iter (S n) (append_zero k) ∅ =
               {[k := replicate (S n) "0"%char]}) as Hiter.
  { clear n. intros n. induction n as [|n IH].
    - simpl. unfold append_zero, subscript. rewrite lookup_empty.
      by rewrite insert_insert_eq.
    - rewrite Nat.iter_succ, IH. unfold append_zero, subscript.
      rewrite lookup_singleton_eq, insert_singleton_eq. f_equal.
      change ("0"%char :: replicate n "0"%char) with (replicate (S n) "0"%char).
      by rewrite <- replicate_S_end. }
  destruct n as [|n].
  - simpl. unfold subscript. by rewrite lookup_empty.
  - rewrite Hiter. unfold subscript. by rewrite lookup_singleton_eq.
Qed.

Lemma generate_canonical_codes_assign front elements :
  elements = [] ∨ front.2 ≠ [] →
  generate_canonical_codes (front :: elements) =
  Returns (assign (canonical_list (front :: elements)) ∅).
Proof.
  intros Hne. unfold generate_canonical_codes. rewrite iter_append_zero.
  destruct Hne as [->|Hne]; [done|].
  rewrite assign_codes_assign; [done|]. by destruct (front.2).
Qed.

Lemma generate_canonical_codes_Undefined front current elements :
  front.2 = [] →
  generate_canonical_codes (front :: current :: elements) = Undefined.
Proof.
  intros Hfront. unfold generate_canonical_codes.
  rewrite iter_append_zero, Hfront. simpl. by rewrite next_binary_empty.
Qed.

Lemma lookup_assign_notin l m s :
  s ∉ map fst l → assign l m !! s = m !! s.
Proof.
  revert m. induction l as [|e l IH]; intros m Hs; [done|].
  simpl in *. rewrite not_elem_of_cons in Hs. destruct Hs as [Hne Hs].
  unfold assign in *. simpl. rewrite IH by done. by rewrite lookup_insert_ne.
Qed.

Lemma lookup_assign l m s code :
  NoDup (map fst l) → (s, code) ∈ l → assign l m !! s = Some code.
Proof.
  revert m. induction l as [|e l IH]; intros m Hnodup Hin.
  - by apply elem_of_nil in Hin.
  - simpl in Hnodup. apply NoDup_cons in Hnodup as [Hnotin Hnodup].
    apply elem_of_cons in Hin as [<-|Hin].
    + unfold assign. simpl. fold (assign l (<[s := code]> m)).
      rewrite lookup_assign_notin by done. apply lookup_insert_eq.
    + unfold assign in *. simpl. by apply IH.
Qed.

Lemma map_fst_canonical_sequence last_code elements :
  map fst (canonical_sequence last_code elements) = map fst elements.
Proof.
  revert last_code. induction elements as [|e elements IH]; intros; [done|].
  simpl. by rewrite IH.
Qed.

Lemma map_fst_canonical_list huffman_codes :
  map fst (canonical_list huffman_codes) = map fst huffman_codes.
Proof.
  destruct huffman_codes; [done|]. simpl. by rewrite map_fst_canonical_sequence.
Qed.

Lemma canonical_sequence_consecutive s last_code raw elements i previous current :
  ((s, raw) :: elements) !! i = Some previous →
  ((s, raw) :: elements) !! S i = Some current →
  ∃ code,
    ((s, last_code) :: canonical_sequence last_code elements) !! i =
      Some (previous.1, code) ∧
    ((s, last_code) :: canonical_sequence last_code elements) !! S i =
      Some (current.1, pad (successor code) (length current.2)).
Proof.
  revert s last_code raw i. induction elements as [|e elements IH];
    intros s last_code raw i Hi HSi; [done|].
  destruct i as [|i]; simpl in *.
  - injection Hi as <-. injection HSi as <-. eauto.
  - destruct e as [s' raw']. eapply IH; eauto.
Qed.

(** *** The successor as a number *)

Lemma bits_value_snoc code c :
  bits_value (code ++ [c]) =
  (2 * bits_value code + (if decide (c = "1"%char) then 1 else 0))%Z.
Proof. unfold bits_value. by rewrite foldl_app. Qed.

Lemma flip_binary_digit c : binary_digit (flip c).
Proof. unfold flip, binary_digit. case_decide; auto. Qed.

Lemma increment_digits_binary digits :
  Forall binary_digit digits → Forall binary_digit (increment_digits digits).
Proof.
  induction 1 as [|d digits Hd Hds IH]; simpl.
  - constructor; [by right | constructor].
  - case_decide; constructor; auto using flip_binary_digit. by left.
Qed.

Lemma Forall_rev_iff {A} (P : A → Prop) l : Forall P (rev l) ↔ Forall P l.
Proof.
  split; intros Hl; [|by apply Forall_rev].
  rewrite <- (rev_involutive l). by apply Forall_rev.
Qed.

Lemma successor_binary code :
  Forall binary_digit code → Forall binary_digit (successor code).
Proof.
  intros Hcode. unfold successor. rewrite Forall_rev_iff.
  apply increment_digits_binary. by rewrite Forall_rev_iff.
Qed.

Lemma increment_digits_value digits :
  Forall binary_digit digits →
  bits_value (rev (increment_digits digits)) =
  (bits_value (rev digits) + 1)%Z.
Proof.
  induction 1 as [|d digits Hd _ IH]; simpl; [done|].
  destruct (decide (d = "1"%char)) as [->|Hne]; simpl.
  - rewrite !bits_value_snoc, IH. simpl. lia.
  - destruct Hd as [-> | ->]; [|done]. rewrite !bits_value_snoc. simpl. lia.
Qed.

(** The successor denotes the next number. *)
Lemma successor_value code :
  Forall binary_digit code →
  bits_value (successor code) = (bits_value code + 1)%Z.
Proof.
  intros Hcode. unfold successor.
  rewrite increment_digits_value by (by rewrite Forall_rev_iff).
  by rewrite rev_involutive.
Qed.

Lemma increment_digits_length digits :
  length (increment_digits digits) =
  if decide (Forall (λ c, c = "1"%char) digits) then S (length digits)
  else length digits.
Proof.
  induction digits as [|d digits IH]; simpl; [done|].
  destruct (decide (d = "1"%char)) as [->|Hne]; simpl.
  - rewrite IH. repeat case_decide; try done.
    + exfalso. match goal with H : ¬ _ |- _ => apply H end. by constructor.
    + exfalso. match goal with H : ¬ _ |- _ => apply H end.
      by eapply Forall_inv_tail.
  - rewrite decide_False; [done|]. intros Hall. by apply Forall_inv in Hall.
Qed.

(** The string grows, by a leading ['1'], exactly when the carry passes the
    most significant digit: when every digit is ['1']. *)
Lemma successor_length code :
  length (successor code) =
  if decide (Forall (λ c, c = "1"%char) code) then S (length code)
  else length code.
Proof.
  unfold successor. rewrite length_rev, increment_digits_length, length_rev.
  repeat case_decide; try done; exfalso;
    match goal with H : ¬ _ |- _ => apply H end.
  - by apply Forall_rev_iff.
  - by apply Forall_rev_iff.
Qed.

Lemma successor_all_ones n :
  successor (replicate n "1"%char) = "1"%char :: replicate n "0"%char.
Proof.
  assert (∀ k (c : ascii), rev (replicate k c) = replicate k c) as Hrev.
  { intros k c. rewrite rev_alt. apply (reverse_replicate k c). }
  unfold successor. rewrite Hrev.
  assert (increment_digits (replicate n "1"%char) =
          replicate n "0"%char ++ ["1"%char]) as ->.
  { induction n as [|n IH]; simpl; [done|]. by rewrite IH. }
  by rewrite rev_app_distr, Hrev.
Qed.

Lemma pad_length code n : length (pad code n) = length code `max` n.
Proof. unfold pad. rewrite length_app, length_replicate. lia. Qed.

(** C3, as amended. For a non-empty list of (symbol, code) pairs with
    pairwise distinct symbols, whose first code is not empty when other
    elements follow, [generate_canonical_codes] returns a table of the
    symbols of the list in which the first symbol has the all-zero string
    of the length of its code, and each later symbol has the successor of
    the code assigned just before it, with ['0']s appended while it is
    shorter than the symbol's own raw code: its length is the raw length
    unless the successor is already longer ([pad_length]). The successor is
    the next number, and is one digit longer exactly when all digits were
    ['1'] ([successor_value], [successor_length]). The order of the list
    plays no part. When the first code is empty and other elements follow,
    the behaviour is undefined ([generate_canonical_codes_Undefined]). *)
Theorem generate_canonical_codes_successors front elements :
  NoDup (map fst (front :: elements)) →
  elements = [] ∨ front.2 ≠ [] →
  ∃ canonical_codes,
    generate_canonical_codes (front :: elements) = Returns canonical_codes ∧
    (∀ s, is_Some (canonical_codes !! s) ↔ s ∈ map fst (front :: elements)) ∧
    canonical_codes !! front.1 = Some (replicate (length front.2) "0"%char) ∧
    (∀ i previous current,
       (front :: elements) !! i = Some previous →
       (front :: elements) !! S i = Some current →
       ∃ code,
         canonical_codes !! previous.1 = Some code ∧
         canonical_codes !! current.1 =
           Some (pad (successor code) (length current.2))).
Proof.
  intros Hnodup Hfront. eexists. split.
  { by apply generate_canonical_codes_assign. }
  assert (NoDup (map fst (canonical_list (front :: elements)))) as Hnodup'.
  { by rewrite map_fst_canonical_list. }
  split; [|split].
  - intros s. rewrite <- (map_fst_canonical_list (front :: elements)). split.
    + intros Hs. destruct (decide (s ∈ map fst (canonical_list (front :: elements))))
        as [|Hnotin]; [done|].
      rewrite lookup_assign_notin, lookup_empty in Hs by done. by destruct Hs.
    + intros Hs. apply list_elem_of_fmap in Hs as [[s' code] [-> Hin]].
      erewrite lookup_assign; eauto.
  - apply lookup_assign; [done|]. simpl. by left.
  - intros i previous current Hi HSi. destruct front as [s raw].
    destruct (canonical_sequence_consecutive s (replicate (length raw) "0"%char)
      raw elements i previous current Hi HSi) as (code & Hp & Hc).
    exists code. split; (apply lookup_assign; [done|]).
    + by eapply list_elem_of_lookup_2.
    + by eapply list_elem_of_lookup_2.
Qed.

End CanonicalCodes.

(** ** Bits and bytes *)

Section Packing.

Lemma rev_seq_S n : rev (seq 0 (S n)) = map S (rev (seq 0 n)) ++ [0].
Proof.
  change (seq 0 (S n)) with (0 :: seq 1 n).
  rewrite <- seq_shift. simpl. by rewrite map_rev.
Qed.

(** The digits of [value] are those of its half followed by its parity. *)
Lemma bitset_to_string_S width value :
  bitset_to_string (S width) value =
  bitset_to_string width (N.div2 value) ++
  [if N.odd value then "1"%char else "0"%char].
Proof.
  unfold bitset_to_string. rewrite rev_seq_S, map_app, map_map. simpl.
  f_equal; [|by rewrite N.bit0_odd].
  apply map_ext. intros i.
  by rewrite Nat2N.inj_succ, N.testbit_succ_r_div2 by lia.
Qed.

Lemma length_bitset_to_string width value :
  length (bitset_to_string width value) = width.
Proof.
  unfold bitset_to_string. by rewrite length_map, length_rev, length_seq.
Qed.

Lemma bitset_to_string_binary width value :
  Forall binary_digit (bitset_to_string width value).
Proof.
  unfold bitset_to_string. apply Forall_map, Forall_forall. intros i _.
  unfold binary_digit. destruct (N.testbit _ _); auto.
Qed.

(** A field of [width] digits holds [value] itself when it is below
    [2 ^ width], and its low digits otherwise. *)
Lemma bits_value_bitset_to_string width value :
  bits_value (bitset_to_string width value) =
  Z.of_N (value mod 2 ^ N.of_nat width).
Proof.
  revert value. induction width as [|width IH]; intros value.
  - simpl. by rewrite N.mod_1_r.
  - rewrite bitset_to_string_S, bits_value_snoc, IH.
    rewrite Nat2N.inj_succ, N.pow_succ_r'.
    rewrite N.div2_div.
    rewrite (N.Div0.mod_mul_r value 2 (2 ^ N.of_nat width)).
    rewrite <- N.bit0_mod, N.bit0_odd.
    destruct (N.odd value); simpl; lia.
Qed.

(** Conversely the digits of a number, as a field as wide as the string,
    are the string. *)
Lemma bitset_to_string_bits_value code :
  Forall binary_digit code →
  bitset_to_string (length code) (Z.to_N (bits_value code)) = code.
Proof.
  induction code as [|c code IH] using rev_ind; intros Hcode; [done|].
  apply Forall_app in Hcode as [Hcode Hc]. apply Forall_inv in Hc.
  rewrite length_app, Nat.add_1_r, bitset_to_string_S, bits_value_snoc.
  assert (0 ≤ bits_value code)%Z as Hpos.
  { clear. induction code as [|c code IH] using rev_ind; [done|].
    rewrite bits_value_snoc. case_decide; lia. }
  set (d := if decide (c = "1"%char) then 1%Z else 0%Z).
  assert (d = 0 ∨ d = 1)%Z as Hd by (unfold d; case_decide; auto).
  assert (N.div2 (Z.to_N (2 * bits_value code + d)) =
          Z.to_N (bits_value code)) as ->.
  { rewrite N.div2_div. apply N2Z.inj.
    rewrite N2Z.inj_div, !Z2N.id by lia. simpl.
    rewrite Z.add_comm, Z.mul_comm, Z.div_add by lia.
    destruct Hd as [-> | ->]; done. }
  rewrite IH by done. do 2 f_equal.
  assert (N.odd (Z.to_N (2 * bits_value code + d)) = bool_decide (d = 1%Z))
    as ->.
  { replace (Z.to_N (2 * bits_value code + d)) with
      (Z.to_N d + 2 * Z.to_N (bits_value code))%N by lia.
    rewrite N.odd_add_mul_2. by destruct Hd as [-> | ->]. }
  unfold d. destruct Hc as [-> | ->]; done.
Qed.

Lemma bits_value_bound code :
  (0 ≤ bits_value code < 2 ^ Z.of_nat (length code))%Z.
Proof.
  induction code as [|c code IH] using rev_ind; [by compute|].
  rewrite bits_value_snoc, length_app, Nat.add_1_r, Nat2Z.inj_succ,
    Z.pow_succ_r by lia.
  case_decide; lia.
Qed.

Lemma bytes_bits_app bytes1 bytes2 :
  bytes_bits (bytes1 ++ bytes2) = bytes_bits bytes1 ++ bytes_bits bytes2.
Proof. unfold bytes_bits. by rewrite map_app, concat_app. Qed.

Lemma length_bytes_bits bytes : length (bytes_bits bytes) = 8 * length bytes.
Proof.
  induction bytes as [|b bytes IH]; [done|].
  change (bytes_bits (b :: bytes)) with (byte_bits b ++ bytes_bits bytes).
  rewrite length_app, IH. unfold byte_bits.
  rewrite length_bitset_to_string. simpl. lia.
Qed.

Lemma bytes_bits_binary bytes : Forall binary_digit (bytes_bits bytes).
Proof.
  unfold bytes_bits. apply Forall_concat, Forall_map, Forall_forall.
  intros b _. apply bitset_to_string_binary.
Qed.

Lemma binary_value_foldl text value :
  Forall binary_digit text →
  binary_value value text =
  Some (foldl (λ value c,
          2 * value + (if decide (c = "1"%char) then 1 else 0))%Z value text).
Proof.
  intros Htext. revert value.
  induction Htext as [|c text Hc _ IH]; intros value; [done|].
  simpl. unfold digit. destruct Hc as [-> | ->]; simpl; apply IH.
Qed.

Lemma stoi_bits_value text :
  Forall binary_digit text → text ≠ [] →
  stoi text = Returns (bits_value text).
Proof.
  intros Htext Hne. unfold stoi. destruct text as [|c text]; [done|].
  by rewrite binary_value_foldl by done.
Qed.

Lemma stoi_byte buffer :
  Forall binary_digit buffer → length buffer = 8 →
  stoi buffer = Returns (bits_value buffer) ∧
  is_byte (bits_value buffer) ∧ byte_bits (bits_value buffer) = buffer.
Proof.
  intros Hbuffer Hlen. split; [|split].
  - apply stoi_bits_value; [done|]. by destruct buffer.
  - pose proof (bits_value_bound buffer) as Hb. rewrite Hlen in Hb. done.
  - unfold byte_bits. rewrite <- Hlen.
    by apply bitset_to_string_bits_value.
Qed.

Lemma put_bit_packed stream state bit :
  packed stream state → binary_digit bit →
  ∃ state', put_bit bit state = Returns state' ∧
            packed (stream ++ [bit]) state'.
Proof.
  destruct state as [output buffer].
  intros (Hstream & Hlen & Hbin & Hbytes) Hbit. cbn [fst snd] in *.
  assert (Forall binary_digit (buffer ++ [bit])) as Hbin'.
  { apply Forall_app. split; [done|]. by constructor. }
  assert (length (buffer ++ [bit]) = S (length buffer)) as Hlen'.
  { rewrite length_app. simpl. lia. }
  unfold put_bit. destruct (decide (S (length buffer) = 8)) as [Heq|Hneq].
  - assert (length (buffer ++ [bit]) = 8) as Hfull by lia.
    rewrite Hfull, decide_False by (by compute).
    destruct (stoi_byte _ Hbin' Hfull) as (-> & Hbyte & Hbits).
    eexists. split; [done|]. split; [|split; [|split]]; cbn [fst snd].
    + rewrite bytes_bits_app. unfold bytes_bits at 2. cbn [map concat].
      rewrite Hbits, !app_nil_r, <- Hstream. by rewrite app_assoc.
    + simpl. lia.
    + done.
    + apply Forall_app. split; [done|]. by constructor.
  - rewrite Hlen', Nat.mod_small, decide_True by lia.
    eexists. split; [done|]. split; [|split; [|done]]; cbn [fst snd].
    + by rewrite app_assoc, Hstream.
    + lia.
Qed.

Lemma put_bits_packed code stream state :
  packed stream state → Forall binary_digit code →
  ∃ state', put_bits code state = Returns state' ∧
            packed (stream ++ code) state'.
Proof.
  intros Hstate Hcode. revert stream state Hstate.
  induction Hcode as [|bit code Hbit _ IH]; intros stream state Hstate.
  - exists state. by rewrite app_nil_r.
  - destruct (put_bit_packed _ _ _ Hstate Hbit) as (state1 & Hput & Hstate1).
    destruct (IH _ _ Hstate1) as (state2 & Hputs & Hstate2).
    exists state2. simpl. rewrite Hput. simpl. split; [done|].
    by rewrite <- app_assoc in Hstate2.
Qed.

(** Flushing appends fewer than eight ['0']s, as many as fill the byte. *)
Lemma flush_packed stream state :
  packed stream state →
  ∃ output padding,
    flush state = Returns output ∧
    bytes_bits output = stream ++ replicate padding "0"%char ∧
    padding < 8 ∧ Forall is_byte output.
Proof.
  destruct state as [output buffer]. intros (Hstream & Hlen & Hbin & Hbytes).
  cbn [fst snd] in *. unfold flush. rewrite Nat.mod_small by done.
  destruct (decide (length buffer = 0)) as [Hempty|Hempty].
  - rewrite decide_False by lia. exists output, 0.
    split; [done|]. split; [|split; [lia | done]].
    apply nil_length_inv in Hempty. subst buffer.
    simpl. by rewrite !app_nil_r in *.
  - rewrite decide_True by done.
    assert (Forall binary_digit
      (buffer ++ replicate (8 - length buffer) "0"%char)) as Hbin'.
    { apply Forall_app. split; [done|]. apply Forall_replicate. by left. }
    assert (length (buffer ++ replicate (8 - length buffer) "0"%char) = 8)
      as Hfull.
    { rewrite length_app, length_replicate. lia. }
    destruct (stoi_byte _ Hbin' Hfull) as (-> & Hbyte & Hbits).
    eexists _, (8 - length buffer).
    split; [done|]. split; [|split].
    + rewrite bytes_bits_app. unfold bytes_bits at 2. cbn [map concat].
      rewrite Hbits, !app_nil_r, <- Hstream. by rewrite app_assoc.
    + lia.
    + apply Forall_app. split; [done|]. by constructor.
Qed.

End Packing.

(** ** The header *)

Section Header.

Context {impl : Implementation}.
Variables FIRST_CHARACTER SUPPORTED_CHARACTERS : Z.
Variable MAX_BITS : nat.

(** The characters of the header, for the constants of this section. *)
Local Abbreviation alphabet :=
  (alphabet FIRST_CHARACTER SUPPORTED_CHARACTERS).

Lemma lookup_subscript (code_table : gmap Z bits) c c' :
  (subscript [] c code_table).2 !! c' =
  if decide (c = c') then Some (default [] (code_table !! c))
  else code_table !! c'.
Proof.
  unfold subscript. destruct (code_table !! c) eqn:E; simpl; case_decide;
    subst; rewrite ?lookup_insert_eq, ?lookup_insert_ne by done; done.
Qed.

Lemma subscript_fst (code_table : gmap Z bits) c :
  (subscript [] c code_table).1 = default [] (code_table !! c).
Proof. unfold subscript. by destruct (code_table !! c). Qed.

Lemma lookup_touched characters (code_table : gmap Z bits) c :
  touched characters code_table !! c =
  if decide (c ∈ characters) then Some (default [] (code_table !! c))
  else code_table !! c.
Proof.
  revert code_table. induction characters as [|x l IH]; intros code_table.
  - by rewrite decide_False by apply not_elem_of_nil.
  - unfold touched in *. simpl. rewrite IH, lookup_subscript.
    destruct (decide (x = c)) as [->|Hne].
    + rewrite (decide_True (P := c ∈ c :: l)) by by left.
      by case_decide.
    + case_decide as Hin.
      * by rewrite decide_True by by right.
      * rewrite decide_False; [done|]. rewrite elem_of_cons. naive_solver.
Qed.

Lemma code_length_touched characters code_table c :
  code_length (touched characters code_table) c = code_length code_table c.
Proof.
  unfold code_length. rewrite lookup_touched. case_decide; [|done].
  by destruct (code_table !! c).
Qed.

Lemma largest_fold (l : list (Z * bits)) init max_length :
  (init ≤ N.of_nat max_length)%N →
  (N.of_nat max_length < 2 ^ 32)%N →
  Forall (λ entry, length entry.2 ≤ max_length) l →
  let largest :=
    foldl (λ largest entry,
             if decide (N.of_nat (length entry.2) < largest)%N then largest
             else wrap32 (N.of_nat (length entry.2))) init l in
  (init ≤ largest ≤ N.of_nat max_length)%N ∧
  (Exists (λ entry, length entry.2 = max_length) l →
   largest = N.of_nat max_length).
Proof.
  intros Hinit Hmax Hl. revert init Hinit.
  induction Hl as [|entry l Hentry Hl IH]; intros init Hinit; simpl.
  - split; [lia|]. by intros ?%Exists_nil.
  - set (next := if decide (N.of_nat (length entry.2) < init)%N then init
                 else wrap32 (N.of_nat (length entry.2))).
    assert (next = N.max init (N.of_nat (length entry.2))) as Hnext.
    { unfold next, wrap32. case_decide; [lia|].
      rewrite N.mod_small by lia. lia. }
    destruct (IH next) as [Hbound Hexists]; [lia|]. split; [lia|].
    intros [Heq|Hex]%Exists_cons; [|by apply Hexists].
    assert (next = N.of_nat max_length) by lia. lia.
Qed.

Lemma largest_code_length_max code_table max_length :
  (∃ s code, code_table !! s = Some code ∧ length code = max_length) →
  (∀ s code, code_table !! s = Some code → length code ≤ max_length) →
  (N.of_nat max_length < 2 ^ 32)%N →
  largest_code_length code_table = N.of_nat max_length.
Proof.
  intros (s & code & Hs & Hcode) Hall Hmax. unfold largest_code_length.
  apply largest_fold; [lia | done | |].
  - apply Forall_forall. intros [s' code'] Hin.
    rewrite iteration_perm in Hin. apply elem_of_map_to_list in Hin.
    by eapply Hall.
  - apply Exists_exists. exists (s, code). split; [|done].
    rewrite iteration_perm. by apply elem_of_map_to_list.
Qed.

Lemma drop_bitset_to_string width value :
  width ≤ MAX_BITS →
  drop (MAX_BITS - width) (bitset_to_string MAX_BITS value) =
  bitset_to_string width value.
Proof.
  intros Hwidth. unfold bitset_to_string.
  rewrite skipn_map, skipn_rev, length_seq, take_seq.
  do 3 f_equal. lia.
Qed.

Lemma substr_from_field bit_count value :
  N.to_nat bit_count ≤ MAX_BITS →
  substr_from MAX_BITS bit_count (bitset_to_string MAX_BITS value) =
  Returns (bitset_to_string (N.to_nat bit_count) value).
Proof.
  intros Hwidth. unfold substr_from. rewrite decide_False by lia.
  by rewrite drop_bitset_to_string.
Qed.

Lemma encode_lengths_packed characters bit_count code_table stream state :
  N.to_nat bit_count ≤ MAX_BITS →
  packed stream state →
  ∃ state',
    encode_lengths MAX_BITS characters bit_count code_table state =
      Returns (touched characters code_table, state') ∧
    packed (stream ++ concat (map (field bit_count code_table) characters))
      state'.
Proof.
  intros Hwidth. revert code_table stream state.
  induction characters as [|c characters IH]; intros code_table stream state Hstate.
  - exists state. simpl. by rewrite app_nil_r.
  - simpl. rewrite (surjective_pairing (subscript [] c code_table)).
    rewrite subscript_fst, substr_from_field by done. simpl.
    destruct (put_bits_packed _ _ _ Hstate
      (bitset_to_string_binary (N.to_nat bit_count)
         (wrap32 (N.of_nat (length (default [] (code_table !! c)))))))
      as (state1 & -> & Hstate1). simpl.
    destruct (IH (subscript [] c code_table).2 _ _ Hstate1)
      as (state2 & -> & Hstate2).
    exists state2. split; [done|].
    rewrite <- app_assoc in Hstate2.
    replace (map (field bit_count (subscript [] c code_table).2) characters)
      with (map (field bit_count code_table) characters) in Hstate2; [done|].
    apply map_ext. intros c'. unfold field. do 3 f_equal.
    symmetry. apply (code_length_touched [c]).
Qed.

Lemma byte_bits_inj b1 b2 :
  is_byte b1 → is_byte b2 → byte_bits b1 = byte_bits b2 → b1 = b2.
Proof.
  unfold is_byte, byte_bits. intros Hb1 Hb2 Heq.
  apply (f_equal bits_value) in Heq.
  rewrite !bits_value_bitset_to_string in Heq.
  rewrite !N.mod_small in Heq by (simpl; lia). lia.
Qed.

Lemma bytes_bits_cons_inv output b rest :
  Forall is_byte output → is_byte b →
  bytes_bits output = byte_bits b ++ rest →
  ∃ body, output = b :: body ∧ bytes_bits body = rest.
Proof.
  intros Houtput Hb Heq. destruct output as [|b' body].
  - apply (f_equal length) in Heq. rewrite length_app in Heq.
    unfold byte_bits in Heq. rewrite length_bitset_to_string in Heq.
    simpl in Heq. lia.
  - apply Forall_cons in Houtput as [Hb' Hbody].
    change (bytes_bits (b' :: body)) with (byte_bits b' ++ bytes_bits body)
      in Heq.
    apply app_inj_1 in Heq as [Heq1 Heq2].
    + exists body. split; [|done]. f_equal. by apply byte_bits_inj.
    + unfold byte_bits. by rewrite !length_bitset_to_string.
Qed.

Lemma length_concat_fields {A} (f : A → bits) (l : list A) width :
  (∀ x, length (f x) = width) →
  length (concat (map f l)) = length l * width.
Proof.
  intros Hf. induction l as [|x l IH]; [done|].
  simpl. rewrite length_app, Hf, IH. lia.
Qed.

Lemma N_log2_of_nat m : N.log2 (N.of_nat m) = N.of_nat (Nat.log2 m).
Proof.
  destruct (decide (m = 0)) as [->|Hm]; [done|].
  apply N.log2_unique; [lia|].
  pose proof (Nat.log2_spec m) as Hspec.
  rewrite <- N.add_1_r.
  change 2%N with (N.of_nat 2). change 1%N with (N.of_nat 1).
  rewrite <- Nat2N.inj_add, <- !Nat2N.inj_pow, Nat.add_1_r. lia.
Qed.

(** What [encode_codes_length] returns for a table whose lengths fit the
    fields: the bit width, the fields of the alphabet and the padding, and
    the table with every character of the alphabet looked up. *)
Lemma encode_codes_length_Returns code_table max_length :
  (∃ s code, code_table !! s = Some code ∧ length code = max_length) →
  (∀ s code, code_table !! s = Some code → length code ≤ max_length) →
  1 ≤ max_length →
  (N.of_nat max_length < 2 ^ 32)%N →
  let bit_count := (N.log2 (N.of_nat max_length) + 1)%N in
  N.to_nat bit_count ≤ MAX_BITS →
  ∃ body padding,
    encode_codes_length FIRST_CHARACTER SUPPORTED_CHARACTERS MAX_BITS
      code_table =
      Returns (Z.of_N bit_count :: body, touched alphabet code_table) ∧
    bytes_bits body =
      concat (map (λ c, bitset_to_string (N.to_nat bit_count)
                          (N.of_nat (code_length code_table c))) alphabet) ++
      replicate padding "0"%char ∧
    padding < 8 ∧
    Forall is_byte body.
Proof.
  intros Hex Hall Hpos Hmax bit_count Hwidth. unfold encode_codes_length.
  rewrite (largest_code_length_max _ _ Hex Hall Hmax).
  unfold bit_count_of. rewrite decide_False by lia. simpl.
  fold bit_count. fold alphabet.
  assert (N.log2 (N.of_nat max_length) < 32)%N as Hlog.
  { apply N.log2_lt_pow2; lia. }
  assert (is_byte (Z.of_N bit_count)) as Hbyte by (unfold is_byte; lia).
  assert (packed (byte_bits (Z.of_N bit_count)) ([Z.of_N bit_count], []))
    as Hstate.
  { split; [|split; [|split]]; cbn [fst snd].
    - rewrite app_nil_r. unfold bytes_bits. cbn [map concat].
      by rewrite app_nil_r.
    - simpl. lia.
    - constructor.
    - by constructor. }
  destruct (encode_lengths_packed alphabet bit_count code_table _ _
    Hwidth Hstate) as (state' & -> & Hstate'). simpl.
  destruct (flush_packed _ _ Hstate') as (output & padding & -> & Hbits & Hpad & Hbytes).
  simpl. rewrite <- app_assoc in Hbits.
  destruct (bytes_bits_cons_inv _ _ _ Hbytes Hbyte Hbits)
    as (body & -> & Hbody).
  exists body, padding. split; [done|]. split; [|split; [done|]].
  - rewrite Hbody. do 2 f_equal. apply map_ext. intros c. unfold field.
    f_equal. unfold wrap32. apply N.mod_small.
    assert (code_length code_table c ≤ max_length); [|lia].
    unfold code_length. destruct (code_table !! c) eqn:Hc; simpl; [|lia].
    by eapply Hall.
  - by apply Forall_inv_tail in Hbytes.
Qed.

(** The header in full: width, fields, padding and size. *)
Lemma encode_codes_length_fields code_table max_length :
  (∃ s code, code_table !! s = Some code ∧ length code = max_length) →
  (∀ s code, code_table !! s = Some code → length code ≤ max_length) →
  1 ≤ max_length →
  (N.of_nat max_length < 2 ^ 32)%N →
  let w := S (Nat.log2 max_length) in
  w ≤ MAX_BITS →
  ∃ body padding code_table',
    encode_codes_length FIRST_CHARACTER SUPPORTED_CHARACTERS MAX_BITS
      code_table = Returns (Z.of_nat w :: body, code_table') ∧
    bytes_bits body =
      concat (map (λ c, bitset_to_string w
                          (N.of_nat (code_length code_table c))) alphabet) ++
      replicate padding "0"%char ∧
    padding < 8 ∧
    Forall is_byte body ∧
    (∀ c, bits_value (bitset_to_string w
                        (N.of_nat (code_length code_table c))) =
          Z.of_nat (code_length code_table c)) ∧
    length body = (length alphabet * w + 7) / 8.
Proof.
  intros Hex Hall Hpos Hmax w Hwidth.
  assert (N.to_nat (N.log2 (N.of_nat max_length) + 1) = w) as Hw.
  { unfold w. rewrite N_log2_of_nat. lia. }
  destruct (encode_codes_length_Returns code_table max_length Hex Hall Hpos
    Hmax) as (body & padding & Hreturns & Hbits & Hpad & Hbytes); [lia|].
  rewrite Hw in Hbits.
  replace (Z.of_N (N.log2 (N.of_nat max_length) + 1)) with (Z.of_nat w)
    in Hreturns by lia.
  exists body, padding, (touched alphabet code_table).
  split; [done|]. split; [done|]. split; [done|]. split; [done|]. split.
  - intros c. rewrite bits_value_bitset_to_string. f_equal.
    rewrite N.mod_small; [lia|].
    assert (code_length code_table c ≤ max_length) as Hc.
    { unfold code_length. destruct (code_table !! c) eqn:Hc; simpl; [|lia].
      by eapply Hall. }
    assert (max_length < 2 ^ w).
    { unfold w. apply Nat.log2_spec. lia. }
    assert (N.of_nat (2 ^ w) = (2 ^ N.of_nat w)%N) as <-.
    { by rewrite Nat2N.inj_pow. }
    lia.
  - apply (f_equal length) in Hbits.
    rewrite length_bytes_bits, length_app, length_replicate in Hbits.
    rewrite (length_concat_fields _ _ w) in Hbits
      by (intros; apply length_bitset_to_string).
    apply (Nat.div_unique _ 8 _ (7 - padding)); lia.
Qed.

(** C4: for a table whose largest code length [max_length] is at least 1
    and fits a field of [MAX_BITS] digits, the header is one byte holding
    [w = floor(log2(max_length)) + 1] followed by the code lengths of the
    characters of the alphabet in increasing order, each as a field of [w]
    digits, most significant first, that denotes the length; the fields
    are packed eight to a byte across byte boundaries and the last byte is
    filled with zeros; there are [1 + ceil(A * w / 8)] bytes, [A] being the
    number of characters of the alphabet. *)
Theorem encode_codes_length_header code_table max_length :
  (∃ s code, code_table !! s = Some code ∧ length code = max_length) →
  (∀ s code, code_table !! s = Some code → length code ≤ max_length) →
  1 ≤ max_length →
  (N.of_nat max_length < 2 ^ 32)%N →
  let w := S (Nat.log2 max_length) in
  w ≤ MAX_BITS →
  ∃ body padding code_table',
    encode_codes_length FIRST_CHARACTER SUPPORTED_CHARACTERS MAX_BITS
      code_table = Returns (Z.of_nat w :: body, code_table') ∧
    bytes_bits body =
      concat (map (λ c, bitset_to_string w
                          (N.of_nat (code_length code_table c))) alphabet) ++
      replicate padding "0"%char ∧
    padding < 8 ∧
    Forall is_byte body ∧
    (∀ c, bits_value (bitset_to_string w
                        (N.of_nat (code_length code_table c))) =
          Z.of_nat (code_length code_table c)) ∧
    length (Z.of_nat w :: body) = 1 + (length alphabet * w + 7) / 8.
Proof.
  intros Hex Hall Hpos Hmax w Hwidth.
  destruct (encode_codes_length_fields code_table max_length Hex Hall Hpos
    Hmax Hwidth)
    as (body & padding & code_table' & Hreturns & Hbits & Hpad & Hbytes &
        Hfields & Hsize).
  exists body, padding, code_table'. cbn [length]. by rewrite Hsize.
Qed.

(** C10: [encode_codes_length] changes the table it is given. For a table
    whose lengths fit the fields the call returns, and afterwards every
    character from [FIRST_CHARACTER] up to, not including,
    [SUPPORTED_CHARACTERS] has an entry: a character without an entry
    before the call now has the empty code, and no entry that was there
    has changed. *)
Theorem encode_codes_length_table code_table max_length :
  (∃ s code, code_table !! s = Some code ∧ length code = max_length) →
  (∀ s code, code_table !! s = Some code → length code ≤ max_length) →
  1 ≤ max_length →
  (N.of_nat max_length < 2 ^ 32)%N →
  S (Nat.log2 max_length) ≤ MAX_BITS →
  ∃ output code_table',
    encode_codes_length FIRST_CHARACTER SUPPORTED_CHARACTERS MAX_BITS
      code_table = Returns (output, code_table') ∧
    (∀ c, (FIRST_CHARACTER ≤ c < SUPPORTED_CHARACTERS)%Z →
          code_table' !! c = Some (default [] (code_table !! c))) ∧
    (∀ c code, code_table !! c = Some code → code_table' !! c = Some code) ∧
    (∀ c, ¬ (FIRST_CHARACTER ≤ c < SUPPORTED_CHARACTERS)%Z →
          code_table' !! c = code_table !! c).
Proof.
  intros Hex Hall Hpos Hmax Hwidth.
  destruct (encode_codes_length_Returns code_table max_length Hex Hall Hpos
    Hmax) as (body & padding & Hreturns & _).
  { rewrite N_log2_of_nat. lia. }
  eexists _, _. split; [exact Hreturns|].
  assert (∀ c, c ∈ alphabet ↔ (FIRST_CHARACTER ≤ c < SUPPORTED_CHARACTERS)%Z)
    as Halphabet.
  { intros c. unfold alphabet. rewrite elem_of_seqZ. lia. }
  split; [|split].
  - intros c Hc. by rewrite lookup_touched, decide_True by by apply Halphabet.
  - intros c code Hc. rewrite lookup_touched, Hc. by case_decide.
  - intros c Hc. rewrite lookup_touched, decide_False; [done|].
    by rewrite Halphabet.
Qed.

End Header.

(** ** Depths of the leaves of a binary tree

    The optimality of the Huffman tree is argued on lists: a tree is
    represented by the list of the depths of its leaves, and a tree with
    weighted leaves by the list of (weight, depth) pairs. *)

Section Depths.

#[global] Instance complete_proper : Proper ((≡ₚ) ==> iff) complete.
Proof. intros ds ds' Hp. split; apply complete_perm; [done | by symmetry]. Qed.

(** A list of two or more depths has two deepest leaves side by side. *)
Lemma complete_deepest ds :
  complete ds → 2 ≤ length ds →
  ∃ m ds', ds ≡ₚ S m :: S m :: ds' ∧ complete (m :: ds') ∧
           Forall (λ d, d ≤ S m) ds'.
Proof.
  induction 1 as [|d ds Hds IH|ds ds' Hperm Hds IH]; intros Hlen.
  - simpl in Hlen. lia.
  - destruct (decide (Forall (λ x, x ≤ S d) ds)) as [Hall|Hnot].
    { by exists d, ds. }
    apply not_Forall_Exists in Hnot; [|intros; apply _].
    apply Exists_exists in Hnot as (x & Hx & Hgt). simpl in Hgt.
    destruct IH as (m & ds1 & Hperm & Hcomplete & Hall).
    { destruct ds; [by apply elem_of_nil in Hx | simpl; lia]. }
    assert (x ≤ S m) as Hxm.
    { assert (x ∈ S m :: S m :: ds1) as Hin by (rewrite <- Hperm; by right).
      rewrite !elem_of_cons in Hin. destruct Hin as [->| [->|Hin]]; [lia..|].
      by eapply Forall_forall in Hall. }
    assert (d ∈ ds1) as Hd.
    { assert (d ∈ S m :: S m :: ds1) as Hin by (rewrite <- Hperm; by left).
      rewrite !elem_of_cons in Hin. destruct Hin as [?| [?|Hin]]; [lia..|done]. }
    apply elem_of_Permutation in Hd as [ds2 Hds2].
    rewrite Hds2 in Hperm, Hcomplete, Hall.
    assert (ds ≡ₚ S m :: S m :: ds2) as Hds'.
    { apply (Permutation_cons_inv (a := d)). rewrite Hperm.
      symmetry. apply (Permutation_middle [S m; S m]). }
    exists m, (S d :: S d :: ds2). split; [|split].
    + rewrite Hds'.
      change (S d :: S d :: S m :: S m :: ds2)
        with ([S d; S d] ++ [S m; S m] ++ ds2).
      change (S m :: S m :: S d :: S d :: ds2)
        with ([S m; S m] ++ [S d; S d] ++ ds2).
      rewrite !app_assoc. apply Permutation_app_tail, Permutation_app_comm.
    + rewrite (Permutation_swap d m) in Hcomplete.
      apply complete_split in Hcomplete.
      eapply complete_perm; [|exact Hcomplete].
      symmetry. apply (Permutation_middle [S d; S d]).
    + apply Forall_cons in Hall as [_ Hall].
      repeat constructor; [lia..|done].
  - destruct IH as (m & ds1 & Hperm' & ? & ?).
    { by rewrite Hperm. }
    exists m, ds1. by rewrite <- Hperm.
Qed.

#[global] Instance sum_weights_proper : Proper ((≡ₚ) ==> (=)) sum_weights.
Proof.
  intros ws ws' Hp. unfold sum_weights.
  induction Hp; simpl; [done | congruence | lia | congruence].
Qed.

Lemma sum_weights_app ws1 ws2 :
  sum_weights (ws1 ++ ws2) = (sum_weights ws1 + sum_weights ws2)%N.
Proof. induction ws1 as [|w ws1 IH]; simpl; [done|]. rewrite IH. lia. Qed.

#[global] Instance path_length_proper : Proper ((≡ₚ) ==> (=)) path_length.
Proof. intros L L' Hp. unfold path_length. by rewrite Hp. Qed.

(** A lightest leaf can be moved to a deepest place without adding to the
    weighted path length. *)
Lemma lightest_to_deepest (L : list (N * nat)) a m :
  a ∈ map fst L → Forall (λ w, a ≤ w)%N (map fst L) →
  m ∈ map snd L → Forall (λ d, d ≤ m) (map snd L) →
  ∃ L', map fst L ≡ₚ a :: map fst L' ∧ map snd L ≡ₚ m :: map snd L' ∧
        (path_length ((a, m) :: L') ≤ path_length L)%N.
Proof.
  intros Ha Hlight Hm Hdeep.
  apply list_elem_of_fmap in Ha as [[a' e] [-> Hin]]. simpl in *.
  apply elem_of_Permutation in Hin as [L1 HL1].
  rewrite HL1 in Hm, Hlight, Hdeep. simpl in *.
  apply elem_of_cons in Hm as [->|Hm].
  { exists L1. by rewrite HL1. }
  apply list_elem_of_fmap in Hm as [[c m'] [-> Hin]]. simpl in *.
  apply elem_of_Permutation in Hin as [L2 HL2].
  rewrite HL2 in Hlight, Hdeep. simpl in *.
  exists ((c, e) :: L2). rewrite HL1, HL2. simpl. split; [done|].
  split; [apply Permutation_swap|].
  apply Forall_cons in Hlight as [_ [Hc _]%Forall_cons].
  apply Forall_cons in Hdeep as [He _].
  unfold path_length. simpl. nia.
Qed.

(** The two lightest leaves of a weighted tree can be made siblings and
    merged into one leaf, which shortens the weighted path length by at
    least their weights. *)
Lemma merge_lightest (L : list (N * nat)) a b ws :
  map fst L ≡ₚ a :: b :: ws →
  complete (map snd L) →
  (a ≤ b)%N → Forall (λ w, b ≤ w)%N ws →
  ∃ L', map fst L' ≡ₚ (a + b)%N :: ws ∧ complete (map snd L') ∧
        (path_length L' + a + b ≤ path_length L)%N.
Proof.
  intros Hws Hcomplete Hab Hb.
  destruct (complete_deepest _ Hcomplete) as (m & ds & Hds & Hcomplete' & Hdeep).
  { rewrite length_map, <- (length_map fst), Hws. simpl. lia. }
  destruct (lightest_to_deepest L a (S m)) as (L1 & Hws1 & Hds1 & Hcost1).
  { rewrite Hws. by left. }
  { rewrite Hws. constructor; [lia|]. constructor; [lia|].
    eapply Forall_impl; [exact Hb|]. simpl. lia. }
  { rewrite Hds. by left. }
  { rewrite Hds. by repeat constructor. }
  rewrite Hws in Hws1. apply Permutation_cons_inv in Hws1.
  rewrite Hds in Hds1. apply Permutation_cons_inv in Hds1.
  destruct (lightest_to_deepest L1 b (S m)) as (L2 & Hws2 & Hds2 & Hcost2).
  { rewrite <- Hws1. by left. }
  { rewrite <- Hws1. by constructor. }
  { rewrite <- Hds1. by left. }
  { rewrite <- Hds1. by constructor. }
  rewrite <- Hws1 in Hws2. apply Permutation_cons_inv in Hws2.
  rewrite <- Hds1 in Hds2. apply Permutation_cons_inv in Hds2.
  exists (((a + b)%N, m) :: L2). simpl. split; [|split].
  - by rewrite Hws2.
  - by rewrite <- Hds2.
  - unfold path_length in *. simpl in *. nia.
Qed.

End Depths.

(** ** The Huffman tree *)

Section Tree.

Context {impl : Implementation}.

Lemma leaves_shift t k d :
  leaves t (k + d) = map (λ leaf, (leaf.1, k + leaf.2)) (leaves t d).
Proof.
  revert d. induction t as [s f l r IHl IHr] using Node_children_ind.
  intros d. destruct l as [l|], r as [r|]; simpl in *;
    rewrite ?map_app, <- ?Nat.add_succ_r, ?IHl, ?IHr, ?app_nil_r; done.
Qed.

Lemma leaves_inner s f l r :
  leaves (mkNode s f (Some l) (Some r)) 0 =
  map (λ leaf, (leaf.1, S leaf.2)) (leaves l 0 ++ leaves r 0).
Proof. simpl. by rewrite map_app, !(leaves_shift _ 1 0). Qed.

Lemma weight_inner s f l r :
  weight (mkNode s f (Some l) (Some r)) = (weight l + weight r)%N.
Proof.
  unfold weight, leaf_weights. rewrite leaves_inner, !List.map_map.
  cbn [fst snd]. by rewrite map_app, sum_weights_app.
Qed.

Lemma path_length_deeper (L : list (Z * N * nat)) :
  path_length (map (λ leaf, (leaf.1.2, S leaf.2)) L) =
  (path_length (map (λ leaf, (leaf.1.2, leaf.2)) L) +
   sum_weights (map (λ leaf, leaf.1.2) L))%N.
Proof.
  unfold path_length. induction L as [|leaf L IH]; simpl in *; [done|].
  rewrite IH. lia.
Qed.

Lemma cost_inner s f l r :
  cost (mkNode s f (Some l) (Some r)) =
  (cost l + cost r + weight l + weight r)%N.
Proof.
  unfold cost, weight, leaf_weights. rewrite leaves_inner, !List.map_map.
  cbn [fst snd]. rewrite (path_length_deeper (leaves l 0 ++ leaves r 0)).
  rewrite !map_app, sum_weights_app. unfold path_length.
  rewrite map_app, sum_weights_app. lia.
Qed.

(** The depths of the leaves of a strict tree, hung below a leaf of a
    complete list, give a complete list. *)
Lemma complete_leaves t k ds :
  strict t → complete (k :: ds) →
  complete (map snd (leaves t k) ++ ds).
Proof.
  intros Ht. revert k ds. induction Ht as [s f|s f l r _ IHl _ IHr];
    intros k ds Hds; [done|].
  simpl. rewrite map_app, <- app_assoc.
  apply complete_split in Hds.
  apply IHl.
  rewrite (Permutation_middle (map snd (leaves r (S k))) ds (S k)).
  by apply IHr.
Qed.

Lemma complete_strict t : strict t → complete (map snd (leaves t 0)).
Proof.
  intros Ht. rewrite <- (app_nil_r (map snd _)).
  apply complete_leaves; [done | constructor].
Qed.

Lemma merge_nodes_eq nodes :
  merge_nodes nodes =
  if bool_decide (1 < size nodes) then
    match top_pop nodes with
    | Some (first, nodes1) =>
        match top_pop nodes1 with
        | Some (second, nodes2) =>
            merge_nodes (push (parent first second) nodes2)
        | None => Undefined
        end
    | None => Undefined
    end
  else
    match top_pop nodes with
    | Some (top, _) => Returns top
    | None => Undefined
    end.
Proof.
  rewrite merge_nodes_equation_1.
  destruct (inspect (bool_decide (1 < size nodes))) as [[] e0];
    simpl; rewrite e0; [|done].
  destruct (inspect (top_pop nodes)) as [[[first nodes1]|] e1];
    simpl; rewrite e1; [|done].
  destruct (inspect (top_pop nodes1)) as [[[second nodes2]|] e2];
    simpl; rewrite e2; done.
Qed.

(** The loop terminates on every non-empty queue, with a tree that such
    a run yields. *)
Lemma merge_nodes_steps nodes :
  contents nodes ≠ [] →
  ∃ tree, merge_nodes nodes = Returns tree ∧
          huffman_steps (contents nodes) tree.
Proof.
  remember (size nodes) as n eqn:Hn. revert nodes Hn.
  induction n as [n IH] using lt_wf_ind. intros nodes -> Hne.
  rewrite merge_nodes_eq.
  destruct (top_pop nodes) as [[first nodes1]|] eqn:Hpop1.
  2: { by apply top_pop_None in Hpop1. }
  apply top_pop_Some in Hpop1 as [Hperm1 Hmin1].
  case_bool_decide as Hsize.
  - destruct (top_pop nodes1) as [[second nodes2]|] eqn:Hpop2.
    2: { apply top_pop_None in Hpop2. unfold size in Hsize.
         rewrite Hperm1, Hpop2 in Hsize. simpl in Hsize. lia. }
    apply top_pop_Some in Hpop2 as [Hperm2 Hmin2].
    destruct (IH (size (push (parent first second) nodes2)))
      with (nodes := push (parent first second) nodes2)
      as (tree & Hreturns & Hsteps).
    + unfold size. rewrite contents_push, Hperm1, Hperm2. simpl. lia.
    + done.
    + intros Hnil. pose proof (contents_push (parent first second) nodes2) as Hp.
      rewrite Hnil in Hp. by apply Permutation_nil_cons in Hp.
    + exists tree. split; [done|].
      eapply steps_merge; [| | |apply contents_push|done].
      * by rewrite Hperm1, Hperm2.
      * by rewrite <- Hperm2.
      * done.
  - exists first. split; [done|].
    assert (contents nodes1 = []) as Hnil.
    { unfold size in Hsize. rewrite Hperm1 in Hsize. simpl in Hsize.
      destruct (contents nodes1); [done | simpl in Hsize; lia]. }
    rewrite Hnil in Hperm1. apply Permutation_singleton_r in Hperm1.
    rewrite Hperm1. constructor.
Qed.

Lemma leaf_weights_inner s f l r :
  leaf_weights (mkNode s f (Some l) (Some r)) =
  leaf_weights l ++ leaf_weights r.
Proof.
  unfold leaf_weights. rewrite leaves_inner, List.map_map. cbn [fst].
  by rewrite map_app.
Qed.

Lemma well_formed_parent first second :
  well_formed first → well_formed second →
  (weight first + weight second < 2 ^ frequency_bits)%N →
  well_formed (parent first second) ∧
  weight (parent first second) = (weight first + weight second)%N.
Proof.
  intros (Hs1 & Hsum1 & Hw1) (Hs2 & Hsum2 & Hw2) Hbound. unfold parent.
  rewrite weight_inner, Hw1, Hw2.
  assert (((weight first + weight second) mod 2 ^ frequency_bits)%N =
          (weight first + weight second)%N) as Hwrap.
  { by apply N.mod_small. }
  rewrite Hwrap. split; [|done]. split; [|split].
  - by constructor.
  - constructor; [done..|]. by rewrite Hw1, Hw2.
  - by rewrite weight_inner.
Qed.

Lemma sum_weights_le_mono ws w : w ∈ ws → (w ≤ sum_weights ws)%N.
Proof.
  induction ws as [|w' ws IH]; [by intros ?%elem_of_nil|].
  intros [->|Hin]%elem_of_cons; simpl; [lia|]. specialize (IH Hin). lia.
Qed.

(** Every run of the loop from a forest of well-formed trees whose total
    weight fits the field ends with a well-formed tree over the leaves
    of the forest, at least as good as any way of hanging the trees of the
    forest below the leaves of a strict tree. *)
Lemma huffman_steps_optimal F t :
  huffman_steps F t →
  Forall well_formed F →
  (sum_weights (map weight F) < 2 ^ frequency_bits)%N →
  well_formed t ∧
  leaf_weights t ≡ₚ concat (map leaf_weights F) ∧
  ∀ L, map fst L ≡ₚ map weight F → complete (map snd L) →
       (cost t ≤ path_length L + sum_weights (map cost F))%N.
Proof.
  induction 1 as [t|F first second rest F' t HF Hmin1 Hmin2 HF' Hsteps IH];
    intros Hwf Hbound.
  - apply Forall_inv in Hwf. split; [done|]. split.
    + simpl. by rewrite app_nil_r.
    + intros L _ _. simpl. lia.
  - rewrite HF in Hwf, Hbound.
    apply Forall_cons in Hwf as [Hwf1 [Hwf2 Hwfrest]%Forall_cons].
    simpl in Hbound.
    destruct (well_formed_parent first second Hwf1 Hwf2) as [Hwfp Hweight];
      [lia|].
    destruct IH as (Hwft & Hleaves & Hopt).
    { rewrite HF'. by constructor. }
    { rewrite HF'. simpl. rewrite Hweight. lia. }
    split; [done|]. split.
    + rewrite Hleaves, HF', HF. simpl.
      unfold parent. by rewrite leaf_weights_inner, <- app_assoc.
    + intros L HL Hcomplete. rewrite HF in HL. simpl in HL.
      destruct Hwf1 as (_ & _ & Hf1). destruct Hwf2 as (_ & _ & Hf2).
      destruct (merge_lightest L (weight first) (weight second)
        (map weight rest) HL Hcomplete) as (L' & HL' & Hcomplete' & Hcost).
      { apply Forall_inv in Hmin1. lia. }
      { apply Forall_map. eapply Forall_impl.
        - apply Forall_and. split; [exact Hmin2 | exact Hwfrest].
        - intros y [Hy (_ & _ & Hfy)]. simpl in *. lia. }
      specialize (Hopt L'). rewrite HF' in Hopt. simpl in Hopt.
      rewrite Hweight in Hopt. specialize (Hopt HL' Hcomplete').
      unfold parent in Hopt. rewrite cost_inner in Hopt.
      rewrite HF. simpl. lia.
Qed.

Lemma contents_foldl_push (l : list (Z * N)) nodes :
  contents (foldl (λ nodes entry, push (leaf entry.1 entry.2) nodes) nodes l)
  ≡ₚ map (λ entry, leaf entry.1 entry.2) l ++ contents nodes.
Proof.
  revert nodes. induction l as [|entry l IH]; intros nodes; [done|].
  simpl. rewrite IH, contents_push. by rewrite <- Permutation_middle.
Qed.

Lemma contents_push_leaves frequencies :
  contents (push_leaves frequencies) ≡ₚ
  map (λ entry, leaf entry.1 entry.2) (map_to_list frequencies).
Proof.
  unfold push_leaves.
  by rewrite contents_foldl_push, contents_empty, app_nil_r, iteration_perm.
Qed.

Lemma huffman_steps_huffman_tree F t :
  huffman_steps F t → Forall huffman_tree F → huffman_tree t.
Proof.
  induction 1 as [t|F first second rest F' t HF _ _ HF' _ IH]; intros Htrees.
  - by apply Forall_inv in Htrees.
  - apply IH. rewrite HF in Htrees. rewrite HF'.
    apply Forall_cons in Htrees as [H1 [H2 Hrest]%Forall_cons].
    constructor; [|done]. by constructor.
Qed.

Lemma huffman_steps_perm F F' t :
  F ≡ₚ F' → huffman_steps F t → huffman_steps F' t.
Proof.
  intros Hperm Hsteps.
  destruct Hsteps as [t|F first second rest F'' t HF Hmin1 Hmin2 HF'' Hsteps].
  - apply Permutation_singleton_l in Hperm. subst F'. constructor.
  - eapply steps_merge; [|done..]. by rewrite <- Hperm.
Qed.

(** The tree [build_huffman_tree] returns for a non-empty table. *)
Lemma build_huffman_tree_steps frequencies :
  frequencies ≠ ∅ →
  ∃ tree,
    build_huffman_tree frequencies = Returns tree ∧
    huffman_steps
      (map (λ entry, leaf entry.1 entry.2) (map_to_list frequencies)) tree.
Proof.
  intros Hne. unfold build_huffman_tree.
  assert (contents (push_leaves frequencies) ≠ []) as Hcontents.
  { intros Hnil. pose proof (contents_push_leaves frequencies) as Hp.
    rewrite Hnil in Hp. apply Permutation_nil in Hp.
    apply map_eq_nil in Hp. by apply map_to_list_empty_iff in Hp. }
  destruct (merge_nodes_steps _ Hcontents) as (tree & Hreturns & Hsteps).
  exists tree. split; [done|].
  eapply huffman_steps_perm; [|done]. apply contents_push_leaves.
Qed.

Lemma forest_of_leaves (l : list (Z * N)) :
  let F := map (λ entry, leaf entry.1 entry.2) l in
  map weight F = map snd l ∧
  concat (map leaf_weights F) = l ∧
  sum_weights (map cost F) = 0%N.
Proof.
  induction l as [|[s f] l (IH1 & IH2 & IH3)]; [done|].
  simpl in *. rewrite IH1, IH2, IH3. split; [|split; [done|]].
  - f_equal. unfold weight, leaf_weights. simpl. lia.
  - unfold cost, path_length. simpl. lia.
Qed.

(** The tree of a table whose counts add up within the width of the
    weight of a node. *)
Lemma build_huffman_tree_exact frequencies :
  frequencies ≠ ∅ →
  (total frequencies < 2 ^ frequency_bits)%N →
  ∃ tree,
    build_huffman_tree frequencies = Returns tree ∧
    strict tree ∧
    leaf_weights tree ≡ₚ map_to_list frequencies ∧
    sums tree ∧
    frequency tree = total frequencies ∧
    ∀ tree', strict tree' →
             leaf_weights tree' ≡ₚ map_to_list frequencies →
             (cost tree ≤ cost tree')%N.
Proof.
  intros Hne Htotal.
  destruct (build_huffman_tree_steps frequencies Hne)
    as (tree & Hreturns & Hsteps).
  set (F := map (λ entry, leaf entry.1 entry.2) (map_to_list frequencies))
    in *.
  pose proof (forest_of_leaves (map_to_list frequencies))
    as (Hweights & Hleaves & Hcost). fold F in Hweights, Hleaves, Hcost.
  destruct (huffman_steps_optimal F tree Hsteps)
    as ((Hstrict & Hsums & Hfrequency) & Hleaf_weights & Hopt).
  { unfold F. apply Forall_map, Forall_forall. intros [s f] _.
    split; [constructor|]. split; [constructor|].
    unfold weight, leaf_weights. simpl. lia. }
  { by rewrite Hweights. }
  exists tree. split; [done|]. split; [done|].
  rewrite Hleaves in Hleaf_weights. split; [done|]. split; [done|]. split.
  - rewrite Hfrequency. unfold weight, total. by rewrite Hleaf_weights.
  - intros tree' Hstrict' Hleaves'.
    specialize (Hopt (map (λ leaf, (leaf.1.2, leaf.2)) (leaves tree' 0))).
    rewrite Hcost, N.add_0_r in Hopt. apply Hopt.
    + rewrite Hweights, <- Hleaves'. unfold leaf_weights.
      by rewrite !List.map_map.
    + rewrite List.map_map. simpl. by apply complete_strict.
Qed.

(** A total that fits a [uint32_t] fits the field. *)
Lemma uint32_fits (n : N) : (n < 2 ^ 32)%N → (n < 2 ^ frequency_bits)%N.
Proof.
  intros Hn. eapply N.lt_le_trans; [exact Hn|].
  apply N.pow_le_mono_r; [done | apply frequency_bits_32].
Qed.

(** The tree of a table whose counts add up to less than [2^32]. *)
Lemma build_huffman_tree_correct frequencies :
  frequencies ≠ ∅ →
  (total frequencies < 2 ^ 32)%N →
  ∃ tree,
    build_huffman_tree frequencies = Returns tree ∧
    strict tree ∧
    leaf_weights tree ≡ₚ map_to_list frequencies ∧
    sums tree ∧
    frequency tree = total frequencies ∧
    ∀ tree', strict tree' →
             leaf_weights tree' ≡ₚ map_to_list frequencies →
             (cost tree ≤ cost tree')%N.
Proof.
  intros Hne Htotal. apply build_huffman_tree_exact; [done|].
  by apply uint32_fits.
Qed.



(** When ['\0'] is no symbol of the table the tree is a Huffman tree:
    its leaves, and they alone, carry a symbol. *)
Lemma build_huffman_tree_huffman_tree frequencies tree :
  frequencies !! 0%Z = None →
  build_huffman_tree frequencies = Returns tree →
  huffman_tree tree.
Proof.
  intros Hzero Hreturns.
  destruct (decide (frequencies = ∅)) as [->|Hne].
  { unfold build_huffman_tree in Hreturns.
    rewrite merge_nodes_eq in Hreturns.
    assert (contents (push_leaves ∅) = []) as Hnil.
    { apply Permutation_nil. rewrite contents_push_leaves.
      by rewrite map_to_list_empty. }
    apply top_pop_None in Hnil. rewrite Hnil in Hreturns.
    by case_bool_decide. }
  destruct (build_huffman_tree_steps frequencies Hne)
    as (tree' & Hreturns' & Hsteps).
  rewrite Hreturns in Hreturns'. injection Hreturns' as <-.
  eapply huffman_steps_huffman_tree; [done|].
  apply Forall_map, Forall_forall. intros [s f] Hin.
  apply elem_of_map_to_list in Hin. constructor. simpl. intros ->.
  congruence.
Qed.

End Tree.

(** ** Canonical codes are prefix-free *)

Section PrefixFree.

Lemma slot_pos M n : (0 < slot M n)%Z.
Proof. unfold slot. lia. Qed.

Lemma slot_split M n k :
  n + k ≤ M → slot M n = (slot M (n + k) * 2 ^ Z.of_nat k)%Z.
Proof.
  intros Hle. unfold slot. rewrite <- Z.pow_add_r by lia. f_equal. lia.
Qed.

Lemma slot_full M n : n ≤ M → (2 ^ Z.of_nat n * slot M n = 2 ^ Z.of_nat M)%Z.
Proof.
  intros Hle. unfold slot. rewrite <- Z.pow_add_r by lia. f_equal. lia.
Qed.

#[global] Instance kraft_proper M : Proper ((≡ₚ) ==> (=)) (kraft M).
Proof.
  intros ds ds' Hp. unfold kraft.
  induction Hp; simpl; [done | congruence | lia | congruence].
Qed.

Lemma kraft_nonneg M ds : (0 ≤ kraft M ds)%Z.
Proof.
  induction ds as [|d ds IH]; simpl; [done|].
  pose proof (slot_pos M d). unfold kraft in *. simpl. lia.
Qed.

(** Kraft's equality for the leaf depths of a strict binary tree. *)
Lemma complete_kraft M ds :
  complete ds → Forall (λ d, d ≤ M) ds → kraft M ds = (2 ^ Z.of_nat M)%Z.
Proof.
  induction 1 as [|d ds Hds IH|ds ds' Hperm Hds IH]; intros Hbound.
  - unfold kraft, slot. simpl. rewrite Nat.sub_0_r. lia.
  - apply Forall_cons in Hbound as [Hd [_ Hbound]%Forall_cons].
    rewrite <- IH by (constructor; [lia | done]).
    unfold kraft. simpl.
    rewrite (slot_split M d 1) by lia. rewrite Nat.add_1_r.
    change (2 ^ Z.of_nat 1)%Z with 2%Z. lia.
  - rewrite <- Hperm. apply IH. by rewrite Hperm.
Qed.

Lemma complete_positive ds :
  complete ds → 2 ≤ length ds → Forall (λ d, 1 ≤ d) ds.
Proof.
  induction 1 as [|d ds Hds IH|ds ds' Hperm Hds IH]; intros Hlen.
  - simpl in Hlen. lia.
  - constructor; [lia|]. constructor; [lia|].
    destruct ds as [|d' ds]; [done|].
    assert (Forall (λ d, 1 ≤ d) (d :: d' :: ds)) as Hall
      by (apply IH; simpl; lia).
    by apply Forall_inv_tail in Hall.
  - rewrite <- Hperm. apply IH. by rewrite Hperm.
Qed.

(** *** Values of bit strings *)

Lemma bits_value_app code1 code2 :
  bits_value (code1 ++ code2) =
  (bits_value code1 * 2 ^ Z.of_nat (length code2) + bits_value code2)%Z.
Proof.
  induction code2 as [|c code2 IH] using rev_ind.
  - rewrite app_nil_r. unfold bits_value at 3. simpl. lia.
  - rewrite app_assoc, !bits_value_snoc, IH, length_app, Nat.add_1_r.
    rewrite Nat2Z.inj_succ, Z.pow_succ_r by lia. lia.
Qed.

Lemma bits_value_zeros k : bits_value (replicate k "0"%char) = 0%Z.
Proof.
  induction k as [|k IH]; [done|].
  rewrite replicate_S_end, bits_value_snoc, IH. done.
Qed.

Lemma bits_value_ones code :
  Forall (λ c, c = "1"%char) code →
  bits_value code = (2 ^ Z.of_nat (length code) - 1)%Z.
Proof.
  induction code as [|c code IH] using rev_ind; intros Hcode; [done|].
  apply Forall_app in Hcode as [Hcode Hc]. apply Forall_inv in Hc. subst c.
  rewrite bits_value_snoc, IH, length_app, Nat.add_1_r by done.
  rewrite Nat2Z.inj_succ, Z.pow_succ_r by lia. simpl. lia.
Qed.

(** A code that starts after the share of a code not longer than itself is
    incomparable with it. *)
Lemma incomparable_offsets M code1 code2 :
  length code1 ≤ length code2 → length code2 ≤ M →
  ((bits_value code1 + 1) * slot M (length code1) ≤
   bits_value code2 * slot M (length code2))%Z →
  incomparable code1 code2.
Proof.
  intros Hlen HM Hoffset. split; intros [k Hk].
  - subst code2. rewrite length_app in *.
    rewrite bits_value_app in Hoffset.
    rewrite (slot_split M (length code1) (length k)) in Hoffset by lia.
    pose proof (slot_pos M (length code1 + length k)).
    pose proof (bits_value_bound k). nia.
  - subst code1. rewrite length_app in *.
    assert (length k = 0) as Hk by lia. apply nil_length_inv in Hk as ->.
    rewrite app_nil_r, Nat.add_0_r in *.
    pose proof (slot_pos M (length code2)). nia.
Qed.

Lemma pad_successor M last n elements_share :
  Forall binary_digit last →
  length last ≤ n → n ≤ M →
  (0 ≤ elements_share)%Z →
  ((bits_value last + 1) * slot M (length last) + slot M n + elements_share
   ≤ 2 ^ Z.of_nat M)%Z →
  let code := pad (successor last) n in
  Forall binary_digit code ∧ length code = n ∧
  (bits_value code * slot M n =
   (bits_value last + 1) * slot M (length last))%Z.
Proof.
  intros Hbinary Hlen HM Hshare Hroom.
  assert (¬ Forall (λ c, c = "1"%char) last) as Hones.
  { intros Hones. rewrite (bits_value_ones _ Hones) in Hroom.
    replace (2 ^ Z.of_nat (length last) - 1 + 1)%Z
      with (2 ^ Z.of_nat (length last))%Z in Hroom by lia.
    rewrite slot_full in Hroom by lia. pose proof (slot_pos M n). lia. }
  assert (length (successor last) = length last) as Hlength.
  { by rewrite successor_length, decide_False. }
  simpl. unfold pad. rewrite Hlength. split; [|split].
  - apply Forall_app. split; [by apply successor_binary|].
    apply Forall_replicate. by left.
  - rewrite length_app, length_replicate, Hlength. lia.
  - rewrite bits_value_app, bits_value_zeros, length_replicate.
    rewrite successor_value by done.
    rewrite (slot_split M (length last) (n - length last)) by lia.
    replace (length last + (n - length last)) with n by lia. lia.
Qed.

Lemma canonical_sequence_placed M last elements :
  Forall binary_digit last →
  StronglySorted (λ a b : Z * bits, length a.2 ≤ length b.2) elements →
  Forall (λ e, length last ≤ length e.2 ≤ M) elements →
  ((bits_value last + 1) * slot M (length last) +
   kraft M (map (λ e, length e.2) elements) ≤ 2 ^ Z.of_nat M)%Z →
  Forall2 (λ e c : Z * bits, c.1 = e.1 ∧ length c.2 = length e.2)
    elements (canonical_sequence last elements) ∧
  Forall (placed M ((bits_value last + 1) * slot M (length last))%Z
            (length last))
    (canonical_sequence last elements) ∧
  StronglySorted (λ a b : Z * bits, incomparable a.2 b.2)
    (canonical_sequence last elements).
Proof.
  intros Hbinary Hsorted. revert last Hbinary.
  induction Hsorted as [|e elements Hsorted IH He]; intros last Hbinary Hbound Hroom.
  { simpl. repeat constructor. }
  apply Forall_cons in Hbound as [[Hlast HM] Hbound].
  unfold kraft in Hroom. simpl in Hroom. fold (kraft M (map (λ e, length e.2) elements)) in Hroom.
  pose proof (kraft_nonneg M (map (λ e, length e.2) elements)) as Hshare.
  destruct (pad_successor M last (length e.2) _ Hbinary Hlast HM Hshare)
    as (Hcode & Hlength & Hvalue); [lia|].
  simpl. set (code := pad (successor last) (length e.2)) in *.
  clearbody code.
  destruct (IH code Hcode) as (Hsame & Hplaced & Hfree).
  { rewrite Hlength. eapply Forall_impl.
    - apply Forall_and. split; [exact He | exact Hbound].
    - simpl. lia. }
  { rewrite Hlength. lia. }
  rewrite Hlength in Hplaced. split; [|split].
  - by constructor.
  - constructor.
    + split; [done|]. simpl. rewrite Hlength. split; [lia|].
      by rewrite Hvalue.
    + eapply Forall_impl; [exact Hplaced|].
      pose proof (slot_pos M (length e.2)).
      intros c (? & ? & ?). split; [done|]. split; lia.
  - constructor; [done|].
    eapply Forall_impl; [exact Hplaced|].
    intros c (? & ? & ?). simpl.
    apply (incomparable_offsets M); rewrite ?Hlength; lia.
Qed.

Lemma code_le_length a b : code_le a b → length a.2 ≤ length b.2.
Proof. unfold code_le. lia. Qed.

Lemma elem_of_max_list n ns : n ∈ ns → n ≤ max_list ns.
Proof.
  induction ns as [|n' ns IH]; [by intros ?%elem_of_nil|].
  intros [->|Hin]%elem_of_cons; simpl; [lia|]. specialize (IH Hin). lia.
Qed.

(** The canonical codes of a sorted list whose code lengths are the leaf
    depths of a strict binary tree: every symbol gets binary digits as many
    as its raw code has, and no code is a prefix of another. *)
Lemma canonical_list_prefix_free l :
  l ≠ [] →
  StronglySorted code_le l →
  complete (map (λ e, length e.2) l) →
  Forall2 (λ e c : Z * bits, c.1 = e.1 ∧ length c.2 = length e.2)
    l (canonical_list l) ∧
  Forall (λ c : Z * bits, Forall binary_digit c.2) (canonical_list l) ∧
  StronglySorted (λ a b : Z * bits, incomparable a.2 b.2) (canonical_list l).
Proof.
  intros Hne Hsorted Hcomplete. destruct l as [|front elements]; [done|].
  set (M := max_list (map (λ e, length e.2) (front :: elements))).
  assert (Forall (λ d, d ≤ M) (map (λ e, length e.2) (front :: elements)))
    as HM.
  { apply Forall_forall. intros d Hd. by apply elem_of_max_list. }
  pose proof (complete_kraft M _ Hcomplete HM) as Hkraft.
  apply StronglySorted_inv in Hsorted as [Hsorted Hfront].
  simpl. set (zeros := replicate (length front.2) "0"%char).
  assert (Forall binary_digit zeros) as Hzeros.
  { apply Forall_replicate. by left. }
  assert (length zeros = length front.2) as Hlength.
  { apply length_replicate. }
  destruct (canonical_sequence_placed M zeros elements Hzeros)
    as (Hsame & Hplaced & Hfree).
  { eapply StronglySorted_weaken; [|exact Hsorted]. apply code_le_length. }
  { rewrite Hlength. apply Forall_forall. intros e He. split.
    - apply code_le_length. by eapply Forall_forall in Hfront.
    - eapply Forall_forall in HM; [exact HM|]. right.
      by apply (list_elem_of_fmap_2 (λ e, length e.2)). }
  { unfold zeros at 1. rewrite bits_value_zeros, Hlength.
    unfold kraft in *. simpl in Hkraft. lia. }
  split; [|split].
  - constructor; [by split | done].
  - constructor; [done|]. eapply Forall_impl; [exact Hplaced|].
    by intros c (? & _).
  - constructor; [done|]. eapply Forall_impl; [exact Hplaced|].
    intros c (? & ? & ?). simpl. apply incomparable_offsets with M; lia.
Qed.

End PrefixFree.

Section CanonicalTable.

Context {impl : Implementation}.

Lemma huffman_tree_strict t : huffman_tree t → strict t.
Proof. induction 1; by constructor. Qed.

Lemma lookup_assign_elem_of l (m : gmap Z bits) s code :
  assign l m !! s = Some code → (s, code) ∈ l ∨ m !! s = Some code.
Proof.
  revert m. induction l as [|[s' code'] l IH]; intros m Hs; [by right|].
  unfold assign in *. simpl in Hs. apply IH in Hs as [Hin|Hs].
  - left. by right.
  - simpl in Hs. destruct (decide (s' = s)) as [->|Hne].
    + rewrite lookup_insert_eq in Hs. injection Hs as ->. left. by left.
    + rewrite lookup_insert_ne in Hs by done. by right.
Qed.

Lemma StronglySorted_elem_of {A} (R : relation A) l x y :
  StronglySorted R l → x ∈ l → y ∈ l → x = y ∨ R x y ∨ R y x.
Proof.
  induction 1 as [|a l Hsorted IH Ha]; [by intros ?%elem_of_nil|].
  rewrite Forall_forall in Ha.
  intros [->|Hx]%elem_of_cons [->|Hy]%elem_of_cons; auto.
Qed.

(** The raw codes of a Huffman tree, as [generate_canonical_codes] gets
    them. *)
Lemma generate_huffman_codes_complete root :
  huffman_tree root →
  generate_huffman_codes root ≠ [] ∧
  StronglySorted code_le (generate_huffman_codes root) ∧
  complete (map (λ e, length e.2) (generate_huffman_codes root)).
Proof.
  intros Hroot.
  destruct (generate_huffman_codes_sorted_paths root Hroot) as (Hpaths & Hdepths & Hsorted).
  assert (map (λ e : Z * bits, length e.2) (generate_huffman_codes root) ≡ₚ
          map snd (leaves root 0)) as Hlengths.
  { apply (Permutation_map snd) in Hdepths.
    by rewrite !List.map_map in Hdepths. }
  assert (complete (map (λ e : Z * bits, length e.2)
                      (generate_huffman_codes root))) as Hcomplete.
  { rewrite Hlengths. by apply complete_strict, huffman_tree_strict. }
  split; [|done]. intros Hnil. rewrite Hnil in Hcomplete. simpl in Hcomplete.
  clear -Hcomplete. remember [] as ds eqn:Hds.
  induction Hcomplete as [| |ds ds' Hperm _ IH]; [done..|].
  subst ds'. apply Permutation_nil_r in Hperm. auto.
Qed.

(** The table [generate_canonical_codes] returns for the raw codes of a
    Huffman tree. *)
Lemma generate_canonical_codes_Returns root :
  huffman_tree root →
  generate_canonical_codes (generate_huffman_codes root) =
  Returns (assign (canonical_list (generate_huffman_codes root)) ∅).
Proof.
  intros Hroot.
  destruct (generate_huffman_codes_complete root Hroot)
    as (Hne & _ & Hcomplete).
  destruct (generate_huffman_codes root) as [|front elements]; [done|].
  apply generate_canonical_codes_assign.
  destruct elements as [|second elements]; [by left|]. right.
  apply complete_positive in Hcomplete; [|simpl; lia].
  apply Forall_inv in Hcomplete. simpl in Hcomplete.
  intros Hnil. rewrite Hnil in Hcomplete. simpl in Hcomplete. lia.
Qed.

(** C2: the canonical code table of a Huffman tree is prefix-free. From
    the sorted raw codes of a Huffman tree [generate_canonical_codes]
    returns a table in which the code of no symbol is a prefix of the code
    of another symbol. *)
Theorem canonical_codes_prefix_free root :
  huffman_tree root →
  ∃ canonical_codes,
    generate_canonical_codes (generate_huffman_codes root) =
      Returns canonical_codes ∧
    ∀ s1 s2 code1 code2,
      s1 ≠ s2 →
      canonical_codes !! s1 = Some code1 →
      canonical_codes !! s2 = Some code2 →
      ¬ code1 `prefix_of` code2.
Proof.
  intros Hroot. eexists. split; [by apply generate_canonical_codes_Returns|].
  destruct (generate_huffman_codes_complete root Hroot)
    as (Hne & Hsorted & Hcomplete).
  destruct (canonical_list_prefix_free _ Hne Hsorted Hcomplete)
    as (_ & _ & Hfree).
  intros s1 s2 code1 code2 Hs H1 H2.
  apply lookup_assign_elem_of in H1 as [H1|H1]; [|by rewrite lookup_empty in H1].
  apply lookup_assign_elem_of in H2 as [H2|H2]; [|by rewrite lookup_empty in H2].
  destruct (StronglySorted_elem_of _ _ _ _ Hfree H1 H2)
    as [Heq|[[Hfree1 _]|[_ Hfree2]]]; [congruence|done..].
Qed.

End CanonicalTable.

(** ** Exceptions *)

Section Exceptions.

Context {impl : Implementation}.
Variables FIRST_CHARACTER SUPPORTED_CHARACTERS END_OF_TEXT : Z.
Variable MAX_BITS : nat.

Lemma throws_only_bind {A B} P (m : outcome A) (k : A → outcome B) :
  throws_only P m → (∀ a, throws_only P (k a)) → throws_only P (m ≫= k).
Proof.
  intros Hm Hk e. destruct m as [a|e'|]; simpl; [apply Hk | |done].
  intros [= ->]. by apply Hm.
Qed.

Lemma throws_only_Returns {A} P (a : A) : throws_only P (Returns a).
Proof. by intros e. Qed.

Lemma throws_only_Undefined {A} P : throws_only P (@Undefined A).
Proof. by intros e. Qed.

Lemma throws_only_never {A} P (o : outcome A) :
  throws_only never o → throws_only P o.
Proof. intros Ho e He. by destruct (Ho e He). Qed.

Lemma stoi_never text : throws_only never (stoi text).
Proof.
  unfold stoi. destruct text; [by intros e|].
  destruct (binary_value _ _); by intros e.
Qed.

Lemma put_bit_never bit state : throws_only never (put_bit bit state).
Proof.
  destruct state as [output buffer]. unfold put_bit. case_decide.
  - apply throws_only_Returns.
  - apply throws_only_bind; [apply stoi_never|].
    intros. apply throws_only_Returns.
Qed.

Lemma put_bits_never code state : throws_only never (put_bits code state).
Proof.
  revert state. induction code as [|bit code IH]; intros state; simpl.
  - apply throws_only_Returns.
  - apply throws_only_bind; [apply put_bit_never | done].
Qed.

Lemma flush_never state : throws_only never (flush state).
Proof.
  destruct state as [output buffer]. unfold flush. case_decide.
  - apply throws_only_bind; [apply stoi_never|].
    intros. apply throws_only_Returns.
  - apply throws_only_Returns.
Qed.

Lemma next_binary_never number : throws_only never (next_binary number).
Proof.
  destruct number as [|c number].
  - rewrite next_binary_empty. apply throws_only_Undefined.
  - rewrite next_binary_successor by done. apply throws_only_Returns.
Qed.

Lemma generate_canonical_codes_never huffman_codes :
  throws_only never (generate_canonical_codes huffman_codes).
Proof.
  unfold generate_canonical_codes.
  destruct huffman_codes as [|front elements]; [apply throws_only_Undefined|].
  destruct (subscript _ _ _) as [last_code canonical_codes].
  revert last_code canonical_codes.
  induction elements as [|current elements IH]; intros last_code m; simpl.
  - apply throws_only_Returns.
  - apply throws_only_bind; [apply next_binary_never|]. intros. apply IH.
Qed.

Lemma build_huffman_tree_never frequencies :
  throws_only never (build_huffman_tree frequencies).
Proof.
  unfold build_huffman_tree.
  destruct (decide (contents (push_leaves frequencies) = [])) as [Hnil|Hne].
  - rewrite merge_nodes_eq. apply top_pop_None in Hnil. rewrite Hnil.
    case_bool_decide; apply throws_only_Undefined.
  - destruct (merge_nodes_steps _ Hne) as (tree & -> & _).
    apply throws_only_Returns.
Qed.

Lemma encode_codes_length_throws code_table :
  throws_only is_out_of_range
    (encode_codes_length FIRST_CHARACTER SUPPORTED_CHARACTERS MAX_BITS
       code_table).
Proof.
  unfold encode_codes_length. apply throws_only_bind.
  { unfold bit_count_of. case_decide;
      [apply throws_only_Undefined | apply throws_only_Returns]. }
  intros bit_count. apply throws_only_bind.
  2: { intros [t state]. apply throws_only_bind.
       - apply throws_only_never, flush_never.
       - intros. apply throws_only_Returns. }
  generalize ([Z.of_N bit_count], @nil ascii). generalize code_table.
  induction (seqZ _ _) as [|c l IH]; intros t state; simpl.
  - apply throws_only_Returns.
  - destruct (subscript [] c t) as [code t']. apply throws_only_bind.
    { unfold substr_from. case_decide; [by intros e [= <-]|].
      apply throws_only_Returns. }
    intros binary. apply throws_only_bind.
    + apply throws_only_never, put_bits_never.
    + intros. apply IH.
Qed.

Lemma encode_characters_never characters code_table state :
  throws_only never (encode_characters characters code_table state).
Proof.
  revert code_table state.
  induction characters as [|c l IH]; intros t state; simpl.
  - apply throws_only_Returns.
  - destruct (subscript [] c t) as [code t']. apply throws_only_bind.
    + apply put_bits_never.
    + intros. apply IH.
Qed.

Lemma encode_lines_eq input code_table state :
  encode_lines input code_table state =
  match getline input with
  | None => Returns (code_table, state)
  | Some (line, rest) =>
      encode_characters (line ++ [NEW_LINE]) code_table state ≫=
      λ '(code_table', state'), encode_lines rest code_table' state'
  end.
Proof.
  rewrite encode_lines_equation_1.
  destruct (inspect (getline input)) as [[[line rest]|] e]; simpl; rewrite e;
    simpl; [|done].
  by destruct (encode_characters _ _ _) as [[]| |].
Qed.

Lemma encode_characters_app l1 l2 code_table state :
  encode_characters (l1 ++ l2) code_table state =
  encode_characters l1 code_table state ≫=
  λ '(code_table', state'), encode_characters l2 code_table' state'.
Proof.
  revert code_table state. induction l1 as [|c l1 IH]; intros t state; simpl.
  - by destruct (encode_characters l2 t state) as [[]| |].
  - destruct (subscript [] c t) as [code t'].
    destruct (put_bits code state); simpl; [apply IH | done..].
Qed.

(** The second pass encodes the characters of [characters input], in
    order. *)
Lemma encode_lines_characters input code_table state :
  encode_lines input code_table state =
  encode_characters (characters input) code_table state.
Proof.
  unfold characters. revert code_table state. length_induction input IH.
  intros t state. rewrite encode_lines_eq, lines_eq.
  destruct (getline input) as [[line rest]|] eqn:Hget; [|done].
  cbn [map concat]. rewrite (encode_characters_app (line ++ [NEW_LINE])).
  destruct (encode_characters (line ++ [NEW_LINE]) t state) as [[t' state']| |];
    simpl; [|done..].
  eapply IH; [|done]. eauto using getline_length.
Qed.

Lemma encode_content_never input code_table :
  throws_only never (encode_content END_OF_TEXT input code_table).
Proof.
  unfold encode_content. rewrite encode_lines_characters.
  apply throws_only_bind; [apply encode_characters_never|].
  intros [t state]. destruct (subscript [] END_OF_TEXT t) as [code t'].
  apply throws_only_bind; [apply put_bits_never|]. intros state'.
  apply throws_only_bind; [apply flush_never|]. intros.
  apply throws_only_Returns.
Qed.

End Exceptions.

Section Errors.

Context {impl : Implementation}.
Variables FIRST_CHARACTER SUPPORTED_CHARACTERS END_OF_TEXT : Z.
Variable MAX_BITS : nat.

Local Abbreviation encode :=
  (compress FIRST_CHARACTER SUPPORTED_CHARACTERS END_OF_TEXT MAX_BITS).
Local Abbreviation create :=
  (create_compressed_file FIRST_CHARACTER SUPPORTED_CHARACTERS END_OF_TEXT
     MAX_BITS).
Local Abbreviation extract :=
  (extract_frequencies FIRST_CHARACTER END_OF_TEXT).

(** Only [extract_frequencies] throws [std::invalid_argument]. *)
Lemma compress_invalid_argument input c :
  encode input = Throws (invalid_argument c) ↔
  extract input = Throws (invalid_argument c).
Proof.
  unfold compress. split.
  - destruct (extract input) as [frequencies|e|]; simpl;
      [|by intros [= ->] | done].
    intros Hthrows. exfalso. revert Hthrows.
    assert (throws_only is_out_of_range
      (build_huffman_tree frequencies ≫= λ tree,
       generate_canonical_codes (generate_huffman_codes tree) ≫=
       λ canonical_codes,
       encode_codes_length FIRST_CHARACTER SUPPORTED_CHARACTERS MAX_BITS
         canonical_codes ≫= λ '(encoded_codes, canonical_codes),
       encode_content END_OF_TEXT input canonical_codes ≫=
       λ '(encoded_content, _), Returns (encoded_codes ++ encoded_content)))
      as Hrest.
    { apply throws_only_bind.
      { apply throws_only_never, build_huffman_tree_never. }
      intros tree. apply throws_only_bind.
      { apply throws_only_never, generate_canonical_codes_never. }
      intros canonical_codes. apply throws_only_bind.
      { apply encode_codes_length_throws. }
      intros [encoded_codes t]. apply throws_only_bind.
      { apply throws_only_never, encode_content_never. }
      intros [encoded_content t']. apply throws_only_Returns. }
    intros Hthrows. by apply Hrest in Hthrows.
  - by intros ->.
Qed.

Lemma length_append (s1 s2 : string) :
  String.length (s1 +:+ s2) = String.length s1 + String.length s2.
Proof.
  induction s1 as [|a s1 IH]; [done|].
  change (String a s1 +:+ s2) with (String a (s1 +:+ s2)).
  simpl. by rewrite IH.
Qed.

(** The output file is never the input file. *)
Lemma output_path_ne file_path : (file_path +:+ ".hf")%string ≠ file_path.
Proof.
  intros Heq. apply (f_equal String.length) in Heq.
  rewrite length_append in Heq. simpl in Heq. lia.
Qed.

(** C5, as amended. Provided the line terminator is itself supported, the
    encoder throws [std::invalid_argument] if and only if some character of
    the input is below [FIRST_CHARACTER]; the exception carries such a
    character and leaves [create_compressed_file] before anything is
    written. The output file has been created by then: it exists, and is
    empty. *)
Theorem create_compressed_file_unsupported file_path files :
  (FIRST_CHARACTER ≤ NEW_LINE)%Z →
  let input := default [] (files !! file_path) in
  let result := create file_path files in
  ((∃ c, result.2 = Throws (invalid_argument c)) ↔
   Exists (λ c, c < FIRST_CHARACTER)%Z input) ∧
  (∀ c, result.2 = Throws (invalid_argument c) →
        (c < FIRST_CHARACTER)%Z ∧ c ∈ input ∧
        result.1 = <[(file_path +:+ ".hf")%string := []]> files).
Proof.
  intros HNL input result.
  assert (∀ c, result.2 = Throws (invalid_argument c) ↔
               extract input = Throws (invalid_argument c))
    as Hresult.
  { intros c. rewrite <- compress_invalid_argument.
    unfold result, create_compressed_file.
    rewrite lookup_insert_ne by apply output_path_ne. fold input.
    destruct (encode input); simpl; split; congruence. }
  assert (∀ c, extract input = Throws (invalid_argument c) →
               (c < FIRST_CHARACTER)%Z ∧ c ∈ input) as Hthrown.
  { intros c Hc.
    destruct (decide (Forall (λ c, FIRST_CHARACTER ≤ c)%Z (characters input)))
      as [Hall|Hnot].
    - by rewrite extract_frequencies_Returns in Hc.
    - destruct (extract_frequencies_Throws FIRST_CHARACTER END_OF_TEXT
        input Hnot) as (c' & Hin & Hlt & Hthrows).
      rewrite Hthrows in Hc. injection Hc as <-. split; [done|].
      apply elem_of_characters in Hin as [Hin| ->]; [done|lia]. }
  split.
  - split.
    + intros [c Hc]. apply Hresult, Hthrown in Hc as [Hlt Hin].
      apply Exists_exists. eauto.
    + intros (c & Hin & Hlt)%Exists_exists.
      destruct (extract_frequencies_Throws FIRST_CHARACTER END_OF_TEXT input)
        as (c' & _ & _ & Hthrows).
      * intros Hall. rewrite Forall_forall in Hall.
        apply input_subseteq_characters, Hall in Hin. lia.
      * exists c'. by apply Hresult.
  - intros c Hc. pose proof Hc as Hc'. apply Hresult, Hthrown in Hc' as [? ?].
    split; [done|]. split; [done|].
    revert Hc. unfold result, create_compressed_file.
    rewrite lookup_insert_ne by apply output_path_ne. fold input.
    by destruct (encode input).
Qed.

End Errors.

(** ** The content *)

Section Content.

Variable END_OF_TEXT : Z.

Lemma code_of_subscript code_table c c' :
  code_of (subscript [] c code_table).2 c' = code_of code_table c'.
Proof.
  unfold code_of. rewrite lookup_subscript. case_decide; [|done].
  subst. by destruct (code_table !! c').
Qed.

Lemma encode_characters_packed characters code_table stream state :
  Forall (λ c, Forall binary_digit (code_of code_table c)) characters →
  packed stream state →
  ∃ state',
    encode_characters characters code_table state =
      Returns (touched characters code_table, state') ∧
    packed (stream ++ concat (map (code_of code_table) characters)) state'.
Proof.
  intros Hcodes. revert code_table stream state Hcodes.
  induction characters as [|c characters IH];
    intros code_table stream state Hcodes Hstate.
  - exists state. simpl. by rewrite app_nil_r.
  - apply Forall_cons in Hcodes as [Hc Hcodes].
    simpl. rewrite (surjective_pairing (subscript [] c code_table)).
    rewrite subscript_fst. fold (code_of code_table c).
    destruct (put_bits_packed _ _ _ Hstate Hc) as (state1 & -> & Hstate1).
    simpl.
    assert (Forall (λ c', Forall binary_digit
              (code_of (subscript [] c code_table).2 c')) characters)
      as Hcodes'.
    { eapply Forall_impl; [exact Hcodes|]. intros c'. simpl.
      by rewrite code_of_subscript. }
    destruct (IH _ _ _ Hcodes' Hstate1) as (state2 & -> & Hstate2).
    exists state2. split; [done|].
    rewrite <- app_assoc in Hstate2.
    replace (map (code_of (subscript [] c code_table).2) characters)
      with (map (code_of code_table) characters) in Hstate2; [done|].
    apply map_ext. intros c'. by rewrite code_of_subscript.
Qed.

Lemma code_of_touched characters code_table c :
  code_of (touched characters code_table) c = code_of code_table c.
Proof.
  unfold code_of. rewrite lookup_touched. case_decide; [|done].
  by destruct (code_table !! c).
Qed.

(** The content segment: the codes of the characters read, the code of
    the end-of-stream symbol, and fewer than eight ['0']s. *)
Lemma encode_content_Returns input code_table :
  Forall (λ c, Forall binary_digit (code_of code_table c))
    (characters input) →
  Forall binary_digit (code_of code_table END_OF_TEXT) →
  ∃ output padding code_table',
    encode_content END_OF_TEXT input code_table =
      Returns (output, code_table') ∧
    bytes_bits output =
      concat (map (code_of code_table) (characters input)) ++
      code_of code_table END_OF_TEXT ++ replicate padding "0"%char ∧
    padding < 8 ∧ Forall is_byte output.
Proof.
  intros Hcodes Heot. unfold encode_content.
  rewrite encode_lines_characters.
  assert (packed [] ([], [])) as Hstate.
  { split; [done|]. split; [simpl; lia|]. split; constructor. }
  destruct (encode_characters_packed _ _ _ _ Hcodes Hstate)
    as (state1 & -> & Hstate1). simpl.
  rewrite (surjective_pairing (subscript [] END_OF_TEXT _)), subscript_fst.
  fold (code_of (touched (characters input) code_table) END_OF_TEXT).
  rewrite code_of_touched.
  destruct (put_bits_packed _ _ _ Hstate1 Heot) as (state2 & -> & Hstate2).
  simpl.
  destruct (flush_packed _ _ Hstate2)
    as (output & padding & -> & Hbits & Hpad & Hbytes). simpl.
  exists output, padding. eexists. split; [done|].
  split; [|done]. by rewrite Hbits, <- app_assoc.
Qed.

End Content.

(** ** From the input to the code table *)

Section CodeTable.

Context {impl : Implementation}.

Lemma symbols_parent first second :
  symbols (parent first second) = symbols first ++ symbols second.
Proof.
  unfold symbols, parent. rewrite leaves_inner, List.map_map. cbn [fst].
  by rewrite map_app.
Qed.

Lemma huffman_steps_symbols F t :
  huffman_steps F t → symbols t ≡ₚ concat (map symbols F).
Proof.
  induction 1 as [t|F first second rest F' t HF _ _ HF' _ IH].
  - simpl. by rewrite app_nil_r.
  - rewrite IH, HF', HF. simpl. by rewrite symbols_parent, <- app_assoc.
Qed.

Lemma build_huffman_tree_symbols frequencies tree :
  frequencies ≠ ∅ →
  build_huffman_tree frequencies = Returns tree →
  symbols tree ≡ₚ map fst (map_to_list frequencies).
Proof.
  intros Hne Hreturns.
  destruct (build_huffman_tree_steps frequencies Hne)
    as (tree' & Hreturns' & Hsteps).
  rewrite Hreturns in Hreturns'. injection Hreturns' as <-.
  rewrite (huffman_steps_symbols _ _ Hsteps), List.map_map.
  clear. induction (map_to_list frequencies) as [|[s f] l IH]; [done|].
  simpl. by rewrite IH.
Qed.

Lemma map_fst_paths t : map fst (paths t []) = symbols t.
Proof.
  pose proof (paths_leaves t []) as Hpaths.
  apply (f_equal (map fst)) in Hpaths.
  by rewrite !List.map_map in Hpaths.
Qed.

(** A depth is less than the number of leaves. *)
Lemma complete_bound ds : complete ds → Forall (λ d, d < length ds) ds.
Proof.
  induction 1 as [|d ds Hds IH|ds ds' Hperm Hds IH].
  - repeat constructor.
  - apply Forall_cons in IH as [Hd IH]. simpl in *.
    constructor; [lia|]. constructor; [lia|].
    eapply Forall_impl; [exact IH|]. simpl. lia.
  - rewrite <- Hperm. eapply Forall_impl; [exact IH|].
    intros d. simpl. by rewrite Hperm.
Qed.

(** What is known of the table built for a Huffman tree with two leaves or
    more, with pairwise distinct symbols: its entries are those of the
    canonical list; every leaf symbol has a code, of binary digits, as
    long as its raw code, not empty and shorter than the number of leaves;
    and the codes are prefix-free. *)
Lemma canonical_table root :
  huffman_tree root →
  NoDup (symbols root) →
  2 ≤ length (symbols root) →
  let raw := generate_huffman_codes root in
  let table := assign (canonical_list raw) ∅ in
  generate_canonical_codes raw = Returns table ∧
  map fst raw ≡ₚ symbols root ∧
  StronglySorted code_le raw ∧
  Forall2 (λ e c : Z * bits, c.1 = e.1 ∧ length c.2 = length e.2)
    raw (canonical_list raw) ∧
  StronglySorted (λ a b : Z * bits, incomparable a.2 b.2)
    (canonical_list raw) ∧
  (∀ s code, table !! s = Some code ↔ (s, code) ∈ canonical_list raw) ∧
  (∀ s code, table !! s = Some code →
     s ∈ symbols root ∧ Forall binary_digit code ∧
     1 ≤ length code < length (symbols root)) ∧
  (∀ s, s ∈ symbols root → is_Some (table !! s)).
Proof.
  intros Hroot Hnodup Hsize raw table.
  destruct (generate_huffman_codes_sorted_paths root Hroot)
    as (Hpaths & _ & _).
  destruct (generate_huffman_codes_complete root Hroot)
    as (Hne & Hsorted & Hcomplete).
  destruct (canonical_list_prefix_free _ Hne Hsorted Hcomplete)
    as (Hsame & Hbinary & Hfree).
  fold raw in Hpaths, Hne, Hsorted, Hcomplete, Hsame, Hbinary, Hfree.
  assert (map fst raw ≡ₚ symbols root) as Hsymbols.
  { by rewrite Hpaths, map_fst_paths. }
  assert (map fst (canonical_list raw) = map fst raw) as Hfst
    by apply map_fst_canonical_list.
  assert (NoDup (map fst (canonical_list raw))) as Hnodup'.
  { by rewrite Hfst, Hsymbols. }
  assert (length raw = length (symbols root)) as Hlength.
  { by rewrite <- Hsymbols, length_map. }
  assert (∀ s code, table !! s = Some code ↔ (s, code) ∈ canonical_list raw)
    as Htable.
  { intros s code. split.
    - intros Hs. apply lookup_assign_elem_of in Hs as [Hs|Hs]; [done|].
      by rewrite lookup_empty in Hs.
    - by apply lookup_assign. }
  split; [by apply generate_canonical_codes_Returns|].
  do 4 (split; [done|]). split; [done|]. split.
  - intros s code Hs. apply Htable in Hs. split; [|split].
    + rewrite <- Hsymbols, <- Hfst.
      by apply (list_elem_of_fmap_2 fst) in Hs.
    + by eapply Forall_forall in Hbinary; [|exact Hs].
    + apply list_elem_of_lookup in Hs as [i Hi].
      destruct (Forall2_lookup_r _ _ _ _ _ Hsame Hi)
        as (e & He & _ & Hlen). simpl in Hlen. rewrite Hlen.
      assert (length e.2 ∈ map (λ e : Z * bits, length e.2) raw) as Hin.
      { apply (list_elem_of_fmap_2 (λ e : Z * bits, length e.2)).
        by eapply list_elem_of_lookup_2. }
      pose proof (complete_positive _ Hcomplete) as Hpos.
      pose proof (complete_bound _ Hcomplete) as Hbound.
      rewrite length_map in Hpos, Hbound.
      rewrite Forall_forall in Hpos, Hbound.
      specialize (Hpos ltac:(lia) _ Hin). specialize (Hbound _ Hin).
      simpl in *. lia.
  - intros s Hs. rewrite <- Hsymbols, <- Hfst in Hs.
    apply list_elem_of_fmap in Hs as [[s' code] [-> Hin]].
    exists code. by apply Htable.
Qed.

End CodeTable.

(** ** Decoding *)

Section Decoding.

Variables FIRST_CHARACTER SUPPORTED_CHARACTERS END_OF_TEXT : Z.

Lemma read_fields_concat width symbols (f : Z → bits) rest :
  (∀ s, length (f s) = width) →
  read_fields width symbols (concat (map f symbols) ++ rest) =
  map (λ s, (s, Z.to_nat (bits_value (f s)))) symbols.
Proof.
  intros Hf. induction symbols as [|s symbols IH]; [done|].
  simpl. rewrite <- app_assoc.
  rewrite take_app_length', drop_app_length' by done. by rewrite IH.
Qed.

Lemma codes_after_canonical_sequence last_code elements :
  codes_after last_code (map (λ e : Z * bits, (e.1, length e.2)) elements) =
  canonical_sequence last_code elements.
Proof.
  revert last_code. induction elements as [|e elements IH]; intros; [done|].
  simpl. by rewrite IH.
Qed.

(** The codes rebuilt from the lengths are the codes the encoder assigns. *)
Lemma codes_of_lengths_canonical_list huffman_codes :
  codes_of_lengths (map (λ e : Z * bits, (e.1, length e.2)) huffman_codes) =
  canonical_list huffman_codes.
Proof.
  destruct huffman_codes as [|front elements]; [done|].
  simpl. by rewrite codes_after_canonical_sequence.
Qed.

(** Reading the digits of one code of a prefix-free list. *)
Lemma decode_symbols_code codes s code stream :
  StronglySorted (λ a b : Z * bits, incomparable a.2 b.2) codes →
  (s, code) ∈ codes →
  ∀ suffix read, read ++ suffix = code → suffix ≠ [] →
  decode_symbols END_OF_TEXT codes read (suffix ++ stream) =
  if decide (s = END_OF_TEXT) then Some []
  else cons s <$> decode_symbols END_OF_TEXT codes [] stream.
Proof.
  intros Hfree Hin suffix.
  induction suffix as [|bit suffix IH]; intros read Hcode Hne; [done|].
  simpl.
  destruct (find _ codes) as [[s' code']|] eqn:Hfind.
  - apply find_some in Hfind as [Hin' Heq%bool_decide_eq_true]. simpl in Heq.
    apply list_elem_of_In in Hin'.
    destruct (StronglySorted_elem_of _ _ _ _ Hfree Hin Hin')
      as [Hsame|[[Hfree1 Hfree2]|[Hfree1 Hfree2]]]; simpl in *.
    + injection Hsame as <- <-.
      assert (suffix = []) as ->.
      { apply (f_equal length) in Hcode. rewrite Heq in Hcode.
        rewrite !length_app in Hcode. simpl in Hcode.
        destruct suffix; [done | simpl in Hcode; lia]. }
      done.
    + exfalso. apply Hfree2. exists suffix. rewrite Heq, <- Hcode.
      by rewrite <- app_assoc.
    + exfalso. apply Hfree1. exists suffix. rewrite Heq, <- Hcode.
      by rewrite <- app_assoc.
  - destruct suffix as [|bit' suffix].
    + exfalso. eapply find_none in Hfind; [|by apply list_elem_of_In].
      simpl in Hfind. apply bool_decide_eq_false in Hfind. by apply Hfind.
    + apply IH; [|done]. by rewrite <- app_assoc.
Qed.

Lemma decode_symbols_stream codes (code_of : Z → bits) characters padding :
  StronglySorted (λ a b : Z * bits, incomparable a.2 b.2) codes →
  Forall (λ c, (c, code_of c) ∈ codes ∧ code_of c ≠ [] ∧ c ≠ END_OF_TEXT)
    characters →
  (END_OF_TEXT, code_of END_OF_TEXT) ∈ codes →
  code_of END_OF_TEXT ≠ [] →
  decode_symbols END_OF_TEXT codes []
    (concat (map code_of characters) ++ code_of END_OF_TEXT ++ padding) =
  Some characters.
Proof.
  intros Hfree Hcharacters Heot Hne.
  induction Hcharacters as [|c characters (Hin & Hc & Hnot) _ IH].
  - simpl. rewrite (decode_symbols_code _ _ _ _ Hfree Heot); [|done..].
    by rewrite decide_True.
  - simpl. rewrite <- app_assoc.
    rewrite (decode_symbols_code _ _ _ _ Hfree Hin); [|done..].
    by rewrite decide_False, IH.
Qed.

End Decoding.

(** ** Round trip *)

Section RoundTrip.

Context {impl : Implementation}.
Variables FIRST_CHARACTER SUPPORTED_CHARACTERS END_OF_TEXT : Z.
Variable MAX_BITS : nat.

(** What is assumed of the constants: ['\0'] is no supported character;
    the line terminator and the end-of-stream symbol are characters of the
    header; the alphabet is one of single-byte symbols, and the length of a
    code over it fits a field of [MAX_BITS] digits. *)
Hypothesis first_positive : (0 < FIRST_CHARACTER)%Z.
Hypothesis new_line_supported :
  (FIRST_CHARACTER ≤ NEW_LINE < SUPPORTED_CHARACTERS)%Z.
Hypothesis end_of_text_supported :
  (FIRST_CHARACTER ≤ END_OF_TEXT < SUPPORTED_CHARACTERS)%Z.
Hypothesis single_byte :
  (SUPPORTED_CHARACTERS - FIRST_CHARACTER ≤ 256)%Z.
Hypothesis fields_wide_enough :
  (SUPPORTED_CHARACTERS - FIRST_CHARACTER ≤ 2 ^ Z.of_nat MAX_BITS)%Z.

(** The tree built for an input of supported characters. *)
Lemma compress_tree input :
  Forall (λ c, FIRST_CHARACTER ≤ c)%Z input →
  ∃ frequencies tree,
    extract_frequencies FIRST_CHARACTER END_OF_TEXT input =
      Returns frequencies ∧
    build_huffman_tree frequencies = Returns tree ∧
    huffman_tree tree ∧
    NoDup (symbols tree) ∧
    (∀ s, s ∈ symbols tree ↔ s ∈ characters input ∨ s = END_OF_TEXT).
Proof.
  intros Hinput.
  assert (Forall (λ c, FIRST_CHARACTER ≤ c)%Z (characters input)) as Hchars.
  { apply characters_supported; [lia | done]. }
  set (frequencies :=
    increment END_OF_TEXT (counted (characters input) ∅)).
  assert (∀ s, is_Some (frequencies !! s) ↔
               s ∈ characters input ∨ s = END_OF_TEXT) as Hkeys.
  { intros s. unfold frequencies. rewrite lookup_extract_frequencies.
    case_decide; [by split; eauto|]. split; [by intros []|done]. }
  assert (frequencies ≠ ∅) as Hne.
  { intros Hempty. destruct (proj2 (Hkeys END_OF_TEXT)) as [x Hx]; [by right|].
    by rewrite Hempty, lookup_empty in Hx. }
  assert (frequencies !! 0%Z = None) as Hzero.
  { apply eq_None_not_Some. rewrite Hkeys. intros [Hin|Heq]; [|lia].
    rewrite Forall_forall in Hchars. apply Hchars in Hin. lia. }
  destruct (build_huffman_tree_steps frequencies Hne)
    as (tree & Hreturns & Hsteps).
  pose proof (build_huffman_tree_symbols frequencies tree Hne Hreturns)
    as Hsymbols.
  exists frequencies, tree.
  split; [by apply extract_frequencies_Returns|]. split; [done|].
  split; [by eapply build_huffman_tree_huffman_tree|]. split.
  - rewrite Hsymbols. apply NoDup_fst_map_to_list.
  - intros s. rewrite Hsymbols, <- Hkeys.
    rewrite list_elem_of_fmap. split.
    + intros [[s' f] [-> Hin]]. apply elem_of_map_to_list in Hin. eauto.
    + intros [f Hf]. exists (s, f). split; [done|].
      by apply elem_of_map_to_list.
Qed.

Lemma NoDup_two {A} (l : list A) x y :
  NoDup l → x ∈ l → y ∈ l → x ≠ y → 2 ≤ length l.
Proof.
  intros _ Hx Hy Hne. destruct l as [|a [|b l]]; simpl; [|..|lia].
  - by apply elem_of_nil in Hx.
  - apply list_elem_of_singleton in Hx, Hy. congruence.
Qed.

Lemma max_list_elem_of ns : ns ≠ [] → max_list ns ∈ ns.
Proof.
  induction ns as [|n ns IH]; [done|]. intros _. simpl.
  destruct ns as [|n' ns]; [simpl; rewrite Nat.max_0_r; by left|].
  destruct (Nat.max_spec n (max_list (n' :: ns))) as [[_ ->]|[_ ->]].
  - right. by apply IH.
  - by left.
Qed.

#[global] Instance length_then_symbol_transitive :
  Transitive length_then_symbol.
Proof. clear. intros a b c. unfold length_then_symbol. lia. Qed.

#[global] Instance length_then_symbol_total : Total length_then_symbol.
Proof. clear. intros a b. unfold length_then_symbol. lia. Qed.

#[global] Instance length_then_symbol_antisymm :
  AntiSymm (=) length_then_symbol.
Proof.
  clear. intros [s1 n1] [s2 n2]. unfold length_then_symbol. simpl.
  intros ? ?. f_equal; lia.
Qed.

(** The order of the raw codes is the order of their lengths. *)
Lemma code_le_lengths (raw : list (Z * bits)) :
  StronglySorted code_le raw →
  StronglySorted length_then_symbol
    (map (λ e : Z * bits, (e.1, length e.2)) raw).
Proof.
  induction 1 as [|e raw _ IH He]; simpl; constructor; [done|].
  apply Forall_map. eapply Forall_impl; [exact He|]. by intros e'.
Qed.

(** The lengths the decoder finds in the header, sorted, are the lengths
    of the raw codes in the order of the encoder. *)
Lemma sorted_lengths (raw : list (Z * bits)) (table : gmap Z bits) symbols :
  NoDup symbols →
  NoDup (map fst raw) →
  StronglySorted code_le raw →
  (∀ s n, (s, n) ∈ map (λ e : Z * bits, (e.1, length e.2)) raw ↔
          s ∈ symbols ∧ n = code_length table s ∧ 0 < n) →
  merge_sort length_then_symbol
    (filter (λ entry, 0 < entry.2)
       (map (λ s, (s, code_length table s)) symbols)) =
  map (λ e : Z * bits, (e.1, length e.2)) raw.
Proof.
  intros Hsymbols Hraw Hsorted Hiff.
  apply (StronglySorted_unique length_then_symbol).
  - apply StronglySorted_merge_sort; apply _.
  - by apply code_le_lengths.
  - rewrite merge_sort_Permutation. apply NoDup_Permutation.
    + apply NoDup_filter, NoDup_fmap_2_strong; [|done].
      by intros s1 s2 _ _ [=].
    + apply (NoDup_fmap_1 fst). by rewrite List.map_map.
    + intros [s n]. rewrite Hiff, list_elem_of_filter, list_elem_of_fmap.
      simpl. split.
      * intros [Hn (s' & [= -> ->] & Hin)]. done.
      * intros (Hin & -> & Hn). split; [done|]. by exists s.
Qed.

(** What the encoder returns for an input of supported characters: the
    width, the fields of the header, and the codes of the characters
    followed by the code of the end-of-stream symbol. *)
Lemma compress_output input :
  input ≠ [] →
  last input = Some NEW_LINE →
  Forall (λ c, (FIRST_CHARACTER ≤ c < SUPPORTED_CHARACTERS)%Z ∧
               c ≠ END_OF_TEXT) input →
  ∃ frequencies tree body content padding padding',
    let raw := generate_huffman_codes tree in
    let table := assign (canonical_list raw) ∅ in
    let symbols_ := alphabet FIRST_CHARACTER SUPPORTED_CHARACTERS in
    let w :=
      S (Nat.log2
           (max_list (map (λ c : Z * bits, length c.2) (canonical_list raw))))
    in
    extract_frequencies FIRST_CHARACTER END_OF_TEXT input =
      Returns frequencies ∧
    build_huffman_tree frequencies = Returns tree ∧
    huffman_tree tree ∧
    NoDup (symbols tree) ∧
    2 ≤ length (symbols tree) ∧
    (∀ s, s ∈ symbols tree ↔ s ∈ input ∨ s = END_OF_TEXT) ∧
    (∀ s, s ∈ symbols tree → s ∈ symbols_) ∧
    compress FIRST_CHARACTER SUPPORTED_CHARACTERS END_OF_TEXT MAX_BITS input =
      Returns (Z.of_nat w :: body ++ content) ∧
    bytes_bits body =
      concat (map (λ c, bitset_to_string w (N.of_nat (code_length table c)))
                symbols_) ++
      replicate padding "0"%char ∧
    length body = (length symbols_ * w + 7) / 8 ∧
    (∀ c, bits_value (bitset_to_string w (N.of_nat (code_length table c))) =
          Z.of_nat (code_length table c)) ∧
    bytes_bits content =
      concat (map (code_of (touched symbols_ table)) input) ++
      code_of (touched symbols_ table) END_OF_TEXT ++
      replicate padding' "0"%char.
Proof.
  intros Hne Hlast Hinput.
  assert (characters input = input) as Hchars.
  { rewrite characters_eq, decide_True; [done | by right]. }
  destruct (compress_tree input)
    as (frequencies & tree & Hextract & Hbuild & Htree & Hnodup & Hsymbols).
  { eapply Forall_impl; [exact Hinput|]. simpl. lia. }
  rewrite Hchars in Hsymbols.
  assert (NEW_LINE ∈ input) as Hnewline.
  { apply last_Some in Hlast as [l' ->]. set_solver. }
  assert (2 ≤ length (symbols tree)) as Hsize.
  { apply (NoDup_two _ NEW_LINE END_OF_TEXT Hnodup).
    - apply Hsymbols. by left.
    - apply Hsymbols. by right.
    - rewrite Forall_forall in Hinput. by apply Hinput in Hnewline as [_ ?]. }
  destruct (canonical_table tree Htree Hnodup Hsize)
    as (Hcanonical & Hraw & Hsorted & Hsame & Hfree & Htable & Hcodes & Hall).
  set (raw := generate_huffman_codes tree) in *.
  set (table := assign (canonical_list raw) ∅) in *.
  set (symbols_ := alphabet FIRST_CHARACTER SUPPORTED_CHARACTERS).
  assert (∀ s, s ∈ symbols tree → s ∈ symbols_) as Hsupported.
  { intros s [Hs| ->]%Hsymbols; unfold symbols_, alphabet;
      rewrite elem_of_seqZ; [|lia].
    rewrite Forall_forall in Hinput. apply Hinput in Hs. lia. }
  assert (length (symbols tree) ≤ length symbols_) as Hcount.
  { apply submseteq_length, NoDup_submseteq; done. }
  assert (length symbols_ =
          Z.to_nat (SUPPORTED_CHARACTERS - FIRST_CHARACTER)) as Hlength.
  { unfold symbols_, alphabet. by rewrite length_seqZ. }
  (* the largest code length *)
  set (M := max_list (map (λ c : Z * bits, length c.2) (canonical_list raw))).
  assert (∃ s code, table !! s = Some code ∧ length code = M) as Hmax.
  { assert (M ∈ map (λ c : Z * bits, length c.2) (canonical_list raw)) as Hin.
    { apply max_list_elem_of. intros Hnil%map_eq_nil.
      destruct (Hall NEW_LINE) as [code Hcode]; [apply Hsymbols; by left|].
      apply Htable in Hcode. rewrite Hnil in Hcode.
      by apply elem_of_nil in Hcode. }
    apply list_elem_of_fmap in Hin as [[s code] [HM Hin]].
    exists s, code. split; [by apply Htable | done]. }
  assert (∀ s code, table !! s = Some code → length code ≤ M) as Hle.
  { intros s code Hs. apply elem_of_max_list.
    apply (list_elem_of_fmap_2 (λ c : Z * bits, length c.2) _ (s, code)).
    by apply Htable. }
  assert (1 ≤ M < length (symbols tree)) as HM.
  { destruct Hmax as (s & code & Hs & <-). by apply Hcodes in Hs as (_ & _ & ?). }
  assert (M < 2 ^ MAX_BITS) as Hfits.
  { apply Nat2Z.inj_lt. rewrite Nat2Z.inj_pow. simpl. lia. }
  destruct (encode_codes_length_fields FIRST_CHARACTER SUPPORTED_CHARACTERS
    MAX_BITS table M Hmax Hle)
    as (body & padding & table' & Hheader & Hbody & _ & _ & Hfields & Hsize').
  { lia. } { lia. } { apply Nat.log2_lt_pow2; lia. }
  fold symbols_ in Hbody, Hsize'.
  set (w := S (Nat.log2 M)) in *.
  assert (table' = touched symbols_ table) as ->.
  { destruct (encode_codes_length_Returns FIRST_CHARACTER
      SUPPORTED_CHARACTERS MAX_BITS table M Hmax Hle)
      as (body' & padding' & Hheader' & _).
    - lia.
    - lia.
    - rewrite N_log2_of_nat. assert (Nat.log2 M < MAX_BITS); [|lia].
      apply Nat.log2_lt_pow2; lia.
    - rewrite Hheader in Hheader'. by injection Hheader'. }
  (* the codes of the characters *)
  assert (∀ c, c ∈ symbols tree →
    (c, code_of (touched symbols_ table) c) ∈ canonical_list raw ∧
    code_of (touched symbols_ table) c ≠ [] ∧
    Forall binary_digit (code_of (touched symbols_ table) c)) as Hcode_of.
  { intros c Hc. rewrite code_of_touched. unfold code_of.
    destruct (Hall c Hc) as [code Hcode]. rewrite Hcode. simpl.
    destruct (Hcodes _ _ Hcode) as (_ & Hbinary & Hlen).
    split; [by apply Htable|]. split; [|done].
    intros ->. simpl in Hlen. lia. }
  destruct (encode_content_Returns END_OF_TEXT input
    (touched symbols_ table))
    as (content & padding' & table'' & Hcontent & Hbits & _ & _).
  { rewrite Hchars. apply Forall_forall. intros c Hc.
    apply Hcode_of, Hsymbols. by left. }
  { apply Hcode_of, Hsymbols. by right. }
  rewrite Hchars in Hbits.
  exists frequencies, tree, body, content, padding, padding'. simpl.
  fold raw table symbols_ M w.
  split; [done|]. split; [done|]. split; [done|]. split; [done|].
  split; [done|]. split; [done|]. split; [done|]. split.
  { unfold compress. rewrite Hextract. simpl. rewrite Hbuild. simpl.
    fold raw. rewrite Hcanonical. simpl. rewrite Hheader. simpl.
    rewrite Hcontent. done. }
  done.
Qed.

(** Decoding what the encoder computes gives back the input. *)
Lemma compress_decode input :
  input ≠ [] →
  last input = Some NEW_LINE →
  Forall (λ c, (FIRST_CHARACTER ≤ c < SUPPORTED_CHARACTERS)%Z ∧
               c ≠ END_OF_TEXT) input →
  ∃ output,
    compress FIRST_CHARACTER SUPPORTED_CHARACTERS END_OF_TEXT MAX_BITS input =
      Returns output ∧
    decode FIRST_CHARACTER SUPPORTED_CHARACTERS END_OF_TEXT output =
      Some input.
Proof.
  intros Hne Hlast Hinput.
  destruct (compress_output input Hne Hlast Hinput)
    as (frequencies & tree & body & content & padding & padding' & _ & _ &
        Htree & Hnodup & Hsize & Hsymbols & Hsupported & Hcompress & Hbody &
        Hsize' & Hfields & Hbits).
  destruct (canonical_table tree Htree Hnodup Hsize)
    as (_ & Hraw & Hsorted & Hsame & Hfree & Htable & Hcodes & Hall).
  set (raw := generate_huffman_codes tree) in *.
  set (table := assign (canonical_list raw) ∅) in *.
  set (symbols_ := alphabet FIRST_CHARACTER SUPPORTED_CHARACTERS) in *.
  set (w := S (Nat.log2 (max_list
    (map (λ c : Z * bits, length c.2) (canonical_list raw))))) in *.
  assert (∀ c, c ∈ symbols tree →
    (c, code_of (touched symbols_ table) c) ∈ canonical_list raw ∧
    code_of (touched symbols_ table) c ≠ []) as Hcode_of.
  { intros c Hc. rewrite code_of_touched. unfold code_of.
    destruct (Hall c Hc) as [code Hcode]. rewrite Hcode. simpl.
    destruct (Hcodes _ _ Hcode) as (_ & _ & Hlen).
    split; [by apply Htable|]. intros ->. simpl in Hlen. lia. }
  eexists. split; [exact Hcompress|].
  unfold decode. rewrite Nat2Z.id. fold symbols_.
  rewrite bytes_bits_app, Hbody, <- app_assoc.
  rewrite read_fields_concat by (intros; apply length_bitset_to_string).
  assert (map (λ s, (s, Z.to_nat (bits_value (bitset_to_string w
            (N.of_nat (code_length table s)))))) symbols_ =
          map (λ s, (s, code_length table s)) symbols_) as ->.
  { apply map_ext. intros s. by rewrite Hfields, Nat2Z.id. }
  rewrite (sorted_lengths raw table symbols_).
  - rewrite codes_of_lengths_canonical_list.
    rewrite <- Hsize'.
    rewrite drop_app_length, Hbits.
    destruct (Hcode_of END_OF_TEXT) as (? & ?);
      [apply Hsymbols; by right|].
    apply decode_symbols_stream; [done| |done..].
    apply Forall_forall. intros c Hc.
    destruct (Hcode_of c) as (? & ?); [apply Hsymbols; by left|].
    rewrite Forall_forall in Hinput. apply Hinput in Hc as [_ ?]. done.
  - unfold symbols_, alphabet. apply NoDup_seqZ.
  - by rewrite Hraw.
  - done.
  - intros s n.
    assert (map (λ e : Z * bits, (e.1, length e.2)) raw =
            map (λ c : Z * bits, (c.1, length c.2)) (canonical_list raw))
      as ->.
    { clear -Hsame. induction Hsame as [|e c raw cl [He Hc] _ IH]; [done|].
      simpl. rewrite IH. by rewrite He, Hc. }
    rewrite list_elem_of_fmap. split.
    + intros [[s' code] [[= -> ->] Hin]]. apply Htable in Hin.
      destruct (Hcodes _ _ Hin) as (Hs & _ & Hlen).
      unfold code_length. rewrite Hin. simpl.
      split; [by apply Hsupported|]. split; [done | lia].
    + intros (Hs & -> & Hn). unfold code_length in *.
      destruct (table !! s) as [code|] eqn:Hcode; simpl in Hn; [|lia].
      exists (s, code). split; [done|]. by apply Htable.
Qed.

(** C1, as amended: inputs that do not contain the end-of-stream symbol
    come back. For a file that is not empty and ends with a line
    terminator, all of whose characters are characters of the header and
    none of which is the end-of-stream symbol, [create_compressed_file]
    returns and leaves in the output file a sequence of bytes which,
    decoded (the code lengths read from the header, the canonical codes
    rebuilt from them, the content read until the code of the
    end-of-stream symbol), gives back the input, character by character,
    line terminators included. *)
Theorem decode_compress file_path files input :
  files !! file_path = Some input →
  input ≠ [] →
  last input = Some NEW_LINE →
  Forall (λ c, (FIRST_CHARACTER ≤ c < SUPPORTED_CHARACTERS)%Z ∧
               c ≠ END_OF_TEXT) input →
  ∃ output,
    create_compressed_file FIRST_CHARACTER SUPPORTED_CHARACTERS END_OF_TEXT
      MAX_BITS file_path files =
      (<[(file_path +:+ ".hf")%string := output]> files, Returns ()) ∧
    decode FIRST_CHARACTER SUPPORTED_CHARACTERS END_OF_TEXT output =
      Some input.
Proof.
  intros Hfile Hne Hlast Hinput.
  destruct (compress_decode input Hne Hlast Hinput)
    as (output & Hcompress & Hdecode).
  exists output. split; [|done]. unfold create_compressed_file.
  rewrite lookup_insert_ne by apply output_path_ne.
  rewrite Hfile. simpl. rewrite Hcompress. f_equal.
  apply insert_insert_eq.
Qed.

End RoundTrip.

(** ** The input ["ab\n"] *)

Section Scenario.

Context {impl : Implementation}.
Variables FIRST_CHARACTER SUPPORTED_CHARACTERS END_OF_TEXT : Z.
Variable MAX_BITS : nat.

(** Four leaves whose depths add up to at most 8 are all at depth 2. *)
Lemma four_depths ds :
  complete ds → length ds = 4 → foldr Nat.add 0 ds ≤ 8 → ds = [2; 2; 2; 2].
Proof.
  intros Hcomplete Hlength Hsum.
  pose proof (complete_positive ds Hcomplete) as Hpos.
  pose proof (complete_bound ds Hcomplete) as Hbound.
  rewrite Hlength in Hpos, Hbound. specialize (Hpos ltac:(lia)).
  pose proof (complete_kraft 3 ds Hcomplete) as Hkraft.
  destruct ds as [|d1 [|d2 [|d3 [|d4 [|]]]]]; try done.
  rewrite !Forall_cons in Hpos, Hbound.
  destruct Hpos as (? & ? & ? & ? & _), Hbound as (? & ? & ? & ? & _).
  assert (d1 = 1 ∨ d1 = 2 ∨ d1 = 3) as [-> | [-> | ->]] by lia;
  assert (d2 = 1 ∨ d2 = 2 ∨ d2 = 3) as [-> | [-> | ->]] by lia;
  assert (d3 = 1 ∨ d3 = 2 ∨ d3 = 3) as [-> | [-> | ->]] by lia;
  assert (d4 = 1 ∨ d4 = 2 ∨ d4 = 3) as [-> | [-> | ->]] by lia;
  try done; exfalso;
  (specialize (Hkraft ltac:(repeat constructor; lia));
   vm_compute in Hkraft; try done); simpl in Hsum; lia.
Qed.

(** C9: the input ["ab\n"], for constants with ['\n' < END_OF_TEXT < 'a']
    and an alphabet that holds the four symbols. The frequency table is
    [{a:1, b:1, '\n':1, END_OF_TEXT:1}]; the tree built from it has four
    leaves, all at depth 2; the canonical codes are ['\n':00],
    [END_OF_TEXT:01], [a:10], [b:11]; and the first byte of the output
    is 2. *)
Theorem compress_ab :
  (0 < FIRST_CHARACTER ≤ NEW_LINE)%Z →
  (NEW_LINE < END_OF_TEXT < 97)%Z →
  (98 < SUPPORTED_CHARACTERS)%Z →
  (SUPPORTED_CHARACTERS - FIRST_CHARACTER ≤ 256)%Z →
  (SUPPORTED_CHARACTERS - FIRST_CHARACTER ≤ 2 ^ Z.of_nat MAX_BITS)%Z →
  let input := [97; 98; NEW_LINE]%Z in
  let frequencies : gmap Z N :=
    <[END_OF_TEXT := 1%N]> (<[NEW_LINE := 1%N]> (<[98%Z := 1%N]>
      (<[97%Z := 1%N]> ∅))) in
  let code_table : gmap Z bits :=
    <[98%Z := ["1"; "1"]%char]> (<[97%Z := ["1"; "0"]%char]>
      (<[END_OF_TEXT := ["0"; "1"]%char]>
        (<[NEW_LINE := ["0"; "0"]%char]> ∅))) in
  ∃ tree rest,
    extract_frequencies FIRST_CHARACTER END_OF_TEXT input =
      Returns frequencies ∧
    build_huffman_tree frequencies = Returns tree ∧
    length (leaves tree 0) = 4 ∧
    Forall (λ leaf, leaf.2 = 2) (leaves tree 0) ∧
    generate_canonical_codes (generate_huffman_codes tree) =
      Returns code_table ∧
    compress FIRST_CHARACTER SUPPORTED_CHARACTERS END_OF_TEXT MAX_BITS input =
      Returns (2%Z :: rest).
Proof.
  intros Hfirst Heot Hsupported Hbyte Hfields input frequencies code_table.
  unfold NEW_LINE in *.
  destruct (compress_output FIRST_CHARACTER SUPPORTED_CHARACTERS END_OF_TEXT
    MAX_BITS ltac:(lia) ltac:(unfold NEW_LINE; lia) ltac:(lia) Hbyte Hfields
    input)
    as (frequencies' & tree & body & content & _ & _ & Hextract & Hbuild &
        Htree & _ & _ & _ & _ & Hcompress & _); [done | done | |].
  { unfold input, NEW_LINE. repeat constructor; lia. }
  (* the frequency table *)
  assert (characters input = input) as Hchars.
  { rewrite characters_eq, decide_True; [done | by right]. }
  assert (frequencies' = frequencies) as ->.
  { rewrite extract_frequencies_Returns in Hextract.
    2:{ rewrite Hchars. unfold input. repeat constructor; lia. }
    injection Hextract as <-. apply map_eq. intros s.
    rewrite lookup_extract_frequencies, Hchars.
    unfold frequencies, input.
    destruct (decide (s = END_OF_TEXT)) as [-> | ?];
      [|destruct (decide (s = 10%Z)) as [-> | ?];
        [|destruct (decide (s = 98%Z)) as [-> | ?];
          [|destruct (decide (s = 97%Z)) as [-> | ?]]]];
      rewrite ?lookup_insert_eq, ?lookup_insert_ne, ?lookup_empty by done.
    all: repeat case_decide; try done; try lia; try set_solver.
    all: rewrite ?occurrences_cons; repeat case_decide; try done; lia. }
  assert (map_to_list frequencies ≡ₚ
          [(END_OF_TEXT, 1%N); (10%Z, 1%N); (98%Z, 1%N); (97%Z, 1%N)])
    as Hlist.
  { unfold frequencies, NEW_LINE.
    rewrite !map_to_list_insert, map_to_list_empty; [done|..].
    - done.
    - by rewrite lookup_insert_ne.
    - by rewrite !lookup_insert_ne.
    - rewrite !lookup_insert_ne by lia. done. }
  (* the tree *)
  destruct (build_huffman_tree_correct frequencies)
    as (tree' & Hbuild' & Hstrict & Hweights & _ & _ & Hoptimal).
  { unfold frequencies. apply insert_non_empty. }
  { unfold total. by rewrite Hlist. }
  rewrite Hbuild in Hbuild'. injection Hbuild' as <-.
  specialize (Hoptimal
    (parent (parent (leaf END_OF_TEXT 1) (leaf 10 1))
            (parent (leaf 98 1) (leaf 97 1)))).
  rewrite Hlist in Hweights, Hoptimal.
  specialize (Hoptimal ltac:(repeat constructor) ltac:(done)).
  pose proof (complete_strict tree Hstrict) as Hcomplete.
  destruct (generate_huffman_codes_sorted_paths tree Htree)
    as (_ & Hlengths & Hsorted).
  unfold cost at 1 in Hoptimal. unfold leaf_weights in Hweights.
  pose proof (Permutation_length Hweights) as Hfour.
  rewrite length_map in Hfour.
  assert (Forall (λ sw : Z * N, sw.2 = 1%N) (map fst (leaves tree 0)))
    as Hones.
  { rewrite Hweights. repeat constructor. }
  destruct (leaves tree 0)
    as [|[[s1 w1] d1] [|[[s2 w2] d2] [|[[s3 w3] d3] [|[[s4 w4] d4] [|]]]]]
    eqn:Hleaves; try done.
  simpl in Hones. rewrite !Forall_cons in Hones. simpl in Hones.
  destruct Hones as (-> & -> & -> & -> & _).
  apply four_depths in Hcomplete; [|done|].
  2:{ replace (cost _) with 8%N in Hoptimal by (by vm_compute).
      unfold path_length, sum_weights in Hoptimal.
      cbn [map foldr fst snd] in *. lia. }
  injection Hcomplete as -> -> -> ->.
  (* the codes *)
  assert (map (λ entry : Z * bits, (entry.1, length entry.2))
            (generate_huffman_codes tree) =
          [(10%Z, 2); (END_OF_TEXT, 2); (97%Z, 2); (98%Z, 2)]) as Hraw.
  { apply (StronglySorted_unique length_then_symbol).
    - by apply code_le_lengths.
    - repeat constructor; unfold length_then_symbol; simpl; lia.
    - rewrite Hlengths. simpl.
      apply (Permutation_map (λ sw : Z * N, (sw.1, 2))) in Hweights.
      simpl in Hweights. rewrite Hweights.
      etrans; [apply perm_swap|]. do 2 apply perm_skip. apply perm_swap. }
  assert (canonical_list (generate_huffman_codes tree) =
          [(10%Z, ["0"; "0"]%char); (END_OF_TEXT, ["0"; "1"]%char);
           (97%Z, ["1"; "0"]%char); (98%Z, ["1"; "1"]%char)]) as Hcodes.
  { rewrite <- codes_of_lengths_canonical_list, Hraw. reflexivity. }
  exists tree, (body ++ content). rewrite Hleaves.
  split; [done|]. split; [done|]. split; [done|].
  split; [repeat constructor|]. split.
  - rewrite generate_canonical_codes_Returns, Hcodes by done. done.
  - rewrite Hcompress. simpl. rewrite Hcodes. done.
Qed.

End Scenario.

(** * Further properties of the encoder *)

(** ** The binary counter *)

Section Counter.

(** X1: [next_binary] counts. On a non-empty string of binary digits it returns
    the string of binary digits that denotes the next number; the string
    keeps its length, leading zeros included, unless all its digits are
    ['1'], and is then one digit longer. *)
Theorem next_binary_increments number :
  number ≠ [] →
  Forall binary_digit number →
  ∃ next,
    next_binary number = Returns next ∧
    Forall binary_digit next ∧
    bits_value next = (bits_value number + 1)%Z ∧
    length next =
      if decide (Forall (λ c, c = "1"%char) number) then S (length number)
      else length number.
Proof.
  intros Hne Hbinary. exists (successor number).
  split; [by apply next_binary_successor|].
  split; [by apply successor_binary|].
  split; [by apply successor_value | apply successor_length].
Qed.

Lemma canonical_sequence_lengths last_code
    (elements1 elements2 : list (Z * bits)) :
  map (λ e : Z * bits, (e.1, length e.2)) elements1 =
  map (λ e : Z * bits, (e.1, length e.2)) elements2 →
  canonical_sequence last_code elements1 =
  canonical_sequence last_code elements2.
Proof.
  revert last_code elements2.
  induction elements1 as [|e1 elements1 IH]; intros last_code [|e2 elements2];
    try done.
  simpl. intros [= Hs Hn Htail]. rewrite Hs, Hn. f_equal. by apply IH.
Qed.

(** X2: of the raw codes only the lengths count: the canonical codes of two
    lists are the same when the lists agree on the symbols and on the
    lengths of the raw codes, whatever the bits of the raw codes are. *)
Theorem generate_canonical_codes_lengths_only
    (huffman_codes1 huffman_codes2 : list (Z * bits)) :
  map (λ e : Z * bits, (e.1, length e.2)) huffman_codes1 =
  map (λ e : Z * bits, (e.1, length e.2)) huffman_codes2 →
  generate_canonical_codes huffman_codes1 =
  generate_canonical_codes huffman_codes2.
Proof.
  destruct huffman_codes1 as [|front1 elements1],
    huffman_codes2 as [|front2 elements2]; try done.
  intros Heq. cbn [map] in Heq. injection Heq as Hs Hn Htail.
  destruct elements1 as [|e1 elements1], elements2 as [|e2 elements2];
    try done.
  - rewrite !generate_canonical_codes_assign by by left.
    unfold canonical_list. by rewrite Hs, Hn.
  - destruct (decide (front1.2 = [])) as [Hnil|Hne].
    + assert (front2.2 = []) as Hnil'.
      { apply nil_length_inv. rewrite <- Hn, Hnil. done. }
      by rewrite !generate_canonical_codes_Undefined.
    + assert (front2.2 ≠ []) as Hne'.
      { intros Hnil. apply Hne, nil_length_inv. by rewrite Hn, Hnil. }
      rewrite !generate_canonical_codes_assign by by right.
      unfold canonical_list. rewrite Hs, Hn.
      by rewrite (canonical_sequence_lengths _ _ (e2 :: elements2)).
Qed.

(** X3: what [generate_canonical_codes] does at the edges: [front()] of an
    empty list is undefined; a list of one element gives the table with the
    all-zero code of the element's length; and when the first code is empty
    and other elements follow, [next_binary] is called on the empty string
    and indexes it out of bounds. *)
Theorem generate_canonical_codes_edges :
  generate_canonical_codes [] = Undefined ∧
  (∀ front : Z * bits,
     generate_canonical_codes [front] =
     Returns {[ front.1 := replicate (length front.2) "0"%char ]}) ∧
  (∀ (front current : Z * bits) elements,
     front.2 = [] →
     generate_canonical_codes (front :: current :: elements) = Undefined).
Proof.
  split; [done|]. split.
  - intros front. rewrite generate_canonical_codes_assign by by left. done.
  - intros front current elements Hnil.
    by apply generate_canonical_codes_Undefined.
Qed.

End Counter.

(** ** The codes of a Huffman tree *)

Section Codes.

Context {impl : Implementation}.

(** X4: the lengths of the codes of a Huffman tree fill the code space: in
    units of codes of length [M], no code being longer, they add up to
    [2^M] (Kraft's equality). *)
Theorem generate_huffman_codes_kraft root M :
  huffman_tree root →
  Forall (λ e : Z * bits, length e.2 ≤ M) (generate_huffman_codes root) →
  kraft M (map (λ e : Z * bits, length e.2) (generate_huffman_codes root)) =
  (2 ^ Z.of_nat M)%Z.
Proof.
  intros Hroot Hbound.
  destruct (generate_huffman_codes_complete root Hroot) as (_ & _ & Hcomplete).
  apply complete_kraft; [done|]. by apply Forall_map.
Qed.

(** X5: for the list of a Huffman tree with distinct symbols canonicalisation
    keeps the lengths: every symbol gets a code of binary digits as long
    as its raw code, the depth of its leaf. *)
Theorem generate_canonical_codes_lengths root :
  huffman_tree root →
  NoDup (symbols root) →
  ∃ canonical_codes,
    generate_canonical_codes (generate_huffman_codes root) =
      Returns canonical_codes ∧
    ∀ s raw,
      (s, raw) ∈ generate_huffman_codes root →
      ∃ code,
        canonical_codes !! s = Some code ∧
        length code = length raw ∧
        Forall binary_digit code.
Proof.
  intros Hroot Hnodup.
  destruct (generate_huffman_codes_complete root Hroot)
    as (Hne & Hsorted & Hcomplete).
  destruct (generate_huffman_codes_sorted_paths root Hroot)
    as (Hpaths & _ & _).
  destruct (canonical_list_prefix_free _ Hne Hsorted Hcomplete)
    as (Hsame & Hbinary & _).
  eexists. split; [by apply generate_canonical_codes_Returns|].
  set (raw_codes := generate_huffman_codes root) in *.
  assert (NoDup (map fst (canonical_list raw_codes))) as Hkeys.
  { by rewrite map_fst_canonical_list, Hpaths, map_fst_paths. }
  intros s raw Hin.
  assert (∃ code, (s, code) ∈ canonical_list raw_codes ∧
                  length code = length raw) as (code & Hcode & Hlen).
  { clear -Hsame Hin. induction Hsame as [|e c l cl [Hs Hn] _ IH].
    - by apply elem_of_nil in Hin.
    - apply elem_of_cons in Hin as [<-|Hin].
      + destruct c as [s' code]. simpl in *. subst s'.
        exists code. split; [by left | done].
      + destruct (IH Hin) as (code & ? & ?). exists code.
        split; [by right | done]. }
  exists code. split; [by apply lookup_assign|]. split; [done|].
  rewrite Forall_forall in Hbinary. by apply (Hbinary (s, code)).
Qed.

End Codes.

(** ** The lengths of the codes *)

Section Lengths.

Context {impl : Implementation}.

(** X6: in the list of a Huffman tree with two or more leaves no code is
    empty, and every code is shorter than the number of leaves: with at
    most 256 symbols a code has at most 255 bits, and its length fits a
    field of 8 bits. *)
Theorem generate_huffman_codes_length_bound root s code :
  huffman_tree root →
  2 ≤ length (leaves root 0) →
  (s, code) ∈ generate_huffman_codes root →
  1 ≤ length code < length (leaves root 0).
Proof.
  intros Hroot Hsize Hin.
  destruct (generate_huffman_codes_sorted_paths root Hroot)
    as (_ & Hlengths & _).
  pose proof (complete_strict root (huffman_tree_strict root Hroot))
    as Hcomplete.
  pose proof (complete_positive _ Hcomplete) as Hpositive.
  pose proof (complete_bound _ Hcomplete) as Hbound.
  rewrite length_map in Hpositive, Hbound.
  specialize (Hpositive Hsize).
  assert (length code ∈ map snd (leaves root 0)) as Hdepth.
  { assert ((s, length code) ∈
            map (λ entry : Z * N * nat, (entry.1.1, entry.2)) (leaves root 0))
      as Hentry.
    { rewrite <- Hlengths.
      by apply (list_elem_of_fmap_2
        (λ entry : Z * bits, (entry.1, length entry.2)) _ (s, code)). }
    apply list_elem_of_fmap in Hentry as [leaf [[= _ ->] Hleaf]].
    by apply (list_elem_of_fmap_2 snd). }
  rewrite Forall_forall in Hpositive, Hbound.
  split; [by apply Hpositive | by apply Hbound].
Qed.

(** The canonical code of the symbol of a leaf is as long as the leaf is
    deep. *)
Lemma canonical_codes_depths root leaf :
  huffman_tree root →
  NoDup (symbols root) →
  leaf ∈ leaves root 0 →
  ∃ code,
    assign (canonical_list (generate_huffman_codes root)) ∅ !! leaf.1.1 =
      Some code ∧
    length code = leaf.2.
Proof.
  intros Hroot Hnodup Hleaf.
  destruct (generate_huffman_codes_complete root Hroot)
    as (Hne & Hsorted & Hcomplete).
  destruct (generate_huffman_codes_sorted_paths root Hroot)
    as (Hpaths & Hlengths & _).
  destruct (canonical_list_prefix_free _ Hne Hsorted Hcomplete)
    as (Hsame & _ & _).
  set (raw := generate_huffman_codes root) in *.
  assert (NoDup (map fst (canonical_list raw))) as Hkeys.
  { by rewrite map_fst_canonical_list, Hpaths, map_fst_paths. }
  assert ((leaf.1.1, leaf.2) ∈
          map (λ entry : Z * bits, (entry.1, length entry.2)) raw) as Hin.
  { rewrite Hlengths.
    by apply (list_elem_of_fmap_2
      (λ entry : Z * N * nat, (entry.1.1, entry.2))). }
  apply list_elem_of_fmap in Hin as [e [[= Hs Hd] He]].
  apply list_elem_of_lookup in He as [i Hi].
  destruct (Forall2_lookup_l _ _ _ _ _ Hsame Hi) as ([s code] & Hc & Hs' & Hn).
  simpl in Hs', Hn. subst s. exists code. split; [|congruence].
  rewrite Hs. apply lookup_assign; [done|]. by eapply list_elem_of_lookup_2.
Qed.

End Lengths.

(** ** Canonical codes count through the code space *)

Section Tiling.

Lemma tiling_lookup M start codes stop i c1 c2 :
  tiling M start codes stop →
  codes !! i = Some c1 →
  codes !! S i = Some c2 →
  (bits_value c2.2 * slot M (length c2.2) =
   (bits_value c1.2 + 1) * slot M (length c1.2))%Z.
Proof.
  revert start i. induction codes as [|c codes IH]; intros start i; [done|].
  intros [Hc Htiling] Hi HSi. destruct i as [|i].
  - injection Hi as ->. destruct codes as [|c' codes]; [done|].
    injection HSi as ->. destruct Htiling as [Hc2 _]. lia.
  - by apply (IH _ i Htiling).
Qed.

Lemma tiling_last M start codes stop c :
  tiling M start codes stop →
  last codes = Some c →
  ((bits_value c.2 + 1) * slot M (length c.2))%Z = stop.
Proof.
  revert start. induction codes as [|c' codes IH]; intros start; [done|].
  intros [Hc Htiling] Hlast. destruct codes as [|c'' codes].
  - injection Hlast as ->. simpl in Htiling. lia.
  - by apply (IH _ Htiling).
Qed.

Lemma canonical_sequence_tiling M last elements :
  Forall binary_digit last →
  StronglySorted (λ a b : Z * bits, length a.2 ≤ length b.2) elements →
  Forall (λ e, length last ≤ length e.2 ≤ M) elements →
  ((bits_value last + 1) * slot M (length last) +
   kraft M (map (λ e, length e.2) elements) ≤ 2 ^ Z.of_nat M)%Z →
  tiling M ((bits_value last + 1) * slot M (length last))
    (canonical_sequence last elements)
    ((bits_value last + 1) * slot M (length last) +
     kraft M (map (λ e, length e.2) elements)).
Proof.
  intros Hbinary Hsorted. revert last Hbinary.
  induction Hsorted as [|e elements Hsorted IH He];
    intros last Hbinary Hbound Hroom.
  { unfold kraft. simpl. lia. }
  apply Forall_cons in Hbound as [[Hlast HM] Hbound].
  unfold kraft in *. cbn [map foldr] in *.
  fold (kraft M (map (λ e, length e.2) elements)) in *.
  pose proof (kraft_nonneg M (map (λ e, length e.2) elements)) as Hshare.
  destruct (pad_successor M last (length e.2) _ Hbinary Hlast HM Hshare)
    as (Hcode & Hlength & Hvalue); [lia|].
  cbn [canonical_sequence tiling fst snd].
  set (code := pad (successor last) (length e.2)) in *. clearbody code.
  rewrite Hlength. split; [done|].
  specialize (IH code Hcode). rewrite Hlength in IH.
  replace ((bits_value last + 1) * slot M (length last) +
           slot M (length e.2))%Z
    with ((bits_value code + 1) * slot M (length e.2))%Z by lia.
  replace ((bits_value last + 1) * slot M (length last) +
           (slot M (length e.2) +
            kraft M (map (λ e, length e.2) elements)))%Z
    with ((bits_value code + 1) * slot M (length e.2) +
          kraft M (map (λ e, length e.2) elements))%Z by lia.
  apply IH.
  - eapply Forall_impl.
    + apply Forall_and. split; [exact He | exact Hbound].
    + simpl. lia.
  - lia.
Qed.

Lemma canonical_list_tiling l :
  l ≠ [] →
  StronglySorted code_le l →
  complete (map (λ e, length e.2) l) →
  let M := max_list (map (λ e : Z * bits, length e.2) l) in
  tiling M 0 (canonical_list l) (2 ^ Z.of_nat M).
Proof.
  intros Hne Hsorted Hcomplete M. destruct l as [|front elements]; [done|].
  assert (Forall (λ d, d ≤ M) (map (λ e, length e.2) (front :: elements)))
    as HM.
  { apply Forall_forall. intros d Hd. by apply elem_of_max_list. }
  pose proof (complete_kraft M _ Hcomplete HM) as Hkraft.
  apply StronglySorted_inv in Hsorted as [Hsorted Hfront].
  cbn [canonical_list]. set (zeros := replicate (length front.2) "0"%char).
  assert (Forall binary_digit zeros) as Hzeros.
  { apply Forall_replicate. by left. }
  assert (length zeros = length front.2) as Hlength.
  { apply length_replicate. }
  assert (bits_value zeros = 0%Z) as Hvalue.
  { apply bits_value_zeros. }
  unfold kraft in Hkraft. cbn [map foldr] in Hkraft.
  fold (kraft M (map (λ e, length e.2) elements)) in Hkraft.
  pose proof (canonical_sequence_tiling M zeros elements Hzeros) as Htiling.
  rewrite Hvalue, Hlength in Htiling.
  cbn [tiling fst snd]. rewrite Hvalue, Hlength. split; [lia|].
  replace (0 + slot M (length front.2))%Z
    with ((0 + 1) * slot M (length front.2))%Z by lia.
  rewrite <- Hkraft.
  replace (slot M (length front.2) +
           kraft M (map (λ e, length e.2) elements))%Z
    with ((0 + 1) * slot M (length front.2) +
          kraft M (map (λ e, length e.2) elements))%Z by lia.
  apply Htiling.
  - eapply StronglySorted_weaken; [|exact Hsorted]. apply code_le_length.
  - apply Forall_forall. intros e He. split.
    + apply code_le_length. by eapply Forall_forall in Hfront.
    + eapply Forall_forall in HM; [exact HM|]. right.
      by apply (list_elem_of_fmap_2 (λ e, length e.2)).
  - lia.
Qed.

(** A string of [n] binary digits that denotes [2^n - 1] consists of
    ['1']s. *)
Lemma bits_value_all_ones code :
  Forall binary_digit code →
  bits_value code = (2 ^ Z.of_nat (length code) - 1)%Z →
  Forall (λ c, c = "1"%char) code.
Proof.
  induction 1 as [|c code Hc Hcode IH]; [done|]. intros Hvalue.
  rewrite (bits_value_app [c] code : bits_value (c :: code) = _) in Hvalue.
  cbn [length] in Hvalue.
  rewrite Nat2Z.inj_succ, Z.pow_succ_r in Hvalue by lia.
  pose proof (bits_value_bound code) as Hbound.
  assert (bits_value [c] = if decide (c = "1"%char) then 1 else 0)%Z
    as Hdigit by done.
  rewrite Hdigit in Hvalue. case_decide as Hone; [|nia].
  constructor; [done|]. apply IH. lia.
Qed.

End Tiling.

Lemma StronglySorted_consecutive {A} (R : relation A) l i x y :
  StronglySorted R l → l !! i = Some x → l !! S i = Some y → R x y.
Proof.
  intros Hsorted. revert i. induction Hsorted as [|a l _ IH Ha]; [done|].
  intros [|i] Hx Hy.
  - injection Hx as ->. rewrite Forall_forall in Ha. apply Ha.
    by eapply list_elem_of_lookup_2.
  - by apply (IH i).
Qed.

Section Consecutive.

Context {impl : Implementation}.

(** X7: the canonical codes of a Huffman tree with distinct symbols count up
    through the code space: taken in the order of the sorted list, the
    first code is all zeros, each next code is the number after the code
    before it, shifted left by the difference of the lengths, and the last
    code is all ones. *)
Theorem canonical_codes_count_up root :
  huffman_tree root →
  NoDup (symbols root) →
  let raw := generate_huffman_codes root in
  ∃ canonical_codes,
    generate_canonical_codes raw = Returns canonical_codes ∧
    (∀ first, head raw = Some first →
       canonical_codes !! first.1 =
       Some (replicate (length first.2) "0"%char)) ∧
    (∀ i previous current,
       raw !! i = Some previous →
       raw !! S i = Some current →
       ∃ code1 code2,
         canonical_codes !! previous.1 = Some code1 ∧
         canonical_codes !! current.1 = Some code2 ∧
         length code1 ≤ length code2 ∧
         bits_value code2 =
           ((bits_value code1 + 1) *
            2 ^ Z.of_nat (length code2 - length code1))%Z) ∧
    (∀ final, last raw = Some final →
       ∃ code,
         canonical_codes !! final.1 = Some code ∧
         length code = length final.2 ∧
         Forall (λ c, c = "1"%char) code).
Proof.
  intros Hroot Hnodup raw.
  destruct (generate_huffman_codes_complete root Hroot)
    as (Hne & Hsorted & Hcomplete).
  destruct (generate_huffman_codes_sorted_paths root Hroot)
    as (Hpaths & _ & _).
  destruct (canonical_list_prefix_free _ Hne Hsorted Hcomplete)
    as (Hsame & Hbinary & _).
  pose proof (canonical_list_tiling _ Hne Hsorted Hcomplete) as Htiling.
  fold raw in Hne, Hsorted, Hcomplete, Hpaths, Hsame, Hbinary, Htiling.
  set (M := max_list (map (λ e : Z * bits, length e.2) raw)) in *.
  simpl in Htiling.
  assert (NoDup (map fst (canonical_list raw))) as Hkeys.
  { by rewrite map_fst_canonical_list, Hpaths, map_fst_paths. }
  assert (∀ i e, raw !! i = Some e →
    ∃ code, canonical_list raw !! i = Some (e.1, code) ∧
            length code = length e.2 ∧ length code ≤ M ∧
            Forall binary_digit code ∧
            assign (canonical_list raw) ∅ !! e.1 = Some code) as Hentry.
  { intros i e Hi.
    destruct (Forall2_lookup_l _ _ _ _ _ Hsame Hi) as ([s code] & Hc & Hs & Hn).
    simpl in Hs, Hn. subst s. exists code. split; [done|]. split; [done|].
    split; [|split].
    - rewrite Hn. apply elem_of_max_list.
      apply (list_elem_of_fmap_2 (λ e : Z * bits, length e.2)).
      by eapply list_elem_of_lookup_2.
    - by apply (Forall_lookup_1 _ _ _ _ Hbinary Hc).
    - apply lookup_assign; [done|]. by eapply list_elem_of_lookup_2. }
  exists (assign (canonical_list raw) ∅).
  split; [by apply generate_canonical_codes_Returns|]. split; [|split].
  - intros first Hfirst. rewrite head_lookup in Hfirst.
    destruct (Hentry _ _ Hfirst) as (code & Hc & _ & _ & _ & Hcode).
    rewrite Hcode. f_equal.
    destruct raw as [|front elements]; [done|].
    injection Hfirst as ->. by injection Hc as <-.
  - intros i previous current Hprevious Hcurrent.
    destruct (Hentry _ _ Hprevious) as (code1 & Hc1 & Hn1 & HM1 & _ & Hcode1).
    destruct (Hentry _ _ Hcurrent) as (code2 & Hc2 & Hn2 & HM2 & _ & Hcode2).
    exists code1, code2. split; [done|]. split; [done|].
    assert (length code1 ≤ length code2) as Hle.
    { rewrite Hn1, Hn2. apply code_le_length.
      by apply (StronglySorted_consecutive _ _ _ _ _ Hsorted Hprevious). }
    split; [done|].
    pose proof (tiling_lookup _ _ _ _ _ _ _ Htiling Hc1 Hc2) as Hvalue.
    simpl in Hvalue.
    rewrite (slot_split M (length code1) (length code2 - length code1))
      in Hvalue by lia.
    replace (length code1 + (length code2 - length code1))
      with (length code2) in Hvalue by lia.
    pose proof (slot_pos M (length code2)) as Hpos.
    apply (Z.mul_cancel_r _ _ (slot M (length code2))); lia.
  - intros final Hfinal. rewrite last_lookup in Hfinal.
    destruct (Hentry _ _ Hfinal) as (code & Hc & Hn & HM & Hdigits & Hcode).
    exists code. split; [done|]. split; [done|].
    apply bits_value_all_ones; [done|].
    rewrite (Forall2_length _ _ _ Hsame), <- last_lookup in Hc.
    pose proof (tiling_last _ _ _ _ _ Htiling Hc) as Hvalue.
    simpl in Hvalue. pose proof (slot_full M (length code) HM) as Hfull.
    pose proof (slot_pos M (length code)) as Hpos.
    assert ((bits_value code + 1)%Z = (2 ^ Z.of_nat (length code))%Z); [|lia].
    apply (Z.mul_cancel_r _ _ (slot M (length code))); lia.
Qed.

End Consecutive.

(** ** Counting *)

Section Counting.

Variables FIRST_CHARACTER END_OF_TEXT : Z.

Lemma total_insert (frequencies : gmap Z N) c count :
  total (<[c := count]> frequencies) =
  (total (delete c frequencies) + count)%N.
Proof.
  unfold total. rewrite <- insert_delete_eq.
  rewrite map_to_list_insert by apply lookup_delete_eq. simpl. lia.
Qed.

Lemma total_delete (frequencies : gmap Z N) c :
  total frequencies =
  (total (delete c frequencies) + default 0%N (frequencies !! c))%N.
Proof.
  destruct (frequencies !! c) as [count|] eqn:Hc; simpl.
  - rewrite <- total_insert. by rewrite insert_id.
  - rewrite delete_id by done. lia.
Qed.

Lemma total_increment (frequencies : gmap Z N) c :
  (total frequencies + 1 < 2 ^ 32)%N →
  total (increment c frequencies) = (total frequencies + 1)%N.
Proof.
  intros Hbound.
  assert (increment c frequencies =
          <[c := wrap32 (default 0%N (frequencies !! c) + 1)]> frequencies)
    as ->.
  { apply map_eq. intros c'. rewrite lookup_increment.
    case_decide; subst;
      by rewrite ?lookup_insert_eq, ?lookup_insert_ne by done. }
  rewrite total_insert, (total_delete frequencies c).
  rewrite (total_delete frequencies c) in Hbound.
  unfold wrap32. rewrite N.mod_small by lia. lia.
Qed.

Lemma total_counted l (frequencies : gmap Z N) :
  (total frequencies + N.of_nat (length l) < 2 ^ 32)%N →
  total (counted l frequencies) =
  (total frequencies + N.of_nat (length l))%N.
Proof.
  revert frequencies. induction l as [|c l IH]; intros frequencies Hbound.
  - simpl. lia.
  - change (counted (c :: l) frequencies)
      with (counted l (increment c frequencies)).
    cbn [length] in *.
    rewrite IH; rewrite total_increment by lia; lia.
Qed.

(** X8: the counts of the table add up to the number of characters read, the
    terminator of every line included, plus one for the end-of-stream
    symbol, as long as that number fits a [uint32_t]. *)
Theorem extract_frequencies_total input frequencies :
  extract_frequencies FIRST_CHARACTER END_OF_TEXT input =
    Returns frequencies →
  (N.of_nat (length (characters input)) + 1 < 2 ^ 32)%N →
  total frequencies = (N.of_nat (length (characters input)) + 1)%N.
Proof.
  intros Hreturns Hbound.
  destruct (decide (Forall (λ c, FIRST_CHARACTER ≤ c)%Z (characters input)))
    as [Hall|Hnot].
  - rewrite extract_frequencies_Returns in Hreturns by done.
    injection Hreturns as <-.
    assert (total (∅ : gmap Z N) = 0%N) as Hempty.
    { unfold total. by rewrite map_to_list_empty. }
    rewrite total_increment; rewrite total_counted; rewrite Hempty; lia.
  - destruct (extract_frequencies_Throws FIRST_CHARACTER END_OF_TEXT input
      Hnot) as (c & _ & _ & Hthrows).
    by rewrite Hthrows in Hreturns.
Qed.

(** X9: the exception carries the first unsupported character in reading
    order, the terminator appended to every line counting as a character
    read. *)
Theorem extract_frequencies_first_unsupported input before c after :
  characters input = before ++ c :: after →
  Forall (λ x, FIRST_CHARACTER ≤ x)%Z before →
  (c < FIRST_CHARACTER)%Z →
  extract_frequencies FIRST_CHARACTER END_OF_TEXT input =
  Throws (invalid_argument c).
Proof.
  intros Hsplit Hbefore Hc. unfold extract_frequencies.
  rewrite count_lines_characters, Hsplit, count_characters_app.
  rewrite count_characters_Returns by done. simpl.
  by rewrite decide_True.
Qed.

End Counting.

(** ** The content *)

Section ContentStream.

Variable END_OF_TEXT : Z.

(** X10: [encode_content] writes the codes of the characters read, the
    terminator of every line included, then the code of the end-of-stream
    symbol, and fills the last byte with zeros; a character the table has
    no code for contributes nothing. As many bytes are written as the bits
    need. On the way [operator[]] gives every character read, and the
    end-of-stream symbol, an entry in the table, the empty code where there
    was none, and changes no entry. *)
Theorem encode_content_stream input code_table :
  Forall (λ c, Forall binary_digit (code_of code_table c))
    (characters input) →
  Forall binary_digit (code_of code_table END_OF_TEXT) →
  let stream :=
    concat (map (code_of code_table) (characters input)) ++
    code_of code_table END_OF_TEXT in
  ∃ output padding code_table',
    encode_content END_OF_TEXT input code_table =
      Returns (output, code_table') ∧
    bytes_bits output = stream ++ replicate padding "0"%char ∧
    padding < 8 ∧
    Forall is_byte output ∧
    length output = (length stream + 7) / 8 ∧
    (∀ c, code_table' !! c =
          if decide (c ∈ characters input ∨ c = END_OF_TEXT)
          then Some (default [] (code_table !! c))
          else code_table !! c).
Proof.
  intros Hcodes Heot stream. unfold encode_content.
  rewrite encode_lines_characters.
  assert (packed [] ([], [])) as Hstate.
  { split; [done|]. split; [simpl; lia|]. split; constructor. }
  destruct (encode_characters_packed _ _ _ _ Hcodes Hstate)
    as (state1 & -> & Hstate1). simpl.
  rewrite (surjective_pairing (subscript [] END_OF_TEXT _)), subscript_fst.
  fold (code_of (touched (characters input) code_table) END_OF_TEXT).
  rewrite code_of_touched.
  destruct (put_bits_packed _ _ _ Hstate1 Heot) as (state2 & -> & Hstate2).
  simpl.
  destruct (flush_packed _ _ Hstate2)
    as (output & padding & -> & Hbits & Hpad & Hbytes). simpl.
  exists output, padding. eexists. split; [done|].
  change (bytes_bits output = stream ++ replicate padding "0"%char) in Hbits.
  split; [done|]. split; [done|]. split; [done|].
  split.
  - change (length output = (length stream + 7) / 8).
    apply (f_equal length) in Hbits.
    rewrite length_bytes_bits, length_app, length_replicate in Hbits.
    apply (Nat.div_unique _ 8 _ (7 - padding)); lia.
  - intros c.
    change (subscript [] END_OF_TEXT (touched (characters input) code_table)).2
      with (touched [END_OF_TEXT] (touched (characters input) code_table)).
    rewrite !lookup_touched.
    destruct (decide (c ∈ [END_OF_TEXT])) as [Hc|Hc];
      rewrite list_elem_of_singleton in Hc.
    + rewrite (decide_True (P := _ ∨ _)) by by right. by case_decide.
    + case_decide; [by rewrite (decide_True (P := _ ∨ _)) by by left|].
      by rewrite (decide_False (P := _ ∨ _)) by tauto.
Qed.

End ContentStream.

(** ** Small tables *)

Section Small.

Context {impl : Implementation}.
Variables FIRST_CHARACTER SUPPORTED_CHARACTERS END_OF_TEXT : Z.
Variable MAX_BITS : nat.

Lemma build_huffman_tree_empty : build_huffman_tree ∅ = Undefined.
Proof.
  unfold build_huffman_tree. rewrite merge_nodes_eq.
  assert (contents (push_leaves ∅) = []) as Hnil.
  { apply Permutation_nil. rewrite contents_push_leaves.
    by rewrite map_to_list_empty. }
  apply top_pop_None in Hnil. rewrite Hnil. by case_bool_decide.
Qed.

Lemma build_huffman_tree_singleton s f :
  build_huffman_tree {[ s := f ]} = Returns (leaf s f).
Proof.
  unfold build_huffman_tree. rewrite merge_nodes_eq.
  pose proof (contents_push_leaves {[ s := f ]}) as Hcontents.
  rewrite map_to_list_singleton in Hcontents. simpl in Hcontents.
  unfold size. rewrite (Permutation_length Hcontents). simpl.
  destruct (top_pop (push_leaves {[ s := f ]})) as [[top nodes]|] eqn:Htop.
  - apply top_pop_Some in Htop as [Htop _]. rewrite Hcontents in Htop.
    apply Permutation_length_1_inv in Htop. by injection Htop as <- _.
  - apply top_pop_None in Htop. rewrite Htop in Hcontents.
    by apply Permutation_nil_cons in Hcontents.
Qed.

(** X11: the merging loop at the edges: with no entry the queue is empty and
    [top()] of it is undefined; with one entry nothing is merged, and the
    tree is the leaf of that entry. *)
Theorem build_huffman_tree_small :
  build_huffman_tree ∅ = Undefined ∧
  ∀ s f, build_huffman_tree {[ s := f ]} = Returns (leaf s f).
Proof.
  split; [apply build_huffman_tree_empty|].
  apply build_huffman_tree_singleton.
Qed.

Lemma generate_huffman_codes_leaf s f :
  generate_huffman_codes (leaf s f) =
  if decide (s ≠ 0%Z) then [(s, [])] else [].
Proof.
  unfold generate_huffman_codes. rewrite traverse_visit. simpl.
  case_decide; simpl.
  - apply Permutation_length_1_inv. by rewrite sort_perm.
  - apply Permutation_nil. by rewrite sort_perm.
Qed.

Lemma largest_code_length_no_code (code_table : gmap Z bits) :
  (∀ s code, code_table !! s = Some code → code = []) →
  largest_code_length code_table = 0%N.
Proof.
  intros Hempty. unfold largest_code_length.
  assert (Forall (λ entry : Z * bits, entry.2 = []) (iteration code_table))
    as Hall.
  { apply Forall_forall. intros [s code] Hin. rewrite iteration_perm in Hin.
    apply elem_of_map_to_list in Hin. by eapply Hempty. }
  induction Hall as [|entry l Hentry _ IH]; [done|].
  simpl. by rewrite Hentry.
Qed.

(** X12: a table without a code, or with empty codes only, has largest length
    0: [std::log2(0)] is minus infinity, and its conversion to [uint32_t]
    is undefined. *)
Theorem encode_codes_length_no_code code_table :
  (∀ s code, code_table !! s = Some code → code = []) →
  encode_codes_length FIRST_CHARACTER SUPPORTED_CHARACTERS MAX_BITS
    code_table = Undefined.
Proof.
  intros Hempty. unfold encode_codes_length.
  by rewrite largest_code_length_no_code.
Qed.

(** X13: when the width exceeds [MAX_BITS], [substr] is given a position beyond
    the end of the [MAX_BITS] digits of the bitset and throws
    [std::out_of_range] at the first character of the header. *)
Theorem encode_codes_length_too_wide code_table max_length :
  (∃ s code, code_table !! s = Some code ∧ length code = max_length) →
  (∀ s code, code_table !! s = Some code → length code ≤ max_length) →
  1 ≤ max_length →
  (N.of_nat max_length < 2 ^ 32)%N →
  MAX_BITS < S (Nat.log2 max_length) →
  (FIRST_CHARACTER < SUPPORTED_CHARACTERS)%Z →
  encode_codes_length FIRST_CHARACTER SUPPORTED_CHARACTERS MAX_BITS
    code_table = Throws out_of_range.
Proof.
  intros Hex Hall Hpos Hmax Hwide Halphabet. unfold encode_codes_length.
  rewrite (largest_code_length_max code_table max_length) by done.
  unfold bit_count_of. rewrite decide_False by lia. simpl.
  rewrite seqZ_cons by lia. cbn [encode_lengths].
  destruct (subscript [] FIRST_CHARACTER code_table) as [code code_table'].
  unfold substr_from. rewrite decide_True; [done|].
  rewrite N_log2_of_nat. lia.
Qed.

(** An input that reads as nothing: the table holds the end-of-stream
    symbol alone, the tree is one leaf and the only code is empty, so the
    largest code length is 0 and the width is not defined. *)
Lemma compress_empty :
  compress FIRST_CHARACTER SUPPORTED_CHARACTERS END_OF_TEXT MAX_BITS [] =
  Undefined.
Proof.
  assert (characters [] = []) as Hchars.
  { rewrite characters_eq. apply decide_True. by left. }
  unfold compress.
  rewrite extract_frequencies_Returns by (rewrite Hchars; constructor).
  rewrite Hchars.
  assert (increment END_OF_TEXT (counted [] ∅) = {[ END_OF_TEXT := 1%N ]})
    as ->.
  { apply map_eq. intros c. rewrite lookup_increment. simpl.
    case_decide; subst;
      by rewrite ?lookup_singleton_eq, ?lookup_singleton_ne,
        ?lookup_empty by done. }
  simpl. rewrite build_huffman_tree_singleton. simpl.
  rewrite generate_huffman_codes_leaf. case_decide; [|done].
  rewrite generate_canonical_codes_assign by by left. simpl.
  unfold encode_codes_length. rewrite largest_code_length_no_code; [done|].
  intros s code. unfold assign. simpl.
  rewrite lookup_insert_Some, lookup_empty. naive_solver.
Qed.

End Small.

(** ** Files *)

Section Files.

Context {impl : Implementation}.
Variables FIRST_CHARACTER SUPPORTED_CHARACTERS END_OF_TEXT : Z.
Variable MAX_BITS : nat.

(** X14: for an input file that is empty, or cannot be opened, the
    behaviour of [create_compressed_file] is undefined: the table holds
    the end-of-stream symbol alone, the tree is one leaf and the only code
    is empty, so the largest code length is 0 and its logarithm, minus
    infinity, is converted to an integer. *)
Theorem create_compressed_file_empty file_path files :
  default [] (files !! file_path) = [] →
  (create_compressed_file FIRST_CHARACTER SUPPORTED_CHARACTERS END_OF_TEXT
     MAX_BITS file_path files).2 = Undefined.
Proof.
  intros Hempty. unfold create_compressed_file.
  rewrite lookup_insert_ne by apply output_path_ne.
  by rewrite Hempty, compress_empty.
Qed.

(** Both passes see the input through [std::getline] only: inputs that
    read as the same characters, each line with its terminator, are
    encoded alike. *)
Lemma compress_characters input1 input2 :
  characters input1 = characters input2 →
  compress FIRST_CHARACTER SUPPORTED_CHARACTERS END_OF_TEXT MAX_BITS input1 =
  compress FIRST_CHARACTER SUPPORTED_CHARACTERS END_OF_TEXT MAX_BITS input2.
Proof.
  intros Hsame.
  assert (extract_frequencies FIRST_CHARACTER END_OF_TEXT input1 =
          extract_frequencies FIRST_CHARACTER END_OF_TEXT input2) as Hextract.
  { unfold extract_frequencies. by rewrite !count_lines_characters, Hsame. }
  assert (∀ code_table,
    encode_content END_OF_TEXT input1 code_table =
    encode_content END_OF_TEXT input2 code_table) as Hcontent.
  { intros code_table. unfold encode_content.
    by rewrite !encode_lines_characters, Hsame. }
  unfold compress. rewrite Hextract.
  destruct (extract_frequencies _ _ input2) as [frequencies| |]; simpl;
    [|done..].
  destruct (build_huffman_tree frequencies) as [tree| |]; simpl; [|done..].
  destruct (generate_canonical_codes _) as [canonical_codes| |]; simpl;
    [|done..].
  destruct (encode_codes_length _ _ _ canonical_codes)
    as [[encoded_codes canonical_codes']| |]; simpl; [|done..].
  by rewrite Hcontent.
Qed.

Lemma compress_final_terminator input :
  input ≠ [] →
  last input ≠ Some NEW_LINE →
  compress FIRST_CHARACTER SUPPORTED_CHARACTERS END_OF_TEXT MAX_BITS
    (input ++ [NEW_LINE]) =
  compress FIRST_CHARACTER SUPPORTED_CHARACTERS END_OF_TEXT MAX_BITS input.
Proof.
  intros Hne Hlast. apply compress_characters.
  rewrite !characters_eq.
  rewrite decide_True by (right; apply last_snoc).
  rewrite decide_False; [done|]. by intros [?|?].
Qed.

(** X15: a last line without a terminator is encoded as if it had one: for a
    file that does not end with a line terminator the outcome and the
    output file are those for the file with one appended, so the two
    cannot be told apart afterwards. *)
Theorem create_compressed_file_final_terminator file_path files input :
  files !! file_path = Some input →
  input ≠ [] →
  last input ≠ Some NEW_LINE →
  let result :=
    create_compressed_file FIRST_CHARACTER SUPPORTED_CHARACTERS END_OF_TEXT
      MAX_BITS file_path files in
  create_compressed_file FIRST_CHARACTER SUPPORTED_CHARACTERS END_OF_TEXT
    MAX_BITS file_path (<[file_path := input ++ [NEW_LINE]]> files) =
  (<[file_path := input ++ [NEW_LINE]]> result.1, result.2).
Proof.
  intros Hfile Hne Hlast. cbn zeta. unfold create_compressed_file.
  pose proof (output_path_ne file_path) as Hpath.
  rewrite lookup_insert_ne, lookup_insert_eq by done.
  rewrite (lookup_insert_ne files) by done. rewrite Hfile. simpl.
  rewrite compress_final_terminator by done.
  destruct (compress _ _ _ _ input) as [encoded| |]; simpl; f_equal.
  - rewrite !insert_insert_eq. by apply insert_insert_ne.
  - by apply insert_insert_ne.
  - by apply insert_insert_ne.
Qed.

End Files.

(** ** The symbol ['\0'] *)

Section Nul.

Context {impl : Implementation}.

Lemma huffman_steps_merged F t :
  huffman_steps F t → Forall merged F → merged t.
Proof.
  induction 1 as [t|F first second rest F' t HF _ _ HF' _ IH];
    intros Hmerged.
  - by apply Forall_inv in Hmerged.
  - apply IH. rewrite HF in Hmerged. rewrite HF'.
    apply Forall_cons in Hmerged as [Hfirst Hmerged].
    apply Forall_cons in Hmerged as [Hsecond Hrest].
    constructor; [by constructor | done].
Qed.

Lemma visit_merged t code :
  merged t →
  visit t code ≡ₚ filter (λ entry : Z * bits, entry.1 ≠ 0%Z) (paths t code).
Proof.
  intros Ht. revert code.
  induction Ht as [s f|f l r _ IHl _ IHr]; intros code.
  - simpl. rewrite !app_nil_r. rewrite filter_cons, filter_nil. simpl.
    by case_decide.
  - simpl. rewrite IHl, IHr, filter_app. apply Permutation_app_comm.
Qed.

Lemma map_fst_filter (l : list (Z * bits)) :
  map fst (filter (λ entry : Z * bits, entry.1 ≠ 0%Z) l) =
  filter (λ s, s ≠ 0%Z) (map fst l).
Proof.
  induction l as [|entry l IH]; [done|].
  rewrite filter_cons. cbn [map]. rewrite filter_cons.
  case_decide; simpl; by rewrite IH.
Qed.

(** X16: a node is recorded when its symbol is not ['\0'], which is how a leaf
    is told from an inner node: if the table has an entry for ['\0'], its
    leaf is taken for an inner node and the symbol gets no code. The list
    has one entry for each other symbol of the table. *)
Theorem generate_huffman_codes_skips_nul frequencies tree :
  build_huffman_tree frequencies = Returns tree →
  map fst (generate_huffman_codes tree) ≡ₚ
  filter (λ s, s ≠ 0%Z) (map fst (map_to_list frequencies)).
Proof.
  intros Hreturns.
  destruct (decide (frequencies = ∅)) as [->|Hne].
  { by rewrite build_huffman_tree_empty in Hreturns. }
  destruct (build_huffman_tree_steps frequencies Hne)
    as (tree' & Hreturns' & Hsteps).
  rewrite Hreturns in Hreturns'. injection Hreturns' as <-.
  assert (merged tree) as Hmerged.
  { eapply huffman_steps_merged; [done|].
    apply Forall_map, Forall_forall. intros [s f] _. constructor. }
  unfold generate_huffman_codes.
  rewrite sort_perm, traverse_visit. simpl. rewrite app_nil_r.
  rewrite (visit_merged _ _ Hmerged), map_fst_filter, map_fst_paths.
  by rewrite (build_huffman_tree_symbols frequencies tree Hne Hreturns).
Qed.

End Nul.

(** ** What does not depend on the library *)

Lemma StronglySorted_unique_on {A} (R : relation A) (l1 l2 : list A) :
  (∀ x y, x ∈ l1 → y ∈ l1 → R x y → R y x → x = y) →
  StronglySorted R l1 → StronglySorted R l2 → l1 ≡ₚ l2 → l1 = l2.
Proof.
  intros Hanti Hsorted1. revert l2 Hanti.
  induction Hsorted1 as [|x l1 _ IH Hx]; intros l2 Hanti Hsorted2 Hperm.
  { by apply Permutation_nil in Hperm. }
  destruct Hsorted2 as [|y l2 Hsorted2 Hy].
  { symmetry in Hperm. by apply Permutation_nil in Hperm. }
  assert (x = y) as <-.
  { assert (x ∈ y :: l2) as Hxin by (rewrite <- Hperm; by left).
    assert (y ∈ x :: l1) as Hyin by (rewrite Hperm; by left).
    apply elem_of_cons in Hxin as [?|Hxin]; [done|].
    apply elem_of_cons in Hyin as [?|Hyin]; [done|].
    rewrite Forall_forall in Hx, Hy.
    apply Hanti; [by left | by right | by apply Hx | by apply Hy]. }
  f_equal. apply IH; [|done|by apply Permutation_cons_inv in Hperm].
  intros a b Ha Hb. apply Hanti; by right.
Qed.

Lemma NoDup_fst_eq (l : list (Z * bits)) x y :
  NoDup (map fst l) → x ∈ l → y ∈ l → x.1 = y.1 → x = y.
Proof.
  induction l as [|e l IH]; intros Hnodup Hx Hy Heq.
  { by apply elem_of_nil in Hx. }
  cbn [map] in Hnodup. apply NoDup_cons in Hnodup as [Hnotin Hnodup].
  apply elem_of_cons in Hx as [->|Hx], Hy as [->|Hy]; [done|..].
  - destruct Hnotin. rewrite Heq. by apply (list_elem_of_fmap_2 fst).
  - destruct Hnotin. rewrite <- Heq. by apply (list_elem_of_fmap_2 fst).
  - by apply IH.
Qed.

(** X17: [std::sort] is not stable, and the order of equivalent elements is up
    to the library; yet for a Huffman tree with distinct symbols the list
    of raw codes is the same whatever the library does, because no two
    entries have the same length and the same symbol. *)
Theorem generate_huffman_codes_unique (impl1 impl2 : Implementation) root :
  huffman_tree root →
  NoDup (symbols root) →
  @generate_huffman_codes impl1 root = @generate_huffman_codes impl2 root.
Proof.
  intros Hroot Hnodup.
  destruct (@generate_huffman_codes_sorted_paths impl1 root Hroot)
    as (Hpaths1 & _ & Hsorted1).
  destruct (@generate_huffman_codes_sorted_paths impl2 root Hroot)
    as (Hpaths2 & _ & Hsorted2).
  apply (StronglySorted_unique_on code_le); [|done|done|].
  - intros x y Hx Hy Hxy Hyx.
    apply (NoDup_fst_eq (@generate_huffman_codes impl1 root)); [|done..|].
    + by rewrite Hpaths1, map_fst_paths.
    + unfold code_le in *. lia.
  - by rewrite Hpaths1, Hpaths2.
Qed.

(** X18: which tree is built depends on the order in which the map is walked
    and on the choice the queue makes among nodes of equal weight, but its
    weighted path length, the number of bits the content takes, does not:
    any two libraries give trees of the same cost. *)
Theorem build_huffman_tree_cost (impl1 impl2 : Implementation)
    frequencies tree1 tree2 :
  (total frequencies < 2 ^ 32)%N →
  @build_huffman_tree impl1 frequencies = Returns tree1 →
  @build_huffman_tree impl2 frequencies = Returns tree2 →
  cost tree1 = cost tree2.
Proof.
  intros Htotal Hreturns1 Hreturns2.
  destruct (decide (frequencies = ∅)) as [->|Hne].
  { by rewrite (@build_huffman_tree_empty impl1) in Hreturns1. }
  destruct (@build_huffman_tree_correct impl1 frequencies Hne Htotal)
    as (t1 & Ht1 & Hstrict1 & Hleaves1 & _ & _ & Hoptimal1).
  destruct (@build_huffman_tree_correct impl2 frequencies Hne Htotal)
    as (t2 & Ht2 & Hstrict2 & Hleaves2 & _ & _ & Hoptimal2).
  rewrite Hreturns1 in Ht1. injection Ht1 as <-.
  rewrite Hreturns2 in Ht2. injection Ht2 as <-.
  specialize (Hoptimal1 tree2 Hstrict2 Hleaves2).
  specialize (Hoptimal2 tree1 Hstrict1 Hleaves1). lia.
Qed.

(** ** The size of the content *)

Section Weighted.

Variable g : Z → N.

Local Abbreviation weighted m :=
  (sum_weights (map (λ e : Z * N, e.2 * g e.1)%N (map_to_list m))).

Lemma weighted_insert (frequencies : gmap Z N) c count :
  weighted (<[c := count]> frequencies) =
  (weighted (delete c frequencies) + count * g c)%N.
Proof.
  rewrite <- insert_delete_eq.
  rewrite map_to_list_insert by apply lookup_delete_eq. simpl. lia.
Qed.

Lemma weighted_delete (frequencies : gmap Z N) c :
  weighted frequencies =
  (weighted (delete c frequencies) +
   default 0%N (frequencies !! c) * g c)%N.
Proof.
  destruct (frequencies !! c) as [count|] eqn:Hc; simpl.
  - rewrite <- weighted_insert. by rewrite insert_id.
  - rewrite delete_id by done. lia.
Qed.

Lemma weighted_increment (frequencies : gmap Z N) c :
  (total frequencies + 1 < 2 ^ 32)%N →
  weighted (increment c frequencies) = (weighted frequencies + g c)%N.
Proof.
  intros Hbound.
  assert (increment c frequencies =
          <[c := wrap32 (default 0%N (frequencies !! c) + 1)]> frequencies)
    as ->.
  { apply map_eq. intros c'. rewrite lookup_increment.
    case_decide; subst;
      by rewrite ?lookup_insert_eq, ?lookup_insert_ne by done. }
  rewrite weighted_insert, (weighted_delete frequencies c).
  rewrite (total_delete frequencies c) in Hbound.
  unfold wrap32. rewrite N.mod_small by lia. lia.
Qed.

Lemma weighted_counted l (frequencies : gmap Z N) :
  (total frequencies + N.of_nat (length l) < 2 ^ 32)%N →
  weighted (counted l frequencies) =
  (weighted frequencies + sum_weights (map g l))%N.
Proof.
  revert frequencies. induction l as [|c l IH]; intros frequencies Hbound.
  - simpl. lia.
  - change (counted (c :: l) frequencies)
      with (counted l (increment c frequencies)).
    cbn [length] in *.
    rewrite IH by (rewrite total_increment by lia; lia).
    rewrite weighted_increment by lia. simpl. lia.
Qed.

(** The weighted path length of a tree is the sum, over the table its
    leaves come from, of count times [g] when [g] gives the depth of the
    leaf of a symbol. *)
Lemma cost_weighted tree (frequencies : gmap Z N) :
  leaf_weights tree ≡ₚ map_to_list frequencies →
  (∀ leaf, leaf ∈ leaves tree 0 → g leaf.1.1 = N.of_nat leaf.2) →
  cost tree = weighted frequencies.
Proof.
  intros Hleaves Hdepth. rewrite <- Hleaves.
  unfold cost, path_length, leaf_weights. rewrite !List.map_map.
  f_equal. apply map_ext_in. intros leaf Hleaf%list_elem_of_In. simpl.
  by rewrite Hdepth.
Qed.

End Weighted.

Lemma length_concat_codes (code_table : gmap Z bits) l :
  sum_weights (map (λ c, N.of_nat (length (code_of code_table c))) l) =
  N.of_nat (length (concat (map (code_of code_table) l))).
Proof.
  induction l as [|c l IH]; [done|].
  simpl. rewrite length_app, IH. lia.
Qed.

(** ** Supported text *)

Section Success.

Context {impl : Implementation}.
Variables FIRST_CHARACTER SUPPORTED_CHARACTERS END_OF_TEXT : Z.
Variable MAX_BITS : nat.

(** What is assumed of the constants: ['\0'] is no supported character,
    the line terminator and the end-of-stream symbol are two different
    characters of the header, and the number of characters of the header
    is at most 256 and at most [2 ^ MAX_BITS]. *)
Hypothesis first_positive : (0 < FIRST_CHARACTER)%Z.
Hypothesis new_line_supported :
  (FIRST_CHARACTER ≤ NEW_LINE < SUPPORTED_CHARACTERS)%Z.
Hypothesis end_of_text_supported :
  (FIRST_CHARACTER ≤ END_OF_TEXT < SUPPORTED_CHARACTERS)%Z.
Hypothesis end_of_text_no_terminator : END_OF_TEXT ≠ NEW_LINE.
Hypothesis single_byte :
  (SUPPORTED_CHARACTERS - FIRST_CHARACTER ≤ 256)%Z.
Hypothesis fields_wide_enough :
  (SUPPORTED_CHARACTERS - FIRST_CHARACTER ≤ 2 ^ Z.of_nat MAX_BITS)%Z.

Lemma characters_idempotent input :
  characters (characters input) = characters input.
Proof.
  rewrite (characters_eq (characters input)). apply decide_True.
  rewrite characters_eq. case_decide as Hinput; [done|].
  right. apply last_snoc.
Qed.

(** What the encoder does with supported text: the table, the tree, and
    the two segments of the output. *)
Lemma compress_lines input :
  input ≠ [] →
  Forall (λ c, (FIRST_CHARACTER ≤ c < SUPPORTED_CHARACTERS)%Z) input →
  ∃ frequencies tree width body content padding,
    let table :=
      assign (canonical_list (generate_huffman_codes tree)) ∅ in
    extract_frequencies FIRST_CHARACTER END_OF_TEXT input =
      Returns frequencies ∧
    build_huffman_tree frequencies = Returns tree ∧
    huffman_tree tree ∧
    NoDup (symbols tree) ∧
    compress FIRST_CHARACTER SUPPORTED_CHARACTERS END_OF_TEXT MAX_BITS input =
      Returns (Z.of_nat width :: body ++ content) ∧
    1 ≤ width ≤ MAX_BITS ∧
    length body =
      (Z.to_nat (SUPPORTED_CHARACTERS - FIRST_CHARACTER) * width + 7) / 8 ∧
    content ≠ [] ∧
    Forall is_byte (body ++ content) ∧
    bytes_bits content =
      concat (map (code_of table) (characters input)) ++
      code_of table END_OF_TEXT ++ replicate padding "0"%char ∧
    padding < 8.
Proof.
  intros Hne Hinput.
  rewrite (compress_characters _ _ _ _ input (characters input))
    by by rewrite characters_idempotent.
  assert (extract_frequencies FIRST_CHARACTER END_OF_TEXT input =
          extract_frequencies FIRST_CHARACTER END_OF_TEXT (characters input))
    as ->.
  { unfold extract_frequencies.
    by rewrite !count_lines_characters, characters_idempotent. }
  pose proof (characters_idempotent input) as Hchars.
  assert (Forall (λ c, (FIRST_CHARACTER ≤ c < SUPPORTED_CHARACTERS)%Z)
            (characters input)) as Hrange.
  { apply Forall_forall. intros c [Hc| ->]%elem_of_characters; [|done].
    rewrite Forall_forall in Hinput. by apply Hinput. }
  assert (NEW_LINE ∈ characters input) as Hnewline.
  { rewrite characters_eq. case_decide as Hlast; [|set_solver].
    destruct Hlast as [?|Hlast]; [done|].
    apply last_Some in Hlast as [l' ->]. set_solver. }
  clear Hne Hinput. set (text := characters input) in *.
  destruct (compress_tree FIRST_CHARACTER SUPPORTED_CHARACTERS END_OF_TEXT
    MAX_BITS first_positive new_line_supported end_of_text_supported text)
    as (frequencies & tree & Hextract & Hbuild & Htree & Hnodup & Hsymbols).
  { eapply Forall_impl; [exact Hrange|]. simpl. lia. }
  rewrite Hchars in Hsymbols.
  assert (2 ≤ length (symbols tree)) as Hsize.
  { apply (NoDup_two MAX_BITS _ NEW_LINE END_OF_TEXT Hnodup); [| |done].
    - apply Hsymbols. by left.
    - apply Hsymbols. by right. }
  destruct (canonical_table tree Htree Hnodup Hsize)
    as (Hcanonical & Hraw & Hsorted & Hsame & Hfree & Htable & Hcodes & Hall).
  set (raw := generate_huffman_codes tree) in *.
  set (table := assign (canonical_list raw) ∅) in *.
  set (symbols_ := alphabet FIRST_CHARACTER SUPPORTED_CHARACTERS).
  assert (∀ s, s ∈ symbols tree → s ∈ symbols_) as Hsupported.
  { intros s [Hs| ->]%Hsymbols; unfold symbols_, alphabet;
      rewrite elem_of_seqZ; [|lia].
    rewrite Forall_forall in Hrange. apply Hrange in Hs. lia. }
  assert (length (symbols tree) ≤ length symbols_) as Hcount.
  { apply submseteq_length, NoDup_submseteq; done. }
  assert (length symbols_ =
          Z.to_nat (SUPPORTED_CHARACTERS - FIRST_CHARACTER)) as Hlength.
  { unfold symbols_, alphabet. by rewrite length_seqZ. }
  set (M := max_list (map (λ c : Z * bits, length c.2) (canonical_list raw))).
  assert (∃ s code, table !! s = Some code ∧ length code = M) as Hmax.
  { assert (M ∈ map (λ c : Z * bits, length c.2) (canonical_list raw)) as Hin.
    { apply max_list_elem_of. intros Hnil%map_eq_nil.
      destruct (Hall NEW_LINE) as [code Hcode]; [apply Hsymbols; by left|].
      apply Htable in Hcode. rewrite Hnil in Hcode.
      by apply elem_of_nil in Hcode. }
    apply list_elem_of_fmap in Hin as [[s code] [HM Hin]].
    exists s, code. split; [by apply Htable | done]. }
  assert (∀ s code, table !! s = Some code → length code ≤ M) as Hle.
  { intros s code Hs. apply elem_of_max_list.
    apply (list_elem_of_fmap_2 (λ c : Z * bits, length c.2) _ (s, code)).
    by apply Htable. }
  assert (1 ≤ M < length (symbols tree)) as HM.
  { destruct Hmax as (s & code & Hs & <-).
    by apply Hcodes in Hs as (_ & _ & ?). }
  assert (M < 2 ^ MAX_BITS) as Hfits.
  { apply Nat2Z.inj_lt. rewrite Nat2Z.inj_pow. simpl. lia. }
  assert (Nat.log2 M < MAX_BITS) as Hwidth.
  { apply Nat.log2_lt_pow2; lia. }
  destruct (encode_codes_length_Returns FIRST_CHARACTER
    SUPPORTED_CHARACTERS MAX_BITS table M Hmax Hle)
    as (body & padding & Hheader & Hbody & Hpad & Hbytes).
  { lia. } { lia. } { rewrite N_log2_of_nat. lia. }
  fold symbols_ in Hheader, Hbody.
  assert (Z.of_N (N.log2 (N.of_nat M) + 1) = Z.of_nat (S (Nat.log2 M)))
    as Hw.
  { rewrite N_log2_of_nat. lia. }
  assert (N.to_nat (N.log2 (N.of_nat M) + 1) = S (Nat.log2 M)) as Hw'.
  { rewrite N_log2_of_nat. lia. }
  rewrite Hw in Hheader. rewrite Hw' in Hbody.
  set (w := S (Nat.log2 M)) in *.
  assert (∀ c, c ∈ symbols tree →
    code_of (touched symbols_ table) c ≠ [] ∧
    Forall binary_digit (code_of (touched symbols_ table) c)) as Hcode_of.
  { intros c Hc. rewrite code_of_touched. unfold code_of.
    destruct (Hall c Hc) as [code Hcode]. rewrite Hcode. simpl.
    destruct (Hcodes _ _ Hcode) as (_ & Hbinary & Hlen).
    split; [|done]. intros ->. simpl in Hlen. lia. }
  destruct (encode_content_Returns END_OF_TEXT text
    (touched symbols_ table))
    as (content & padding' & table'' & Hcontent & Hbits & Hpad' & Hbytes').
  { rewrite Hchars. apply Forall_forall. intros c Hc.
    apply Hcode_of, Hsymbols. by left. }
  { apply Hcode_of, Hsymbols. by right. }
  rewrite Hchars in Hbits.
  assert (map (code_of (touched symbols_ table)) text =
          map (code_of table) text) as Hcodes'.
  { apply map_ext. intros c. apply code_of_touched. }
  rewrite Hcodes', code_of_touched in Hbits.
  exists frequencies, tree, w, body, content, padding'.
  cbn zeta. fold raw table.
  split; [done|]. split; [done|]. split; [done|]. split; [done|]. split.
  { unfold compress. rewrite Hextract. simpl. rewrite Hbuild. simpl.
    fold raw. rewrite Hcanonical. simpl. rewrite Hheader. simpl.
    rewrite Hcontent. done. }
  split; [unfold w; lia|]. split; [|split; [|split; [|done]]].
  - apply (f_equal length) in Hbody.
    rewrite length_bytes_bits, length_app, length_replicate in Hbody.
    rewrite (length_concat_fields _ _ w) in Hbody
      by (intros; apply length_bitset_to_string).
    rewrite <- Hlength.
    apply (Nat.div_unique _ 8 _ (7 - padding)); lia.
  - intros ->. simpl in Hbits. symmetry in Hbits.
    apply app_eq_nil in Hbits as [_ Hbits].
    apply app_eq_nil in Hbits as [Hbits _].
    destruct (Hcode_of END_OF_TEXT) as [Hcode _]; [apply Hsymbols; by right|].
    by rewrite code_of_touched in Hcode.
  - by apply Forall_app.
Qed.

(** X19: the encoder has no failure on supported text. For a file that is not
    empty and all of whose characters are characters of the header,
    [create_compressed_file] returns, without an exception and without
    undefined behaviour, and leaves in the output file the width, between 1
    and [MAX_BITS], the [ceil(A * w / 8)] bytes of the lengths and at least
    one byte of content. *)
Theorem create_compressed_file_returns file_path files input :
  files !! file_path = Some input →
  input ≠ [] →
  Forall (λ c, (FIRST_CHARACTER ≤ c < SUPPORTED_CHARACTERS)%Z) input →
  ∃ width body content,
    create_compressed_file FIRST_CHARACTER SUPPORTED_CHARACTERS END_OF_TEXT
      MAX_BITS file_path files =
      (<[(file_path +:+ ".hf")%string := Z.of_nat width :: body ++ content]>
         files, Returns ()) ∧
    1 ≤ width ≤ MAX_BITS ∧
    length body =
      (Z.to_nat (SUPPORTED_CHARACTERS - FIRST_CHARACTER) * width + 7) / 8 ∧
    content ≠ [] ∧
    Forall is_byte (body ++ content).
Proof.
  intros Hfile Hne Hinput.
  destruct (compress_lines input Hne Hinput)
    as (frequencies & tree & width & body & content & padding & _ & _ & _ &
        _ & Hcompress & Hwidth & Hbody & Hcontent & Hbytes & _).
  exists width, body, content. split; [|done].
  unfold create_compressed_file.
  rewrite lookup_insert_ne by apply output_path_ne.
  rewrite Hfile. simpl. rewrite Hcompress. f_equal.
  apply insert_insert_eq.
Qed.

(** X20: the content takes the bits the tree predicts. For supported text the
    number of bytes after the header is the weighted path length of the
    tree built from the table, the sum over the leaves of count times
    depth, in bits, rounded up to whole bytes. Counts must not wrap. *)
Theorem create_compressed_file_content_size file_path files input :
  files !! file_path = Some input →
  input ≠ [] →
  Forall (λ c, (FIRST_CHARACTER ≤ c < SUPPORTED_CHARACTERS)%Z) input →
  (N.of_nat (length (characters input)) + 1 < 2 ^ 32)%N →
  ∃ frequencies tree width body content,
    extract_frequencies FIRST_CHARACTER END_OF_TEXT input =
      Returns frequencies ∧
    build_huffman_tree frequencies = Returns tree ∧
    create_compressed_file FIRST_CHARACTER SUPPORTED_CHARACTERS END_OF_TEXT
      MAX_BITS file_path files =
      (<[(file_path +:+ ".hf")%string := Z.of_nat width :: body ++ content]>
         files, Returns ()) ∧
    length body =
      (Z.to_nat (SUPPORTED_CHARACTERS - FIRST_CHARACTER) * width + 7) / 8 ∧
    length content = (N.to_nat (cost tree) + 7) / 8.
Proof.
  intros Hfile Hne Hinput Hbound.
  destruct (compress_lines input Hne Hinput)
    as (frequencies & tree & width & body & content & padding & Hextract &
        Hbuild & Htree & Hnodup & Hcompress & _ & Hbody & _ & _ & Hbits &
        Hpad).
  cbn zeta in Hbits.
  set (table := assign (canonical_list (generate_huffman_codes tree)) ∅) in *.
  set (text := characters input) in *.
  exists frequencies, tree, width, body, content.
  split; [done|]. split; [done|]. split.
  { unfold create_compressed_file.
    rewrite lookup_insert_ne by apply output_path_ne.
    rewrite Hfile. simpl. rewrite Hcompress. f_equal.
    apply insert_insert_eq. }
  split; [done|].
  set (g := λ c, N.of_nat (length (code_of table c))).
  assert (frequencies = increment END_OF_TEXT (counted text ∅)) as Hcounted.
  { rewrite extract_frequencies_Returns in Hextract; [by injection Hextract|].
    apply Forall_forall. intros c [Hc| ->]%elem_of_characters; [|lia].
    rewrite Forall_forall in Hinput. apply Hinput in Hc. lia. }
  assert (total (∅ : gmap Z N) = 0%N) as Hempty.
  { unfold total. by rewrite map_to_list_empty. }
  assert (total frequencies = (N.of_nat (length text) + 1)%N) as Htotal.
  { rewrite Hcounted.
    rewrite total_increment; rewrite total_counted; rewrite Hempty; lia. }
  assert (frequencies ≠ ∅) as Hentries.
  { intros Hnil. rewrite Hnil, Hempty in Htotal. lia. }
  destruct (build_huffman_tree_correct frequencies Hentries)
    as (tree' & Hbuild' & _ & Hleaves & _); [lia|].
  rewrite Hbuild in Hbuild'. injection Hbuild' as <-.
  assert (cost tree =
          N.of_nat (length (concat (map (code_of table) text) ++
                            code_of table END_OF_TEXT))) as Hcost.
  { rewrite (cost_weighted g tree frequencies Hleaves).
    - rewrite Hcounted.
      rewrite weighted_increment by (rewrite total_counted; lia).
      rewrite weighted_counted by lia.
      rewrite map_to_list_empty. unfold g at 2.
      rewrite length_concat_codes, length_app. simpl. unfold g. lia.
    - intros leaf Hleaf.
      destruct (canonical_codes_depths tree leaf Htree Hnodup Hleaf)
        as (code & Hcode & Hdepth).
      unfold g, code_of. fold table in Hcode. rewrite Hcode. simpl.
      by rewrite Hdepth. }
  rewrite Hcost, Nat2N.id.
  apply (f_equal length) in Hbits.
  rewrite length_bytes_bits, app_assoc, length_app, length_replicate in Hbits.
  change (length content =
          (length (concat (map (code_of table) text) ++
                   code_of table END_OF_TEXT) + 7) / 8).
  apply (Nat.div_unique _ 8 _ (7 - padding)); lia.
Qed.

End Success.

(** * Instances

    The theorems at concrete inputs, computed with the reference
    implementation, unless another one is named, for [FIRST_CHARACTER = 1],
    [SUPPORTED_CHARACTERS = 127], [END_OF_TEXT = 26] and [MAX_BITS = 8]. *)

Section Instances.

#[local] Existing Instance Reference.implementation.

(** Decides a decidable proposition by evaluation. *)
Ltac evaluate := refine (bool_decide_unpack _ _); vm_compute; exact I.

Lemma decode_compress_witness :
  let input := [97; 98; 10]%Z in
  let files : gmap string (list Z) := {[ "in"%string := input ]} in
  ∃ output,
    create_compressed_file 1 127 26 8 "in" files =
      (<["in.hf"%string := output]> files, Returns ()) ∧
    decode 1 127 26 output = Some input.
Proof.
  apply (decode_compress 1 127 26 8);
    [lia | unfold NEW_LINE; lia | lia | lia | simpl; lia
    | reflexivity | done | done |].
  repeat constructor; lia.
Defined.

(** C1 fails for an input that holds the end-of-stream symbol: the output
    for a file of the two characters [END_OF_TEXT], ['\n'] decodes to the
    empty text. *)
Lemma decode_compress_end_of_text :
  let input := [26; 10]%Z in
  let files : gmap string (list Z) := {[ "in"%string := input ]} in
  let output :=
    [1; 0; 64; 0; 64; 0; 0; 0; 0; 0; 0; 0; 0; 0; 0; 0; 0; 160]%Z in
  create_compressed_file 1 127 26 8 "in" files =
    (<["in.hf"%string := output]> files, Returns ()) ∧
  decode 1 127 26 output = Some [].
Proof. split; vm_compute; reflexivity. Qed.

Lemma canonical_codes_prefix_free_witness :
  ∃ canonical_codes,
    generate_canonical_codes (generate_huffman_codes example_tree) =
      Returns canonical_codes ∧
    ∀ s1 s2 code1 code2,
      s1 ≠ s2 →
      canonical_codes !! s1 = Some code1 →
      canonical_codes !! s2 = Some code2 →
      ¬ code1 `prefix_of` code2.
Proof.
  apply (canonical_codes_prefix_free example_tree).
  unfold example_tree. repeat constructor; done.
Defined.

Lemma generate_canonical_codes_successors_witness :
  let front := (97%Z, ["0"]%char) in
  let elements := [(98%Z, ["1"; "0"]%char); (99%Z, ["1"; "1"]%char)] in
  ∃ canonical_codes,
    generate_canonical_codes (front :: elements) = Returns canonical_codes ∧
    (∀ s, is_Some (canonical_codes !! s) ↔ s ∈ map fst (front :: elements)) ∧
    canonical_codes !! front.1 = Some (replicate (length front.2) "0"%char) ∧
    (∀ i previous current,
       (front :: elements) !! i = Some previous →
       (front :: elements) !! S i = Some current →
       ∃ code,
         canonical_codes !! previous.1 = Some code ∧
         canonical_codes !! current.1 =
           Some (pad (successor code) (length current.2))).
Proof.
  apply (generate_canonical_codes_successors (97%Z, ["0"]%char)
    [(98%Z, ["1"; "0"]%char); (99%Z, ["1"; "1"]%char)]).
  - evaluate.
  - by right.
Defined.

(** C3 fails for the sorted list [(1, 0), (2, 1), (3, 1)]: the successor of
    the code [1] of symbol 2 is [10], so symbol 3, whose raw code has
    length 1, gets a code of length 2. *)
Lemma generate_canonical_codes_longer :
  ∃ canonical_codes,
    generate_canonical_codes
      [(1%Z, ["0"]%char); (2%Z, ["1"]%char); (3%Z, ["1"]%char)] =
      Returns canonical_codes ∧
    canonical_codes !! 3%Z = Some ["1"; "0"]%char.
Proof. eexists. split; reflexivity. Qed.

Lemma encode_codes_length_header_witness :
  let w := 2 in
  ∃ body padding code_table',
    encode_codes_length 1 127 8 example_table =
      Returns (Z.of_nat w :: body, code_table') ∧
    bytes_bits body =
      concat (map (λ c, bitset_to_string w
                          (N.of_nat (code_length example_table c)))
                (alphabet 1 127)) ++
      replicate padding "0"%char ∧
    padding < 8 ∧
    Forall is_byte body ∧
    (∀ c, bits_value (bitset_to_string w
                        (N.of_nat (code_length example_table c))) =
          Z.of_nat (code_length example_table c)) ∧
    length (Z.of_nat w :: body) = 1 + (length (alphabet 1 127) * w + 7) / 8.
Proof.
  apply (encode_codes_length_header 1 127 8 example_table 2).
  - exists 98%Z, ["1"; "0"]%char. by vm_compute.
  - change (map_Forall (λ _ (code : bits), length code ≤ 2) example_table).
    evaluate.
  - lia.
  - by vm_compute.
  - vm_compute. lia.
Defined.

Lemma encode_codes_length_table_witness :
  ∃ output code_table',
    encode_codes_length 1 127 8 example_table =
      Returns (output, code_table') ∧
    (∀ c, (1 ≤ c < 127)%Z →
          code_table' !! c = Some (default [] (example_table !! c))) ∧
    (∀ c code, example_table !! c = Some code →
               code_table' !! c = Some code) ∧
    (∀ c, ¬ (1 ≤ c < 127)%Z → code_table' !! c = example_table !! c).
Proof.
  apply (encode_codes_length_table 1 127 8 example_table 2).
  - exists 98%Z, ["1"; "0"]%char. by vm_compute.
  - change (map_Forall (λ _ (code : bits), length code ≤ 2) example_table).
    evaluate.
  - lia.
  - by vm_compute.
  - vm_compute. lia.
Defined.

Lemma create_compressed_file_unsupported_witness :
  let input := default [] (example_files !! "in"%string) in
  let result := create_compressed_file 1 127 26 8 "in" example_files in
  ((∃ c, result.2 = Throws (invalid_argument c)) ↔
   Exists (λ c, c < 1)%Z input) ∧
  (∀ c, result.2 = Throws (invalid_argument c) →
        (c < 1)%Z ∧ c ∈ input ∧
        result.1 = <[("in" +:+ ".hf")%string := []]> example_files).
Proof.
  apply (create_compressed_file_unsupported 1 127 26 8 "in" example_files).
  unfold NEW_LINE. lia.
Defined.

(** C5 fails where it says that no output is produced: for the file
    ["a\0\n"] the exception is thrown, and the output file exists, empty. *)
Lemma create_compressed_file_creates_output :
  let result := create_compressed_file 1 127 26 8 "in" example_files in
  result.2 = Throws (invalid_argument 0) ∧
  example_files !! "in.hf"%string = None ∧
  result.1 !! "in.hf"%string = Some [].
Proof. repeat split; vm_compute; reflexivity. Qed.

Lemma extract_frequencies_table_witness :
  let input := [97; 98; 10]%Z in
  ∃ frequencies,
    extract_frequencies 1 26 input = Returns frequencies ∧
    (∀ c, is_Some (frequencies !! c) ↔ c ∈ characters input ∨ c = 26%Z) ∧
    (∀ c count, frequencies !! c = Some count →
       count = wrap32 (occurrences c (characters input) +
                       (if decide (c = 26%Z) then 1 else 0))) ∧
    ((N.of_nat (length (characters input)) < 2 ^ 32 - 1)%N →
     ∀ c count, frequencies !! c = Some count →
       count = (occurrences c (characters input) +
                (if decide (c = 26%Z) then 1 else 0))%N ∧
       (c = 26%Z → count ≠ 0%N)).
Proof.
  apply (extract_frequencies_table 1 26 [97; 98; 10]%Z).
  - unfold NEW_LINE. lia.
  - repeat constructor; lia.
Defined.

(** C6 fails where it says that every symbol of the alphabet has an
    entry: the table for ["ab\n"] has none for [c]. *)
Lemma extract_frequencies_no_entry :
  ∃ frequencies,
    extract_frequencies 1 26 [97; 98; 10]%Z = Returns frequencies ∧
    frequencies !! 99%Z = None.
Proof. eexists. split; reflexivity. Qed.


(** With a weight of 32 bits the total has to fit it. For two symbols
    that occur [2^31] times each the weight of the root is 0, and the
    total of the counts is [2^32]. For four symbols that occur [2^31],
    [2^31], [2^31 + 1] and [2^31 + 1] times, the first merge wraps around
    to 0, and the tree returned costs more than the tree with all leaves
    at depth 2. *)
Lemma build_huffman_tree_wraps :
  let two : gmap Z N := {[ 97%Z := 2147483648%N; 98%Z := 2147483648%N ]} in
  let four : gmap Z N :=
    {[ 97%Z := 2147483648%N; 98%Z := 2147483648%N;
       99%Z := 2147483649%N; 100%Z := 2147483649%N ]} in
  let balanced :=
    parent (parent (leaf 97 2147483648) (leaf 98 2147483648))
           (parent (leaf 99 2147483649) (leaf 100 2147483649)) in
  (∃ tree,
     build_huffman_tree two = Returns tree ∧
     frequency tree = 0%N ∧
     total two = 4294967296%N) ∧
  (∃ tree,
     build_huffman_tree four = Returns tree ∧
     strict balanced ∧
     leaf_weights balanced ≡ₚ map_to_list four ∧
     (cost balanced < cost tree)%N).
Proof.
  split.
  - eexists. repeat split; vm_compute; reflexivity.
  - eexists. split; [vm_compute; reflexivity|].
    split; [repeat constructor|]. split; [evaluate | by vm_compute].
Qed.

(** C8 fails for a tree with a leaf that carries ['\0']: a node is
    recorded only if its symbol is not ['\0']. The tree
    [build_huffman_tree] returns for the table of ['\0'] once, [a] twice
    and [b] once has three leaves, and the list has two entries. *)
Lemma generate_huffman_codes_drops_leaf :
  let frequencies : gmap Z N := {[ 0%Z := 1%N; 97%Z := 2%N; 98%Z := 1%N ]} in
  let tree := parent (parent (leaf 0 1) (leaf 98 1)) (leaf 97 2) in
  build_huffman_tree frequencies = Returns tree ∧
  leaves tree 0 = [(0%Z, 1%N, 2); (98%Z, 1%N, 2); (97%Z, 2%N, 1)] ∧
  generate_huffman_codes tree =
    [(97%Z, ["1"]%char); (98%Z, ["0"; "1"]%char)].
Proof. repeat split; by vm_compute. Qed.

Lemma generate_huffman_codes_paths_witness :
  length (generate_huffman_codes example_tree) =
    length (leaves example_tree 0) ∧
  generate_huffman_codes example_tree ≡ₚ paths example_tree [] ∧
  map (λ entry, (entry.1, length entry.2))
    (generate_huffman_codes example_tree) ≡ₚ
    map (λ entry, (entry.1.1, entry.2)) (leaves example_tree 0) ∧
  StronglySorted code_le (generate_huffman_codes example_tree).
Proof.
  apply (generate_huffman_codes_paths example_tree).
  unfold example_tree. repeat constructor; done.
Defined.

Lemma compress_ab_witness :
  let input := [97; 98; NEW_LINE]%Z in
  let frequencies : gmap Z N :=
    <[26%Z := 1%N]> (<[NEW_LINE := 1%N]> (<[98%Z := 1%N]>
      (<[97%Z := 1%N]> ∅))) in
  let code_table : gmap Z bits :=
    <[98%Z := ["1"; "1"]%char]> (<[97%Z := ["1"; "0"]%char]>
      (<[26%Z := ["0"; "1"]%char]> (<[NEW_LINE := ["0"; "0"]%char]> ∅))) in
  ∃ tree rest,
    extract_frequencies 1 26 input = Returns frequencies ∧
    build_huffman_tree frequencies = Returns tree ∧
    length (leaves tree 0) = 4 ∧
    Forall (λ leaf, leaf.2 = 2) (leaves tree 0) ∧
    generate_canonical_codes (generate_huffman_codes tree) =
      Returns code_table ∧
    compress 1 127 26 8 input = Returns (2%Z :: rest).
Proof.
  apply (compress_ab 1 127 26 8); unfold NEW_LINE; simpl; lia.
Defined.

Lemma next_binary_increments_witness :
  let number := ["0"; "1"; "1"]%char in
  ∃ next,
    next_binary number = Returns next ∧
    Forall binary_digit next ∧
    bits_value next = (bits_value number + 1)%Z ∧
    length next =
      if decide (Forall (λ c, c = "1"%char) number) then S (length number)
      else length number.
Proof.
  apply (next_binary_increments ["0"; "1"; "1"]%char); [done|].
  repeat constructor; by (left + right).
Defined.

Lemma generate_canonical_codes_lengths_only_witness :
  generate_canonical_codes
    [(97%Z, ["0"]%char); (98%Z, ["1"; "0"]%char);
     (99%Z, ["1"; "1"]%char)] =
  generate_canonical_codes
    [(97%Z, ["1"]%char); (98%Z, ["0"; "1"]%char);
     (99%Z, ["0"; "0"]%char)].
Proof. by apply generate_canonical_codes_lengths_only. Defined.

Lemma generate_huffman_codes_kraft_witness :
  kraft 2
    (map (λ e : Z * bits, length e.2) (generate_huffman_codes example_tree)) =
  (2 ^ Z.of_nat 2)%Z.
Proof.
  apply (generate_huffman_codes_kraft example_tree 2).
  - unfold example_tree. repeat constructor; done.
  - vm_compute. repeat constructor.
Defined.

Lemma generate_canonical_codes_lengths_witness :
  ∃ canonical_codes,
    generate_canonical_codes (generate_huffman_codes example_tree) =
      Returns canonical_codes ∧
    ∀ s raw,
      (s, raw) ∈ generate_huffman_codes example_tree →
      ∃ code,
        canonical_codes !! s = Some code ∧
        length code = length raw ∧
        Forall binary_digit code.
Proof.
  apply (generate_canonical_codes_lengths example_tree).
  - unfold example_tree. repeat constructor; done.
  - evaluate.
Defined.

Lemma generate_huffman_codes_length_bound_witness :
  1 ≤ length ["1"; "0"]%char < length (leaves example_tree 0).
Proof.
  apply (generate_huffman_codes_length_bound example_tree 98).
  - unfold example_tree. repeat constructor; done.
  - vm_compute. lia.
  - evaluate.
Defined.

Lemma canonical_codes_count_up_witness :
  let raw := generate_huffman_codes example_tree in
  ∃ canonical_codes,
    generate_canonical_codes raw = Returns canonical_codes ∧
    (∀ first, head raw = Some first →
       canonical_codes !! first.1 =
       Some (replicate (length first.2) "0"%char)) ∧
    (∀ i previous current,
       raw !! i = Some previous →
       raw !! S i = Some current →
       ∃ code1 code2,
         canonical_codes !! previous.1 = Some code1 ∧
         canonical_codes !! current.1 = Some code2 ∧
         length code1 ≤ length code2 ∧
         bits_value code2 =
           ((bits_value code1 + 1) *
            2 ^ Z.of_nat (length code2 - length code1))%Z) ∧
    (∀ final, last raw = Some final →
       ∃ code,
         canonical_codes !! final.1 = Some code ∧
         length code = length final.2 ∧
         Forall (λ c, c = "1"%char) code).
Proof.
  apply (canonical_codes_count_up example_tree).
  - unfold example_tree. repeat constructor; done.
  - evaluate.
Defined.

Lemma extract_frequencies_total_witness :
  let input := [97; 98; 10]%Z in
  let frequencies : gmap Z N :=
    <[26%Z := 1%N]> (<[10%Z := 1%N]> (<[98%Z := 1%N]>
      (<[97%Z := 1%N]> ∅))) in
  extract_frequencies 1 26 input = Returns frequencies ∧
  total frequencies = (N.of_nat (length (characters input)) + 1)%N.
Proof.
  split; [by vm_compute|].
  apply (extract_frequencies_total 1 26 [97; 98; 10]%Z); by vm_compute.
Defined.

Lemma extract_frequencies_first_unsupported_witness :
  extract_frequencies 1 26 [97; 0; 98; 0; 10]%Z =
  Throws (invalid_argument 0).
Proof.
  apply (extract_frequencies_first_unsupported 1 26 [97; 0; 98; 0; 10]%Z
           [97]%Z 0 [98; 0; 10]%Z).
  - by vm_compute.
  - repeat constructor; lia.
  - lia.
Defined.

Lemma encode_content_stream_witness :
  let input := [97; 98; 10]%Z in
  let code_table : gmap Z bits :=
    <[98%Z := ["1"; "1"]%char]> (<[97%Z := ["1"; "0"]%char]>
      (<[26%Z := ["0"; "1"]%char]> (<[10%Z := ["0"; "0"]%char]> ∅))) in
  let stream :=
    concat (map (code_of code_table) (characters input)) ++
    code_of code_table 26 in
  ∃ output padding code_table',
    encode_content 26 input code_table = Returns (output, code_table') ∧
    bytes_bits output = stream ++ replicate padding "0"%char ∧
    padding < 8 ∧
    Forall is_byte output ∧
    length output = (length stream + 7) / 8 ∧
    (∀ c, code_table' !! c =
          if decide (c ∈ characters input ∨ c = 26%Z)
          then Some (default [] (code_table !! c))
          else code_table !! c).
Proof.
  apply (encode_content_stream 26 [97; 98; 10]%Z).
  - vm_compute. repeat constructor; by (left + right).
  - vm_compute. repeat constructor; by (left + right).
Defined.

Lemma encode_codes_length_no_code_witness :
  encode_codes_length 1 127 8 {[ 26%Z := [] ]} = Undefined.
Proof.
  apply (encode_codes_length_no_code 1 127 8).
  intros s code [_ <-]%lookup_singleton_Some. done.
Defined.

Lemma encode_codes_length_too_wide_witness :
  encode_codes_length 1 127 1 example_table = Throws out_of_range.
Proof.
  apply (encode_codes_length_too_wide 1 127 1 example_table 2).
  - exists 98%Z, ["1"; "0"]%char. by vm_compute.
  - change (map_Forall (λ _ (code : bits), length code ≤ 2) example_table).
    evaluate.
  - lia.
  - by vm_compute.
  - vm_compute. lia.
  - lia.
Defined.

Lemma create_compressed_file_empty_witness :
  (create_compressed_file 1 127 26 8 "missing" example_files).2 = Undefined.
Proof. by apply (create_compressed_file_empty 1 127 26 8). Defined.

Lemma create_compressed_file_final_terminator_witness :
  let files : gmap string (list Z) := {[ "in"%string := [97; 98]%Z ]} in
  let result := create_compressed_file 1 127 26 8 "in" files in
  create_compressed_file 1 127 26 8 "in"
    (<["in"%string := [97; 98]%Z ++ [NEW_LINE]]> files) =
  (<["in"%string := [97; 98]%Z ++ [NEW_LINE]]> result.1, result.2).
Proof.
  by apply (create_compressed_file_final_terminator 1 127 26 8 "in"
              {[ "in"%string := [97; 98]%Z ]} [97; 98]%Z).
Defined.

Lemma generate_huffman_codes_skips_nul_witness :
  let frequencies : gmap Z N := {[ 0%Z := 1%N; 97%Z := 2%N; 98%Z := 1%N ]} in
  let tree := parent (parent (leaf 0 1) (leaf 98 1)) (leaf 97 2) in
  build_huffman_tree frequencies = Returns tree ∧
  map fst (generate_huffman_codes tree) ≡ₚ
  filter (λ s, s ≠ 0%Z) (map fst (map_to_list frequencies)).
Proof.
  split; [by vm_compute|].
  by apply generate_huffman_codes_skips_nul.
Defined.

Lemma generate_huffman_codes_unique_witness :
  @generate_huffman_codes Reference.implementation example_tree =
  @generate_huffman_codes Backwards.implementation example_tree.
Proof.
  apply generate_huffman_codes_unique.
  - unfold example_tree. repeat constructor; done.
  - evaluate.
Defined.

Lemma build_huffman_tree_cost_witness :
  let frequencies : gmap Z N :=
    {[ 97%Z := 1%N; 98%Z := 1%N; 99%Z := 2%N; 100%Z := 2%N ]} in
  let tree1 :=
    parent (leaf 99 2) (parent (parent (leaf 98 1) (leaf 97 1)) (leaf 100 2)) in
  let tree2 :=
    parent (parent (leaf 98 1) (leaf 97 1)) (parent (leaf 100 2) (leaf 99 2)) in
  @build_huffman_tree Reference.implementation frequencies = Returns tree1 ∧
  @build_huffman_tree Backwards.implementation frequencies = Returns tree2 ∧
  cost tree1 = cost tree2.
Proof.
  split; [by vm_compute|]. split; [by vm_compute|].
  by apply (build_huffman_tree_cost Reference.implementation
              Backwards.implementation
              {[ 97%Z := 1%N; 98%Z := 1%N; 99%Z := 2%N; 100%Z := 2%N ]}).
Defined.

Lemma create_compressed_file_returns_witness :
  let files : gmap string (list Z) := {[ "in"%string := [97; 98]%Z ]} in
  ∃ width body content,
    create_compressed_file 1 127 26 8 "in" files =
      (<[("in" +:+ ".hf")%string := Z.of_nat width :: body ++ content]>
         files, Returns ()) ∧
    1 ≤ width ≤ 8 ∧
    length body = (Z.to_nat (127 - 1) * width + 7) / 8 ∧
    content ≠ [] ∧
    Forall is_byte (body ++ content).
Proof.
  refine (create_compressed_file_returns 1 127 26 8 _ _ _ _ _ _
            "in"%string {[ "in"%string := [97; 98]%Z ]} [97; 98]%Z _ _ _);
    unfold NEW_LINE; try lia; try done.
  repeat constructor; lia.
Defined.

Lemma create_compressed_file_content_size_witness :
  let files : gmap string (list Z) := {[ "in"%string := [97; 98]%Z ]} in
  ∃ frequencies tree width body content,
    extract_frequencies 1 26 [97; 98]%Z = Returns frequencies ∧
    build_huffman_tree frequencies = Returns tree ∧
    create_compressed_file 1 127 26 8 "in" files =
      (<[("in" +:+ ".hf")%string := Z.of_nat width :: body ++ content]>
         files, Returns ()) ∧
    length body = (Z.to_nat (127 - 1) * width + 7) / 8 ∧
    length content = (N.to_nat (cost tree) + 7) / 8.
Proof.
  refine (create_compressed_file_content_size 1 127 26 8 _ _ _ _ _ _
            "in"%string {[ "in"%string := [97; 98]%Z ]} [97; 98]%Z _ _ _ _);
    unfold NEW_LINE; try lia; try done.
  repeat constructor; lia.
Defined.

End Instances.
